(** * Snapdrop network core (client/scripts/network.js)

    A shallow embedding of the transfer engine: the file chunker and
    digester, the abstract peer session with its send queue, the RTC peer
    session, the peers registry, the text path, and the connection to the
    signaling server.  Each class of the
    script is a module; an object is a record of its fields and a method
    is a function from the object to the object after the call, together
    with what the call did to the outside (frames handed to the
    transport, events fired, callbacks invoked, exceptions thrown). *)

From Stdlib Require Import ZArith QArith List Lia Bool String Ascii.
From Stdlib.Strings Require Import Byte.
From stdpp Require Import base gmap strings list.
Import ListNotations.

Close Scope Q_scope.
Local Open Scope Z_scope.

(** ** JavaScript numbers

    The script divides and subtracts byte counts.  A number is modelled
    as an exact rational or one of the three special values of IEEE 754;
    the rounding of binary64 is not modelled (byte counts are integers far
    below 2^53, and the special values arise exactly as in IEEE 754:
    [0/0] is [NaN], [x/0] is an infinity, and every comparison with [NaN]
    is false). *)
Module JS.

Inductive num : Type :=
| Fin (q : Q)
| PInf
| NInf
| NaN.

Definition of_Z (z : Z) : num := Fin (inject_Z z).

Definition neg (a : num) : num :=
  match a with
  | Fin q => Fin (Qopp q)
  | PInf => NInf
  | NInf => PInf
  | NaN => NaN
  end.

Definition add (a b : num) : num :=
  match a, b with
  | NaN, _ | _, NaN => NaN
  | Fin x, Fin y => Fin (Qplus x y)
  | PInf, NInf | NInf, PInf => NaN
  | PInf, _ | _, PInf => PInf
  | NInf, _ | _, NInf => NInf
  end.

Definition sub (a b : num) : num := add a (neg b).

(** The sign of a finite operand: [Lt], [Eq] or [Gt] against zero. *)
Definition sgn (q : Q) : comparison := Qcompare q (inject_Z 0).

Definition div (a b : num) : num :=
  match a, b with
  | NaN, _ | _, NaN => NaN
  | Fin x, Fin y =>
      match sgn y with
      | Eq => match sgn x with Eq => NaN | Gt => PInf | Lt => NInf end
      | _ => Fin (Qdiv x y)
      end
  | Fin _, _ => Fin (inject_Z 0)
  | PInf, Fin y => match sgn y with Lt => NInf | _ => PInf end
  | NInf, Fin y => match sgn y with Lt => PInf | _ => NInf end
  | _, _ => NaN
  end.

(** [a < b] of the language: false as soon as an operand is [NaN]. *)
Definition ltb (a b : num) : bool :=
  match a, b with
  | NaN, _ | _, NaN => false
  | Fin x, Fin y => match Qcompare x y with Lt => true | _ => false end
  | NInf, NInf => false
  | NInf, _ => true
  | _, PInf => match a with PInf => false | _ => true end
  | _, _ => false
  end.


(** The unit interval, as the specification reads "in [0,1]". *)
Definition in_unit_interval (a : num) : Prop :=
  match a with
  | Fin q => (0 <= q /\ q <= 1)%Q
  | _ => False
  end.

(** A value of the language where the script may meet [undefined]. *)
Inductive value (A : Type) : Type :=
| Undefined
| Val (a : A).
Arguments Undefined {A}.
Arguments Val {A} a.

(** [ToNumber]: [undefined] converts to [NaN]. *)
Definition to_num (v : value num) : num :=
  match v with
  | Undefined => NaN
  | Val n => n
  end.

End JS.

(** ** Files and binary chunks *)

(** A local [File]: its name, its MIME type (the empty string when unknown) and its
    bytes; [size] is the number of bytes. *)
Record File : Type := {
  name : string;
  type : string;
  content : list byte
}.

Definition size (f : File) : Z := Z.of_nat (length (content f)).

(** [Blob.prototype.slice(start, end)]: both positions are clamped to the
    blob, a negative one counting from the end. *)
Definition slice (bs : list byte) (s e : Z) : list byte :=
  let n := Z.of_nat (length bs) in
  let rs := if s <? 0 then Z.max (n + s) 0 else Z.min s n in
  let re := if e <? 0 then Z.max (n + e) 0 else Z.min e n in
  firstn (Z.to_nat (Z.max (re - rs) 0)) (skipn (Z.to_nat rs) bs).

(** A binary frame as the receiver sees it: an [ArrayBuffer] (it has
    [byteLength] and no [size]) or a [Blob] (it has [size] and no
    [byteLength]), depending on the channel's [binaryType]. *)
Inductive chunk : Type :=
| ArrayBuffer (bytes : list byte)
| Blob (bytes : list byte).

Definition chunk_bytes (c : chunk) : list byte :=
  match c with
  | ArrayBuffer b | Blob b => b
  end.

Definition byteLength (c : chunk) : JS.value Z :=
  match c with
  | ArrayBuffer b => JS.Val (Z.of_nat (length b))
  | Blob _ => JS.Undefined
  end.

Definition blob_size (c : chunk) : JS.value Z :=
  match c with
  | ArrayBuffer _ => JS.Undefined
  | Blob b => JS.Val (Z.of_nat (length b))
  end.

(** ** class FileChunker *)
Module FileChunker.

Record t : Type := {
  _chunkSize : Z;
  _maxPartitionSize : Z;
  _offset : Z;
  _partitionSize : Z;
  _file : File;
  (** the read handed to the [FileReader] and not yet loaded *)
  reading : option (list byte)
}.

(** What a method hands to the two sinks given to the constructor. *)
Inductive effect : Type :=
| OnChunk (bytes : list byte)
| OnPartitionEnd (partitionSize : Z).

Definition new (file : File) : t :=
  {| _chunkSize := 64000;
     _maxPartitionSize := 1000000;
     _offset := 0;
     _partitionSize := 0;
     _file := file;
     reading := None |}.

(** [_readChunk] hands the next slice to the reader.  The reader is idle
    whenever the script's own sender gets here (a read started during a
    pending one would make [readAsArrayBuffer] throw). *)
Definition _readChunk (c : t) : t :=
  let chunk := slice (content (_file c)) (_offset c) (_offset c + _chunkSize c) in
  {| _chunkSize := _chunkSize c;
     _maxPartitionSize := _maxPartitionSize c;
     _offset := _offset c;
     _partitionSize := _partitionSize c;
     _file := _file c;
     reading := Some chunk |}.

Definition nextPartition (c : t) : t :=
  _readChunk
    {| _chunkSize := _chunkSize c;
       _maxPartitionSize := _maxPartitionSize c;
       _offset := _offset c;
       _partitionSize := 0;
       _file := _file c;
       reading := reading c |}.

Definition _isPartitionEnd (c : t) : bool :=
  _partitionSize c >=? _maxPartitionSize c.

Definition isFileEnd (c : t) : bool :=
  _offset c >? size (_file c).

Definition _onChunkRead (c : t) (chunk : list byte) : t * list effect :=
  let len := Z.of_nat (length chunk) in
  let c1 :=
    {| _chunkSize := _chunkSize c;
       _maxPartitionSize := _maxPartitionSize c;
       _offset := _offset c + len;
       _partitionSize := _partitionSize c + len;
       _file := _file c;
       reading := None |} in
  if _isPartitionEnd c1 || isFileEnd c1
  then (c1, [OnChunk chunk; OnPartitionEnd (_partitionSize c1)])
  else (_readChunk c1, [OnChunk chunk]).

(** The reader's [load] event: the pending read, if any, completes. *)
Definition load (c : t) : t * list effect :=
  match reading c with
  | None => (c, [])
  | Some chunk => _onChunkRead c chunk
  end.

(** [n] successive [load] events, with everything handed to the sinks, in
    order. *)
Fixpoint loads (n : nat) (c : t) : t * list effect :=
  match n with
  | O => (c, [])
  | S k =>
      let '(c1, out1) := load c in
      let '(c2, out2) := loads k c1 in
      (c2, out1 ++ out2)
  end.

(** [repeatPartition] rewinds the offset and then calls [_nextPartition],
    which no class defines: the call throws a [TypeError] after the
    rewind.  Nothing in the script calls it. *)
Definition repeatPartition (c : t) : t :=
  {| _chunkSize := _chunkSize c;
     _maxPartitionSize := _maxPartitionSize c;
     _offset := _offset c - _partitionSize c;
     _partitionSize := _partitionSize c;
     _file := _file c;
     reading := reading c |}.

Definition progress (c : t) : JS.num :=
  JS.div (JS.of_Z (_offset c)) (JS.of_Z (size (_file c))).

(** The chunks handed to [onChunk], in order. *)
Definition chunks (out : list effect) : list (list byte) :=
  flat_map (fun e => match e with OnChunk b => [b] | OnPartitionEnd _ => [] end) out.

(** The states a chunker goes through in the script: it is constructed,
    [nextPartition] is called on it, and its reader fires [load]. *)
Inductive reachable (file : File) : t -> Prop :=
| reach_new : reachable file (new file)
| reach_nextPartition c : reachable file c -> reachable file (nextPartition c)
| reach_load c : reachable file c -> reachable file (fst (load c)).

End FileChunker.

(** ** class FileDigester *)
Module FileDigester.

(** The first argument of the constructor.  [mime] is [undefined] when the
    header carries none. *)
Record meta : Type := {
  meta_name : string;
  meta_mime : JS.value string;
  meta_size : Z
}.

(** [new Blob(buffer, {type})], and the object URL that refers to it. *)
Record blob : Type := {
  blob_parts : list chunk;
  blob_type : string
}.

(** The object handed to the callback. *)
Record artifact : Type := {
  a_name : string;
  a_mime : string;
  a_size : Z;
  a_url : blob
}.

Record t : Type := {
  _buffer : list chunk;
  _bytesReceived : JS.num;
  _size : Z;
  _mime : string;
  _name : string;
  (** [true] while [_callback] is the function given to the constructor,
      [false] once it has been set to [null] *)
  _callback : bool;
  (** the [progress] property, [undefined] until the first [unchunk] *)
  progress : JS.value JS.num
}.

(** [a || b] on strings: the empty string and [undefined] are falsy. *)
Definition or_string (a : JS.value string) (b : string) : string :=
  match a with
  | JS.Val s => if String.eqb s EmptyString then b else s
  | JS.Undefined => b
  end.

(** [a || b] on numbers: [0] and [undefined] are falsy. *)
Definition or_number (a b : JS.value Z) : JS.value Z :=
  match a with
  | JS.Val n => if n =? 0 then b else a
  | JS.Undefined => b
  end.

Definition new (m : meta) : t :=
  {| _buffer := [];
     _bytesReceived := JS.of_Z 0;
     _size := meta_size m;
     _mime := or_string (meta_mime m) "application/octet-stream";
     _name := meta_name m;
     _callback := true;
     progress := JS.Undefined |}.

(** How a call of [unchunk] ends: it returns before the size is reached,
    it invokes the callback with the artifact, or it calls [null] and
    throws a [TypeError] (the callback is assumed to return normally). *)
Inductive outcome : Type :=
| Returned
| Invoked (a : artifact)
| TypeError.

Definition chunk_length (c : chunk) : JS.num :=
  match or_number (byteLength c) (blob_size c) with
  | JS.Val n => JS.of_Z n
  | JS.Undefined => JS.NaN
  end.

Definition unchunk (d : t) (c : chunk) : t * outcome :=
  let buffer := _buffer d ++ [c] in
  let bytes := JS.add (_bytesReceived d) (chunk_length c) in
  let d1 :=
    {| _buffer := buffer;
       _bytesReceived := bytes;
       _size := _size d;
       _mime := _mime d;
       _name := _name d;
       _callback := _callback d;
       progress := JS.Val (JS.div bytes (JS.of_Z (_size d))) |} in
  if JS.ltb bytes (JS.of_Z (_size d)) then (d1, Returned)
  else if _callback d then
    ({| _buffer := buffer;
        _bytesReceived := bytes;
        _size := _size d;
        _mime := _mime d;
        _name := _name d;
        _callback := false;
        progress := progress d1 |},
     Invoked {| a_name := _name d;
                a_mime := _mime d;
                a_size := _size d;
                a_url := {| blob_parts := buffer; blob_type := _mime d |} |})
  else (d1, TypeError).

(** Successive calls of [unchunk], with how each one ended. *)
Fixpoint unchunks (d : t) (cs : list chunk) : t * list outcome :=
  match cs with
  | [] => (d, [])
  | c :: rest =>
      let '(d1, o) := unchunk d c in
      let '(d2, os) := unchunks d1 rest in
      (d2, o :: os)
  end.

End FileDigester.

(** ** Strings of the language and the global functions of the text path

    A string is its sequence of UTF-16 code units.  [encodeURIComponent],
    [decodeURIComponent], [escape] and [unescape] follow ECMA-262
    (19.2.6 and B.2.1), [btoa] and [atob] follow the HTML standard
    (forgiving-base64).  A function that can throw returns [None] where
    the standard throws. *)
Module Text.

Definition jsstring : Type := list Z.

Definition in_range (lo hi c : Z) : bool := (lo <=? c) && (c <=? hi).

Definition is_alpha (c : Z) : bool := in_range 65 90 c || in_range 97 122 c.
Definition is_digit (c : Z) : bool := in_range 48 57 c.

Definition mem (c : Z) (l : list Z) : bool := existsb (Z.eqb c) l.

(** [uriUnescaped] of ECMA-262: letters, digits and [-_.!~*'()]. *)
Definition uriUnescaped (c : Z) : bool :=
  is_alpha c || is_digit c || mem c [45; 95; 46; 33; 126; 42; 39; 40; 41].

(** The set [escape] leaves alone: letters, digits and [@*_+-./]. *)
Definition escapeUnescaped (c : Z) : bool :=
  is_alpha c || is_digit c || mem c [64; 42; 95; 43; 45; 46; 47].

Definition is_high_surrogate (c : Z) : bool := in_range 55296 56319 c.
Definition is_low_surrogate (c : Z) : bool := in_range 56320 57343 c.

(** Upper-case hexadecimal digit of [d], for [0 <= d < 16]. *)
Definition hexDigit (d : Z) : Z := if d <? 10 then 48 + d else 55 + d.

Definition hexValue (c : Z) : option Z :=
  if in_range 48 57 c then Some (c - 48)
  else if in_range 65 70 c then Some (c - 55)
  else if in_range 97 102 c then Some (c - 87)
  else None.

Definition hex2 (a b : Z) : option Z :=
  match hexValue a, hexValue b with
  | Some x, Some y => Some (16 * x + y)
  | _, _ => None
  end.

Definition hex4 (a b c d : Z) : option Z :=
  match hex2 a b, hex2 c d with
  | Some x, Some y => Some (256 * x + y)
  | _, _ => None
  end.

(** ["%XX"] for the octet [b]. *)
Definition percent (b : Z) : list Z := [37; hexDigit (b / 16); hexDigit (b mod 16)].

(** The UTF-8 transformation of the code point [v]. *)
Definition utf8_encode (v : Z) : list Z :=
  if v <? 128 then [v]
  else if v <? 2048 then [192 + v / 64; 128 + v mod 64]
  else if v <? 65536 then [224 + v / 4096; 128 + (v / 64) mod 64; 128 + v mod 64]
  else [240 + v / 262144; 128 + (v / 4096) mod 64; 128 + (v / 64) mod 64; 128 + v mod 64].

(** The code point of a surrogate pair. *)
Definition pair_code_point (hi lo : Z) : Z :=
  (hi - 55296) * 1024 + (lo - 56320) + 65536.

(** [UTF16EncodeCodePoint]. *)
Definition utf16_encode (v : Z) : list Z :=
  if v <? 65536 then [v]
  else [(v - 65536) / 1024 + 55296; (v - 65536) mod 1024 + 56320].

(** [encodeURIComponent]: [None] is the [URIError] thrown on an unpaired
    surrogate. *)
Fixpoint encodeURIComponent (s : jsstring) : option jsstring :=
  match s with
  | [] => Some []
  | c :: rest =>
      if uriUnescaped c then cons c <$> encodeURIComponent rest
      else if is_low_surrogate c then None
      else if negb (is_high_surrogate c) then
        app (flat_map percent (utf8_encode c)) <$> encodeURIComponent rest
      else
        match rest with
        | [] => None
        | d :: rest' =>
            if is_low_surrogate d then
              app (flat_map percent (utf8_encode (pair_code_point c d)))
                <$> encodeURIComponent rest'
            else None
        end
  end.

(** [unescape]: ["%uXXXX"] and ["%XX"] become one code unit each, any other
    ["%"] stays. *)
Fixpoint unescape (s : jsstring) : jsstring :=
  match s with
  | [] => []
  | c :: rest =>
      let two :=
        match rest with
        | a :: b :: rest2 =>
            match hex2 a b with
            | Some n => n :: unescape rest2
            | None => c :: unescape rest
            end
        | _ => c :: unescape rest
        end in
      if c =? 37 then
        match rest with
        | u :: rest1 =>
            if u =? 117 then
              match rest1 with
              | a :: b :: c' :: d :: rest4 =>
                  match hex4 a b c' d with
                  | Some n => n :: unescape rest4
                  | None => c :: unescape rest
                  end
              | _ => two
              end
            else two
        | [] => two
        end
      else c :: unescape rest
  end.

(** The base64 alphabet. *)
Definition b64char (i : Z) : Z :=
  if i <? 26 then 65 + i
  else if i <? 52 then 71 + i
  else if i <? 62 then i - 4
  else if i =? 62 then 43
  else 47.

Definition b64value (c : Z) : option Z :=
  if in_range 65 90 c then Some (c - 65)
  else if in_range 97 122 c then Some (c - 71)
  else if in_range 48 57 c then Some (c + 4)
  else if c =? 43 then Some 62
  else if c =? 47 then Some 63
  else None.

Fixpoint b64encode (bs : list Z) : jsstring :=
  match bs with
  | [] => []
  | [a] => [b64char (a / 4); b64char (a mod 4 * 16); 61; 61]
  | [a; b] =>
      [b64char (a / 4); b64char (a mod 4 * 16 + b / 16); b64char (b mod 16 * 4); 61]
  | a :: b :: c :: rest =>
      b64char (a / 4) :: b64char (a mod 4 * 16 + b / 16)
        :: b64char (b mod 16 * 4 + c / 64) :: b64char (c mod 64) :: b64encode rest
  end.

(** [btoa]: [None] is the [InvalidCharacterError] thrown when a code unit
    is above 255. *)
Definition btoa (s : jsstring) : option jsstring :=
  if forallb (in_range 0 255) s then Some (b64encode s) else None.

Definition is_ascii_whitespace (c : Z) : bool := mem c [9; 10; 12; 13; 32].

(** Removes one or two ["="] at the end. *)
Fixpoint strip_padding (s : jsstring) : jsstring :=
  match s with
  | [] => []
  | [c] => if c =? 61 then [] else [c]
  | [c; d] => if d =? 61 then (if c =? 61 then [] else [c]) else [c; d]
  | c :: rest => c :: strip_padding rest
  end.

(** Four characters give three octets; a rest of two or three characters
    gives one or two, its last bits dropped; a rest of one, or a character
    outside the alphabet, is a failure. *)
Fixpoint b64decode (s : jsstring) : option (list Z) :=
  match s with
  | [] => Some []
  | [_] => None
  | [a; b] =>
      match b64value a, b64value b with
      | Some x, Some y => Some [x * 4 + y / 16]
      | _, _ => None
      end
  | [a; b; c] =>
      match b64value a, b64value b, b64value c with
      | Some x, Some y, Some z => Some [x * 4 + y / 16; y mod 16 * 16 + z / 4]
      | _, _, _ => None
      end
  | a :: b :: c :: d :: rest =>
      match b64value a, b64value b, b64value c, b64value d with
      | Some x, Some y, Some z, Some w =>
          (fun tl => x * 4 + y / 16 :: y mod 16 * 16 + z / 4 :: z mod 4 * 64 + w :: tl)
            <$> b64decode rest
      | _, _, _, _ => None
      end
  end.

(** [atob]: [None] is the [InvalidCharacterError] of a failed decoding. *)
Definition atob (s : jsstring) : option jsstring :=
  let data := List.filter (fun c => negb (is_ascii_whitespace c)) s in
  let data :=
    if Z.of_nat (length data) mod 4 =? 0 then strip_padding data else data in
  b64decode data.

(** [escape]: ["%XX"] below 256, ["%uXXXX"] above. *)
Definition escape1 (c : Z) : list Z :=
  if escapeUnescaped c then [c]
  else if c <? 256 then percent c
  else [37; 117; hexDigit (c / 4096); hexDigit (c / 256 mod 16);
        hexDigit (c / 16 mod 16); hexDigit (c mod 16)].

Definition escape (s : jsstring) : jsstring := flat_map escape1 s.

(** [decodeURIComponent] reads its argument as literal code units and
    ["%XX"] octets, then takes the octets as UTF-8. *)
Inductive token : Type :=
| Lit (c : Z)
| Oct (b : Z).

Fixpoint tokens (s : jsstring) : option (list token) :=
  match s with
  | [] => Some []
  | c :: rest =>
      if c =? 37 then
        match rest with
        | a :: b :: rest2 =>
            match hex2 a b with
            | Some n => cons (Oct n) <$> tokens rest2
            | None => None
            end
        | _ => None
        end
      else cons (Lit c) <$> tokens rest
  end.

Definition is_continuation (b : Z) : bool := in_range 128 191 b.

(** The code point of a well-formed sequence of octets, if it is one: no
    overlong form, no surrogate, nothing above U+10FFFF. *)
Definition utf8_decode2 (b1 b2 : Z) : option Z :=
  let v := (b1 - 192) * 64 + (b2 - 128) in
  if is_continuation b2 && (128 <=? v) then Some v else None.

Definition utf8_decode3 (b1 b2 b3 : Z) : option Z :=
  let v := (b1 - 224) * 4096 + (b2 - 128) * 64 + (b3 - 128) in
  if is_continuation b2 && is_continuation b3 && (2048 <=? v)
     && negb (in_range 55296 57343 v)
  then Some v else None.

Definition utf8_decode4 (b1 b2 b3 b4 : Z) : option Z :=
  let v := (b1 - 240) * 262144 + (b2 - 128) * 4096 + (b3 - 128) * 64 + (b4 - 128) in
  if is_continuation b2 && is_continuation b3 && is_continuation b4
     && in_range 65536 1114111 v
  then Some v else None.

Fixpoint decode_tokens (ts : list token) : option jsstring :=
  match ts with
  | [] => Some []
  | Lit c :: rest => cons c <$> decode_tokens rest
  | Oct b :: rest =>
      if b <? 128 then cons b <$> decode_tokens rest
      else if b <? 192 then None
      else if b <? 224 then
        match rest with
        | Oct b2 :: rest2 =>
            match utf8_decode2 b b2 with
            | Some v => app (utf16_encode v) <$> decode_tokens rest2
            | None => None
            end
        | _ => None
        end
      else if b <? 240 then
        match rest with
        | Oct b2 :: Oct b3 :: rest3 =>
            match utf8_decode3 b b2 b3 with
            | Some v => app (utf16_encode v) <$> decode_tokens rest3
            | None => None
            end
        | _ => None
        end
      else if b <? 248 then
        match rest with
        | Oct b2 :: Oct b3 :: Oct b4 :: rest4 =>
            match utf8_decode4 b b2 b3 b4 with
            | Some v => app (utf16_encode v) <$> decode_tokens rest4
            | None => None
            end
        | _ => None
        end
      else None
  end.

Definition decodeURIComponent (s : jsstring) : option jsstring :=
  match tokens s with
  | Some ts => decode_tokens ts
  | None => None
  end.

(** A string without unpaired surrogates, every code unit below 2^16. *)
Fixpoint well_formed (s : jsstring) : bool :=
  match s with
  | [] => true
  | c :: rest =>
      if is_high_surrogate c then
        match rest with
        | d :: rest' => is_low_surrogate d && well_formed rest'
        | [] => false
        end
      else if is_low_surrogate c then false
      else in_range 0 65535 c && well_formed rest
  end.

(** The octets of the UTF-8 form of a well-formed string. *)
Fixpoint utf8 (s : jsstring) : list Z :=
  match s with
  | [] => []
  | c :: rest =>
      if is_high_surrogate c then
        match rest with
        | d :: rest' => utf8_encode (pair_code_point c d) ++ utf8 rest'
        | [] => []
        end
      else utf8_encode c ++ utf8 rest
  end.

End Text.

(** ** class Peer

    The abstract session.  [_send] belongs to the subclasses; here the
    transport is taken to accept every frame, and [sent] is what was handed
    to it, oldest first.  A text frame is represented by the object it
    serialises ([JSON.parse] after [JSON.stringify] is taken to give the
    object back, and every text frame received to be such a
    serialisation).  [fired] is what went through [Events.fire]. *)
Module Peer.

Inductive message : Type :=
| Header (name : string) (mime : string) (size : Z)
| Partition (offset : Z)
| PartitionReceived (offset : message)
| Progress (progress : JS.num)
| TransferComplete
| Text (text : Text.jsstring)
| Unknown.

Inductive frame : Type :=
| FJSON (m : message)
| FBinary (c : chunk).

Inductive event : Type :=
| FileProgress (sender : JS.value string) (progress : JS.num)
| FileReceived (file : FileDigester.artifact)
| TextReceived (text : Text.jsstring) (sender : JS.value string)
| NotifyUser (text : string).

Inductive exn : Type :=
| TypeError
| URIError
| InvalidCharacterError.

(** How a method ends. *)
Inductive completion : Type :=
| Normal
| Throw (e : exn).

Record t : Type := {
  _peerId : JS.value string;
  _filesQueue : list File;
  _busy : bool;
  _chunker : option FileChunker.t;
  _digester : option FileDigester.t;
  _lastProgress : JS.value JS.num;
  sent : list frame;
  fired : list event
}.

Definition new (peerId : JS.value string) : t :=
  {| _peerId := peerId;
     _filesQueue := [];
     _busy := false;
     _chunker := None;
     _digester := None;
     _lastProgress := JS.Undefined;
     sent := [];
     fired := [] |}.

Definition set_peerId (v : JS.value string) (p : t) : t :=
  {| _peerId := v; _filesQueue := _filesQueue p; _busy := _busy p;
     _chunker := _chunker p; _digester := _digester p;
     _lastProgress := _lastProgress p; sent := sent p; fired := fired p |}.

Definition set_filesQueue (q : list File) (p : t) : t :=
  {| _peerId := _peerId p; _filesQueue := q; _busy := _busy p;
     _chunker := _chunker p; _digester := _digester p;
     _lastProgress := _lastProgress p; sent := sent p; fired := fired p |}.

Definition set_busy (b : bool) (p : t) : t :=
  {| _peerId := _peerId p; _filesQueue := _filesQueue p; _busy := b;
     _chunker := _chunker p; _digester := _digester p;
     _lastProgress := _lastProgress p; sent := sent p; fired := fired p |}.

Definition set_chunker (c : option FileChunker.t) (p : t) : t :=
  {| _peerId := _peerId p; _filesQueue := _filesQueue p; _busy := _busy p;
     _chunker := c; _digester := _digester p;
     _lastProgress := _lastProgress p; sent := sent p; fired := fired p |}.

Definition set_digester (d : option FileDigester.t) (p : t) : t :=
  {| _peerId := _peerId p; _filesQueue := _filesQueue p; _busy := _busy p;
     _chunker := _chunker p; _digester := d;
     _lastProgress := _lastProgress p; sent := sent p; fired := fired p |}.

Definition set_lastProgress (v : JS.value JS.num) (p : t) : t :=
  {| _peerId := _peerId p; _filesQueue := _filesQueue p; _busy := _busy p;
     _chunker := _chunker p; _digester := _digester p;
     _lastProgress := v; sent := sent p; fired := fired p |}.

Definition _send (f : frame) (p : t) : t :=
  {| _peerId := _peerId p; _filesQueue := _filesQueue p; _busy := _busy p;
     _chunker := _chunker p; _digester := _digester p;
     _lastProgress := _lastProgress p; sent := sent p ++ [f]; fired := fired p |}.

Definition fire (e : event) (p : t) : t :=
  {| _peerId := _peerId p; _filesQueue := _filesQueue p; _busy := _busy p;
     _chunker := _chunker p; _digester := _digester p;
     _lastProgress := _lastProgress p; sent := sent p; fired := fired p ++ [e] |}.

Definition sendJSON (m : message) (p : t) : t := _send (FJSON m) p.

Definition _onPartitionEnd (offset : Z) (p : t) : t :=
  sendJSON (Partition offset) p.

(** The two sinks [_sendFile] gives to the chunker. *)
Definition sink (p : t) (e : FileChunker.effect) : t :=
  match e with
  | FileChunker.OnChunk bytes => _send (FBinary (ArrayBuffer bytes)) p
  | FileChunker.OnPartitionEnd offset => _onPartitionEnd offset p
  end.

Definition _sendFile (file : File) (p : t) : t :=
  let p1 := sendJSON (Header (name file) (type file) (size file)) p in
  set_chunker (Some (FileChunker.nextPartition (FileChunker.new file))) p1.

Definition _dequeueFile (p : t) : t :=
  match _filesQueue p with
  | [] => p
  | file :: rest => _sendFile file (set_filesQueue rest (set_busy true p))
  end.

Definition sendFiles (files : list File) (p : t) : t :=
  let p1 := set_filesQueue (_filesQueue p ++ files) p in
  if _busy p1 then p1 else _dequeueFile p1.

Definition _onReceivedPartitionEnd (offset : message) (p : t) : t :=
  sendJSON (PartitionReceived offset) p.

Definition _sendNextPartition (p : t) : t :=
  match _chunker p with
  | None => p
  | Some c =>
      if FileChunker.isFileEnd c then p
      else set_chunker (Some (FileChunker.nextPartition c)) p
  end.

Definition _sendProgress (progress : JS.num) (p : t) : t :=
  sendJSON (Progress progress) p.

Definition _onDownloadProgress (progress : JS.num) (p : t) : t :=
  fire (FileProgress (_peerId p) progress) p.

Definition _onFileHeader (name mime : string) (size : Z) (p : t) : t :=
  set_digester
    (Some (FileDigester.new
             {| FileDigester.meta_name := name;
                FileDigester.meta_mime := JS.Val mime;
                FileDigester.meta_size := size |}))
    (set_lastProgress (JS.Val (JS.of_Z 0)) p).

Definition _onFileReceived (proxyFile : FileDigester.artifact) (p : t) : t :=
  sendJSON TransferComplete (fire (FileReceived proxyFile) p).

(** The threshold [0.01] of [_onChunkReceived]. *)
Definition threshold : JS.num := JS.Fin (1 # 100).

(** [_onChunkReceived]: a [TypeError] when there is no digester or when
    the digester calls its cleared callback; the digester's callback is
    [_onFileReceived]. *)
Definition _onChunkReceived (c : chunk) (p : t) : t * completion :=
  match _digester p with
  | None => (p, Throw TypeError)
  | Some d =>
      let '(d1, o) := FileDigester.unchunk d c in
      let p1 := set_digester (Some d1) p in
      match o with
      | FileDigester.TypeError => (p1, Throw TypeError)
      | _ =>
          let p2 :=
            match o with
            | FileDigester.Invoked a => _onFileReceived a p1
            | _ => p1
            end in
          let progress := JS.to_num (FileDigester.progress d1) in
          let p3 := _onDownloadProgress progress p2 in
          if JS.ltb (JS.sub progress (JS.to_num (_lastProgress p3))) threshold
          then (p3, Normal)
          else (_sendProgress progress (set_lastProgress (JS.Val progress) p3), Normal)
      end
  end.

Definition _onTransferCompleted (p : t) : t :=
  let p1 := _onDownloadProgress (JS.of_Z 1) p in
  let p2 := set_busy false p1 in
  let p3 := _dequeueFile p2 in
  fire (NotifyUser "File transfer completed.") p3.

Definition sendText (text : Text.jsstring) (p : t) : t * completion :=
  match Text.encodeURIComponent text with
  | None => (p, Throw URIError)
  | Some e =>
      match Text.btoa (Text.unescape e) with
      | None => (p, Throw InvalidCharacterError)
      | Some b => (sendJSON (Text b) p, Normal)
      end
  end.

Definition _onTextReceived (text : Text.jsstring) (p : t) : t * completion :=
  match Text.atob text with
  | None => (p, Throw InvalidCharacterError)
  | Some a =>
      match Text.decodeURIComponent (Text.escape a) with
      | None => (p, Throw URIError)
      | Some s => (fire (TextReceived s (_peerId p)) p, Normal)
      end
  end.

Definition _onMessage (f : frame) (p : t) : t * completion :=
  match f with
  | FBinary c => _onChunkReceived c p
  | FJSON m =>
      match m with
      | Header name mime size => (_onFileHeader name mime size p, Normal)
      | Partition _ => (_onReceivedPartitionEnd m p, Normal)
      | PartitionReceived _ => (_sendNextPartition p, Normal)
      | Progress progress => (_onDownloadProgress progress p, Normal)
      | TransferComplete => (_onTransferCompleted p, Normal)
      | Text text => _onTextReceived text p
      | Unknown => (p, Normal)
      end
  end.

(** The [load] event of the reader of the current chunker (the reader of
    a chunker that a later transfer has replaced is not followed). *)
Definition readerLoad (p : t) : t :=
  match _chunker p with
  | None => p
  | Some c =>
      let '(c1, out) := FileChunker.load c in
      fold_left sink out (set_chunker (Some c1) p)
  end.

(** What can happen to a session, one event of the loop at a time. *)
Inductive op : Type :=
| SendFiles (files : list File)
| SendText (text : Text.jsstring)
| OnMessage (f : frame)
| ReaderLoad.

Definition step (o : op) (p : t) : t :=
  match o with
  | SendFiles files => sendFiles files p
  | SendText text => fst (sendText text p)
  | OnMessage f => fst (_onMessage f p)
  | ReaderLoad => readerLoad p
  end.

Definition run (os : list op) (p : t) : t := fold_left (fun q o => step o q) os p.


Definition is_header (f : frame) : bool :=
  match f with
  | FJSON (Header _ _ _) => true
  | _ => false
  end.

Definition frame_message (f : frame) : list message :=
  match f with
  | FJSON m => [m]
  | FBinary _ => []
  end.

(** The headers among the frames, oldest first. *)
Definition headers (fs : list frame) : list message :=
  flat_map frame_message (List.filter is_header fs).

Definition header_of (file : File) : message :=
  Header (name file) (type file) (size file).

(** The frames a step hands to the transport. *)
Definition emitted (o : op) (p : t) : list frame :=
  skipn (length (sent p)) (sent (step o p)).







End Peer.

(** ** class RTCPeer extends Peer *)
Module RTCPeer.

(** [RTCPeerConnection.connectionState]. *)
Inductive connection_state : Type :=
| CNew
| CConnecting
| CConnected
| CDisconnected
| CFailed
| CClosed.

(** [RTCDataChannel.readyState]. *)
Inductive ready_state : Type :=
| Connecting
| Open
| Closing
| Closed.

(** What the session calls on its connection object. *)
Inductive call : Type :=
| CreateDataChannel
| CreateOffer
| SetRemoteDescription
| AddIceCandidate
| Close.

(** The connection object: its state, whether [ondatachannel] has been
    given a handler, and the calls made on it, oldest first. *)
Record RTCPeerConnection : Type := {
  connectionState : connection_state;
  ondatachannel : bool;
  calls : list call
}.

Record RTCDataChannel : Type := {
  readyState : ready_state
}.

(** A signaling message from the server: its sender and whether it
    carries a session description or an ICE candidate. *)
Inductive signal_payload : Type :=
| Sdp
| Ice
| NoPayload.

Record t : Type := {
  base : Peer.t;
  _isCaller : JS.value bool;
  _peer : option RTCPeerConnection;
  _channel : option RTCDataChannel
}.

Definition fresh_connection : RTCPeerConnection :=
  {| connectionState := CNew; ondatachannel := false; calls := [] |}.

Definition call_on (c : call) (conn : RTCPeerConnection) : RTCPeerConnection :=
  {| connectionState := connectionState conn;
     ondatachannel := ondatachannel conn;
     calls := calls conn ++ [c] |}.

Definition listen (conn : RTCPeerConnection) : RTCPeerConnection :=
  {| connectionState := connectionState conn;
     ondatachannel := true;
     calls := calls conn |}.

Definition set_peer (c : option RTCPeerConnection) (p : t) : t :=
  {| base := base p; _isCaller := _isCaller p; _peer := c; _channel := _channel p |}.

Definition set_channel (c : option RTCDataChannel) (p : t) : t :=
  {| base := base p; _isCaller := _isCaller p; _peer := _peer p; _channel := c |}.

(** Truthiness of what the script tests with [if] and [!]. *)
Definition truthy_bool (v : JS.value bool) : bool :=
  match v with
  | JS.Val b => b
  | JS.Undefined => false
  end.

Definition truthy_string (v : JS.value string) : bool :=
  match v with
  | JS.Val s => negb (String.eqb s EmptyString)
  | JS.Undefined => false
  end.

(** [_createChannel]: a data channel and an offer are asked of the
    connection (the description comes back later and is signalled). *)
Definition _createChannel (p : t) : t :=
  set_peer (call_on CreateOffer <$> (call_on CreateDataChannel <$> _peer p)) p.

Definition _start (peerId : JS.value string) (isCaller : JS.value bool) (p : t) : t :=
  let p1 :=
    match _peer p with
    | Some _ => p
    | None =>
        {| base := Peer.set_peerId peerId (base p);
           _isCaller := isCaller;
           _peer := Some fresh_connection;
           _channel := _channel p |}
    end in
  if truthy_bool isCaller then _createChannel p1
  else set_peer (listen <$> _peer p1) p1.

(** The constructor: without a peer id the session waits for a caller. *)
Definition new (peerId : JS.value string) : t :=
  let p :=
    {| base := Peer.new peerId;
       _isCaller := JS.Undefined;
       _peer := None;
       _channel := None |} in
  if truthy_string peerId then _start peerId (JS.Val true) p else p.

Definition onServerMessage (sender : string) (payload : signal_payload) (p : t) : t :=
  let p1 :=
    match _peer p with
    | Some _ => p
    | None => _start (JS.Val sender) (JS.Val false) p
    end in
  match payload with
  | Sdp => set_peer (call_on SetRemoteDescription <$> _peer p1) p1
  | Ice => set_peer (call_on AddIceCandidate <$> _peer p1) p1
  | NoPayload => p1
  end.

(** [_onChannelOpened]: the channel of the event becomes [_channel]. *)
Definition _onChannelOpened (channel : RTCDataChannel) (p : t) : t :=
  set_channel (Some channel) p.

(** The property [isCaller] that [_onChannelClosed] reads.  The class
    only ever assigns [_isCaller]; no instance and no prototype has an
    [isCaller], so the read gives [undefined]. *)
Definition isCaller (p : t) : JS.value bool := JS.Undefined.

Definition _onChannelClosed (p : t) : t :=
  if negb (truthy_bool (isCaller p)) then p
  else _start (Peer._peerId (base p)) (JS.Val true) p.

(** [_onConnectionStateChange] reads [this._peer.connectionState]: a
    [TypeError] when the session has dropped its connection. *)
Definition _onConnectionStateChange (p : t) : t * Peer.completion :=
  match _peer p with
  | None => (p, Peer.Throw Peer.TypeError)
  | Some conn =>
      match connectionState conn with
      | CDisconnected => (_onChannelClosed p, Peer.Normal)
      | CFailed => (_onChannelClosed (set_peer None p), Peer.Normal)
      | _ => (p, Peer.Normal)
      end
  end.

Definition is_open (r : ready_state) : bool :=
  match r with
  | Open => true
  | _ => false
  end.

(** The connection reports a new [connectionState]: the handler given
    to it by [_start] runs. *)
Definition connection_state_changes (state : connection_state) (p : t) : t :=
  fst (_onConnectionStateChange
         (set_peer
            ((fun conn => {| connectionState := state;
                             ondatachannel := ondatachannel conn;
                             calls := calls conn |}) <$> _peer p)
            p)).

Definition refresh (p : t) : t :=
  if bool_decide (is_Some (_peer p))
     && match _channel p with
        | Some channel => negb (is_open (readyState channel))
        | None => false
        end
  then p
  else _start (Peer._peerId (base p)) (_isCaller p) p.

(** The handshake is initiated as often as an offer was asked for. *)
Definition offers (p : t) : nat :=
  match _peer p with
  | Some conn => length (List.filter (fun c => match c with CreateOffer => true | _ => false end) (calls conn))
  | None => O
  end.

(** [_send] is [this._channel.send(message)]: reading [send] of an absent
    channel throws a [TypeError], and a channel that is not open throws an
    [InvalidStateError]. *)
Inductive send_failure : Type :=
| NoChannel
| ChannelNotOpen.

(** How a call that may write to the channel ends. *)
Inductive outcome : Type :=
| Returns
| Throws (e : Peer.exn)
| ThrowsInvalidStateError.

Definition thrown_by (f : send_failure) : outcome :=
  match f with
  | NoChannel => Throws Peer.TypeError
  | ChannelNotOpen => ThrowsInvalidStateError
  end.

Definition _send_fails (p : t) : option send_failure :=
  match _channel p with
  | None => Some NoChannel
  | Some channel => if is_open (readyState channel) then None else Some ChannelNotOpen
  end.

Definition set_base (b : Peer.t) (p : t) : t :=
  {| base := b; _isCaller := _isCaller p; _peer := _peer p; _channel := _channel p |}.

(** [sendFiles] as inherited, with this [_send]: the header is the first
    thing written, after the file has been taken from the queue and the
    session marked busy. *)
Definition sendFiles (files : list File) (p : t) : t * outcome :=
  let b1 := Peer.set_filesQueue (Peer._filesQueue (base p) ++ files) (base p) in
  if Peer._busy b1 then (set_base b1 p, Returns)
  else
    match Peer._filesQueue b1 with
    | [] => (set_base b1 p, Returns)
    | file :: rest =>
        let b2 := Peer.set_filesQueue rest (Peer.set_busy true b1) in
        match _send_fails p with
        | None => (set_base (Peer._sendFile file b2) p, Returns)
        | Some f => (set_base b2 p, thrown_by f)
        end
    end.

(** [sendText] as inherited, with this [_send]: the text is encoded
    before anything is written. *)
Definition sendText (text : Text.jsstring) (p : t) : t * outcome :=
  match Peer.sendText text (base p) with
  | (_, Peer.Throw e) => (p, Throws e)
  | (b1, Peer.Normal) =>
      match _send_fails p with
      | None => (set_base b1 p, Returns)
      | Some f => (p, thrown_by f)
      end
  end.

End RTCPeer.

(** ** class PeersManager *)
Module PeersManager.

(** A registered session.  A [WSPeer] has no constructor and no fields.
    The keys of the registry are the peer ids the server gives out. *)
Inductive session : Type :=
| RTC (p : RTCPeer.t)
| WS.

(** The [_peer] of a session: [undefined] on a [WSPeer], possibly
    [undefined] or [null] on an [RTCPeer]. *)
Definition session_peer (s : session) : option RTCPeer.RTCPeerConnection :=
  match s with
  | RTC p => RTCPeer._peer p
  | WS => None
  end.

Record t : Type := {
  peers : gmap string session;
  (** [window.isRtcSupported] *)
  isRtcSupported : bool
}.

Definition new (rtc : bool) : t := {| peers := ∅; isRtcSupported := rtc |}.

Definition set_peers (m : gmap string session) (mgr : t) : t :=
  {| peers := m; isRtcSupported := isRtcSupported mgr |}.

(** A peer of the server's list. *)
Record descriptor : Type := {
  id : string;
  rtcSupported : bool
}.

(** One turn of the [forEach] of [_onPeers].  A [WSPeer] has no [refresh]:
    calling it throws a [TypeError]. *)
Definition _onPeer (peer : descriptor) (mgr : t) : t * Peer.completion :=
  match peers mgr !! id peer with
  | Some (RTC p) =>
      (set_peers (<[id peer := RTC (RTCPeer.refresh p)]> (peers mgr)) mgr, Peer.Normal)
  | Some WS => (mgr, Peer.Throw Peer.TypeError)
  | None =>
      if isRtcSupported mgr && rtcSupported peer
      then (set_peers (<[id peer := RTC (RTCPeer.new (JS.Val (id peer)))]> (peers mgr)) mgr,
            Peer.Normal)
      else (set_peers (<[id peer := WS]> (peers mgr)) mgr, Peer.Normal)
  end.

Fixpoint _onPeers (ps : list descriptor) (mgr : t) : t * Peer.completion :=
  match ps with
  | [] => (mgr, Peer.Normal)
  | peer :: rest =>
      match _onPeer peer mgr with
      | (mgr1, Peer.Normal) => _onPeers rest mgr1
      | thrown => thrown
      end
  end.

(** [_onMessage]: a signal from the server.  A [WSPeer] has no
    [onServerMessage]: calling it throws a [TypeError]. *)
Definition _onMessage (sender : string) (payload : RTCPeer.signal_payload) (mgr : t)
  : t * Peer.completion :=
  match peers mgr !! sender with
  | Some WS => (mgr, Peer.Throw Peer.TypeError)
  | Some (RTC p) =>
      (set_peers (<[sender := RTC (RTCPeer.onServerMessage sender payload p)]> (peers mgr)) mgr,
       Peer.Normal)
  | None =>
      (set_peers
         (<[sender := RTC (RTCPeer.onServerMessage sender payload (RTCPeer.new JS.Undefined))]>
            (peers mgr)) mgr,
       Peer.Normal)
  end.

(** [_onPeerLeft]: the manager after the call, whether the call threw, and
    the connection on which [close()] was called, if any.  (An id that
    names a member of [Object.prototype] reads as that member, which has
    no [_peer]: the method returns at the same test as for a session
    without connection, and [delete] removes nothing.) *)
Definition _onPeerLeft (peerId : string) (mgr : t)
  : t * Peer.completion * option RTCPeer.RTCPeerConnection :=
  let peer := peers mgr !! peerId in
  let mgr1 := set_peers (delete peerId (peers mgr)) mgr in
  match peer with
  | None => (mgr1, Peer.Normal, None)
  | Some s =>
      match session_peer s with
      | None => (mgr1, Peer.Normal, None)
      | Some conn => (mgr1, Peer.Normal, Some (RTCPeer.call_on RTCPeer.Close conn))
      end
  end.

(** [_onFilesSelected] and [_onSendText]: the method of the session
    registered under [message.to].  Reading the method of [undefined]
    throws a [TypeError]; a [WSPeer] does not extend [Peer], it has neither
    method, and calling [undefined] throws a [TypeError] as well. *)
Definition _onFilesSelected (to : string) (files : list File) (mgr : t)
  : t * RTCPeer.outcome :=
  match peers mgr !! to with
  | Some (RTC p) =>
      let '(p1, o) := RTCPeer.sendFiles files p in
      (set_peers (<[to := RTC p1]> (peers mgr)) mgr, o)
  | Some WS | None => (mgr, RTCPeer.Throws Peer.TypeError)
  end.

Definition _onSendText (to : string) (text : Text.jsstring) (mgr : t)
  : t * RTCPeer.outcome :=
  match peers mgr !! to with
  | Some (RTC p) =>
      let '(p1, o) := RTCPeer.sendText text p in
      (set_peers (<[to := RTC p1]> (peers mgr)) mgr, o)
  | Some WS | None => (mgr, RTCPeer.Throws Peer.TypeError)
  end.

End PeersManager.

(** ** class ServerConnection

    The connection to the signaling server.  The browser's part is taken
    from the WebSocket and timer interfaces: a socket is constructed
    [CONNECTING]; it becomes [OPEN], or it is closed, and then its [close]
    event runs the handler the script gave it; [close()] turns a
    connecting or open socket to [CLOSING]; a message is delivered only
    on an open socket; a timeout runs once unless it is cleared.  A
    message is represented by the object it parses to. *)
Module ServerConnection.

(** [WebSocket.readyState]. *)
Inductive ready_state : Type :=
| CONNECTING
| OPEN
| CLOSING
| CLOSED.

(** What the script writes to the server. *)
Inductive client_message : Type :=
| Pong
| Disconnect.

(** What the server writes, by its [type]. *)
Inductive server_message : Type :=
| MsgPeers (peers : list string)
| MsgPeerJoined (peer : string)
| MsgPeerLeft (peerId : string)
| MsgSignal (sender : string)
| MsgPing
| MsgOther.

(** What goes through [Events.fire]. *)
Inductive event : Type :=
| FirePeers (peers : list string)
| FirePeerJoined (peer : string)
| FirePeerLeft (peerId : string)
| FireSignal (sender : string)
| FireNotifyUser (text : string).

(** A socket: its state and what was written to it, oldest first. *)
Record WebSocket : Type := {
  readyState : ready_state;
  written : list client_message
}.

(** The object, with the sockets it has replaced (they keep the handlers
    they were given), the timeouts that are pending and the id the next
    [setTimeout] returns. *)
Record t : Type := {
  _socket : option WebSocket;
  replaced : list WebSocket;
  _reconnectTimer : option nat;
  timeouts : list nat;
  next_timeout : nat;
  fired : list event
}.

Definition set_socket (ws : option WebSocket) (s : t) : t :=
  {| _socket := ws; replaced := replaced s; _reconnectTimer := _reconnectTimer s;
     timeouts := timeouts s; next_timeout := next_timeout s; fired := fired s |}.

Definition set_replaced (l : list WebSocket) (s : t) : t :=
  {| _socket := _socket s; replaced := l; _reconnectTimer := _reconnectTimer s;
     timeouts := timeouts s; next_timeout := next_timeout s; fired := fired s |}.

Definition set_timeouts (l : list nat) (s : t) : t :=
  {| _socket := _socket s; replaced := replaced s; _reconnectTimer := _reconnectTimer s;
     timeouts := l; next_timeout := next_timeout s; fired := fired s |}.

Definition fire (e : event) (s : t) : t :=
  {| _socket := _socket s; replaced := replaced s; _reconnectTimer := _reconnectTimer s;
     timeouts := timeouts s; next_timeout := next_timeout s; fired := fired s ++ [e] |}.

Definition in_state (r : ready_state) (ws : WebSocket) : bool :=
  match readyState ws, r with
  | CONNECTING, CONNECTING | OPEN, OPEN | CLOSING, CLOSING | CLOSED, CLOSED => true
  | _, _ => false
  end.

Definition with_state (r : ready_state) (ws : WebSocket) : WebSocket :=
  {| readyState := r; written := written ws |}.

Definition _isConnected (s : t) : bool :=
  match _socket s with
  | Some ws => in_state OPEN ws
  | None => false
  end.

Definition _isConnecting (s : t) : bool :=
  match _socket s with
  | Some ws => in_state CONNECTING ws
  | None => false
  end.

(** [clearTimeout(id)]: nothing happens for [undefined] or an id that is
    not pending. *)
Definition clearTimeout (id : option nat) (s : t) : t :=
  match id with
  | Some i => set_timeouts (List.filter (fun j => negb (Nat.eqb j i)) (timeouts s)) s
  | None => s
  end.

Definition _connect (s : t) : t :=
  let s1 := clearTimeout (_reconnectTimer s) s in
  if _isConnected s1 || _isConnecting s1 then s1
  else
    {| _socket := Some {| readyState := CONNECTING; written := [] |};
       replaced := replaced s1 ++ match _socket s1 with Some ws => [ws] | None => [] end;
       _reconnectTimer := _reconnectTimer s1;
       timeouts := timeouts s1;
       next_timeout := next_timeout s1;
       fired := fired s1 |}.

(** [send]: reading [readyState] of an absent socket throws. *)
Definition send (m : client_message) (s : t) : t * Peer.completion :=
  match _socket s with
  | None => (s, Peer.Throw Peer.TypeError)
  | Some ws =>
      if in_state OPEN ws
      then (set_socket (Some {| readyState := readyState ws; written := written ws ++ [m] |}) s,
            Peer.Normal)
      else (s, Peer.Normal)
  end.

Definition _onMessage (msg : server_message) (s : t) : t * Peer.completion :=
  match msg with
  | MsgPeers peers => (fire (FirePeers peers) s, Peer.Normal)
  | MsgPeerJoined peer => (fire (FirePeerJoined peer) s, Peer.Normal)
  | MsgPeerLeft peerId => (fire (FirePeerLeft peerId) s, Peer.Normal)
  | MsgSignal sender => (fire (FireSignal sender) s, Peer.Normal)
  | MsgPing => send Pong s
  | MsgOther => (s, Peer.Normal)
  end.

(** [WebSocket.close()]. *)
Definition close (ws : WebSocket) : WebSocket :=
  match readyState ws with
  | CONNECTING | OPEN => with_state CLOSING ws
  | CLOSING | CLOSED => ws
  end.

Definition _disconnect (s : t) : t * Peer.completion :=
  match send Disconnect s with
  | (s1, Peer.Normal) => (set_socket (close <$> _socket s1) s1, Peer.Normal)
  | thrown => thrown
  end.

Definition _onDisconnect (s : t) : t :=
  let s1 := fire (FireNotifyUser "Connection lost. Retry in 5 seconds...") s in
  let s2 := clearTimeout (_reconnectTimer s1) s1 in
  {| _socket := _socket s2;
     replaced := replaced s2;
     _reconnectTimer := Some (next_timeout s2);
     timeouts := timeouts s2 ++ [next_timeout s2];
     next_timeout := S (next_timeout s2);
     fired := fired s2 |}.

Definition _onVisibilityChange (hidden : bool) (s : t) : t :=
  if hidden then s else _connect s.

(** The constructor. *)
Definition new : t :=
  _connect {| _socket := None; replaced := []; _reconnectTimer := None;
              timeouts := []; next_timeout := O; fired := [] |}.

(** A socket of the object: the one it holds, or one it has replaced. *)
Inductive socket_ref : Type :=
| Held
| Replaced (i : nat).

Definition socket_at (r : socket_ref) (s : t) : option WebSocket :=
  match r with
  | Held => _socket s
  | Replaced i => replaced s !! i
  end.

Definition set_socket_at (r : socket_ref) (ws : WebSocket) (s : t) : t :=
  match r with
  | Held => set_socket (Some ws) s
  | Replaced i => set_replaced (<[i := ws]> (replaced s)) s
  end.

(** What the browser can do to the object, one event at a time. *)
Inductive op : Type :=
| SocketOpens (r : socket_ref)
| SocketCloses (r : socket_ref)
| SocketReceives (r : socket_ref) (msg : server_message)
| TimeoutFires (id : nat)
| VisibilityChange (hidden : bool)
| Unload.

Definition step (o : op) (s : t) : t :=
  match o with
  | SocketOpens r =>
      match socket_at r s with
      | Some ws => if in_state CONNECTING ws then set_socket_at r (with_state OPEN ws) s else s
      | None => s
      end
  | SocketCloses r =>
      match socket_at r s with
      | Some ws =>
          if in_state CLOSED ws then s
          else _onDisconnect (set_socket_at r (with_state CLOSED ws) s)
      | None => s
      end
  | SocketReceives r msg =>
      match socket_at r s with
      | Some ws => if in_state OPEN ws then fst (_onMessage msg s) else s
      | None => s
      end
  | TimeoutFires id =>
      if existsb (Nat.eqb id) (timeouts s)
      then _connect (set_timeouts (List.filter (fun j => negb (Nat.eqb j id)) (timeouts s)) s)
      else s
  | VisibilityChange hidden => _onVisibilityChange hidden s
  | Unload => fst (_disconnect s)
  end.

Definition run (os : list op) (s : t) : t := fold_left (fun q o => step o q) os s.

End ServerConnection.

(** * Vocabulary of the properties

    The notions the statements below are worded with, then sample inputs. *)

(** ** Notions *)

(** What holds of a chunker throughout its life. *)
Definition chunker_inv (file : File) (c : FileChunker.t) : Prop :=
  FileChunker._file c = file
  /\ FileChunker._chunkSize c = 64000
  /\ FileChunker._maxPartitionSize c = 1000000
  /\ 0 <= FileChunker._partitionSize c <= FileChunker._offset c
  /\ FileChunker._offset c <= size file
  /\ (forall chunk, FileChunker.reading c = Some chunk ->
        chunk = slice (content file) (FileChunker._offset c) (FileChunker._offset c + 64000)).

(** The byte length of a chunk. *)
Definition byte_count (c : chunk) : Z := Z.of_nat (length (chunk_bytes c)).

(** A chunk whose length [unchunk] reads as a number: anything but an
    [ArrayBuffer] of length zero, for which [byteLength || size] is
    [undefined] and the sum becomes [NaN]. *)
Definition sized (c : chunk) : bool :=
  match c with
  | ArrayBuffer [] => false
  | _ => true
  end.

(** The first call at which the bytes received reach [size], counting the
    calls from 0, with [received] bytes before the first call. *)
Fixpoint completing_call (received size : Z) (cs : list chunk) : option nat :=
  match cs with
  | [] => None
  | c :: rest =>
      if size <=? received + byte_count c then Some O
      else S <$> completing_call (received + byte_count c) size rest
  end.

(** The artifact a digester hands over, from the chunks it has buffered. *)
Definition artifact_of (d : FileDigester.t) (buffer : list chunk) : FileDigester.artifact :=
  {| FileDigester.a_name := FileDigester._name d;
     FileDigester.a_mime := FileDigester._mime d;
     FileDigester.a_size := FileDigester._size d;
     FileDigester.a_url :=
       {| FileDigester.blob_parts := buffer;
          FileDigester.blob_type := FileDigester._mime d |} |}.

(** The MIME type the digester keeps: the declared one, or the default
    when none is declared or the declared one is the empty string. *)
Definition kept_mime (m : FileDigester.meta) : string :=
  match FileDigester.meta_mime m with
  | JS.Val s => if String.eqb s EmptyString then "application/octet-stream" else s
  | JS.Undefined => "application/octet-stream"
  end.


(** The chunks of the transfer: those up to the one that completes it. *)
Definition chunks_until (received size : Z) (cs : list chunk) : list chunk :=
  match completing_call received size cs with
  | Some k => firstn (S k) cs
  | None => cs
  end.


(** The binary frames of a list of chunks, as events of the session. *)
Definition chunk_ops (cs : list chunk) : list Peer.op :=
  map (fun c => Peer.OnMessage (Peer.FBinary c)) cs.

(** [q] has sent what [p] has sent, and possibly more after it. *)
Definition grows (p q : Peer.t) : Prop :=
  exists more, Peer.sent q = Peer.sent p ++ more.





(** An octet. *)
Definition is_octet (b : Z) : Prop := 0 <= b < 256.

(** How [decodeURIComponent] reads what [escape] makes of an octet. *)
Definition token_of (b : Z) : Text.token :=
  if Text.escapeUnescaped b then Text.Lit b else Text.Oct b.

(** ** Sample inputs *)

(** The five bytes of ["hello"], as the file [hi.txt]. *)
Definition hello : File :=
  {| name := "hi.txt"; type := "text/plain"; content := [x68; x65; x6c; x6c; x6f] |}.

(** A file of exactly one chunk: 64000 zero bytes. *)
Definition one_chunk_file : File :=
  {| name := "zeros.bin"; type := EmptyString; content := repeat x00 (Z.to_nat 64000) |}.

(** The empty file. *)
Definition empty_file : File :=
  {| name := "empty"; type := EmptyString; content := [] |}.

(** The header of [hi.txt] and three chunks: the second one completes the
    transfer, the third is one too many. *)
Definition hi_meta : FileDigester.meta :=
  {| FileDigester.meta_name := "hi.txt";
     FileDigester.meta_mime := JS.Val "text/plain";
     FileDigester.meta_size := 5 |}.

Definition hi_chunks : list chunk :=
  [ArrayBuffer [x68; x65; x6c]; Blob [x6c; x6f]; ArrayBuffer [x00]].


(** A caller whose channel is open, and one whose channel has closed. *)
Definition caller_open : RTCPeer.t :=
  RTCPeer._onChannelOpened {| RTCPeer.readyState := RTCPeer.Open |}
    (RTCPeer.new (JS.Val "B")).

Definition caller_closed : RTCPeer.t :=
  RTCPeer._onChannelOpened {| RTCPeer.readyState := RTCPeer.Closed |}
    (RTCPeer.new (JS.Val "B")).

(** A callee: constructed without a peer id, started by the first signal. *)
Definition callee : RTCPeer.t :=
  RTCPeer.onServerMessage "A" RTCPeer.Sdp (RTCPeer.new JS.Undefined).

(** A caller whose connection has failed: its connection object is gone. *)
Definition caller_failed : RTCPeer.t :=
  RTCPeer.connection_state_changes RTCPeer.CFailed caller_open.

(** A registry with that session and a relay session. *)
Definition two_sessions : PeersManager.t :=
  PeersManager.set_peers
    (<["B" := PeersManager.RTC caller_failed]> (<["W" := PeersManager.WS]> ∅))
    (PeersManager.new true).

(** The text of scenario 6, ["héllo 🌍"], in UTF-16 code units. *)
Definition hello_world : Text.jsstring := [104; 233; 108; 108; 111; 32; 55356; 57101].

(** ** Further notions *)

(** A digester that has handed its artifact over: its byte count is [NaN]
    or has reached the declared size. *)
Definition spent (d : FileDigester.t) : Prop :=
  FileDigester._bytesReceived d = JS.NaN
  \/ exists (q : Q) (r : Z),
       FileDigester._bytesReceived d = JS.Fin q /\ (q == inject_Z r)%Q
       /\ FileDigester._size d <= r.

(** The transfer-complete messages among the frames. *)
Definition completions (fs : list Peer.frame) : list Peer.frame :=
  List.filter (fun f => match f with Peer.FJSON Peer.TransferComplete => true | _ => false end) fs.

(** The artifacts of the [file-received] events, oldest first. *)
Definition files_received (es : list Peer.event) : list FileDigester.artifact :=
  flat_map (fun e => match e with Peer.FileReceived a => [a] | _ => [] end) es.

(** What the [partition_received] messages among the frames carry. *)
Definition acknowledgements (fs : list Peer.frame) : list Peer.message :=
  flat_map (fun f => match f with Peer.FJSON (Peer.PartitionReceived m) => [m] | _ => [] end) fs.

(** The [partition] messages among the events of a session. *)
Definition partitions_received (os : list Peer.op) : list Peer.message :=
  flat_map (fun o => match o with
                     | Peer.OnMessage (Peer.FJSON (Peer.Partition n)) => [Peer.Partition n]
                     | _ => []
                     end) os.

(** What one step or several add to the two logs of a session: frames
    [fs] handed to the transport and events [es] fired. *)
Definition logs (fs : list Peer.frame) (es : list Peer.event) (p q : Peer.t) : Prop :=
  Peer.sent q = Peer.sent p ++ fs /\ Peer.fired q = Peer.fired p ++ es.

(** The artifacts handed to the callback, among the outcomes of calls. *)
Definition invoked (os : list FileDigester.outcome) : list FileDigester.artifact :=
  flat_map (fun o => match o with FileDigester.Invoked a => [a] | _ => [] end) os.

(** A binary frame as the receiving channel hands it over: a [Blob] when
    the channel's [binaryType] is ["blob"], an [ArrayBuffer] otherwise. *)
Definition as_chunk (blob : bool) (bytes : list byte) : chunk :=
  if blob then Blob bytes else ArrayBuffer bytes.

Definition as_received (blob : bool) (f : Peer.frame) : Peer.frame :=
  match f with
  | Peer.FBinary c => Peer.FBinary (as_chunk blob (chunk_bytes c))
  | Peer.FJSON m => Peer.FJSON m
  end.

(** The frames a sender has handed to its channel, as events of the
    session at the other end. *)
Definition deliver (blob : bool) (fs : list Peer.frame) : list Peer.op :=
  map (fun f => Peer.OnMessage (as_received blob f)) fs.

(** The bytes of the parts of a blob, end to end. *)
Definition blob_bytes (b : FileDigester.blob) : list byte :=
  concat (map chunk_bytes (FileDigester.blob_parts b)).

(** The frame the session makes of what its chunker hands to a sink. *)
Definition frame_of (e : FileChunker.effect) : Peer.frame :=
  match e with
  | FileChunker.OnChunk bytes => Peer.FBinary (ArrayBuffer bytes)
  | FileChunker.OnPartitionEnd n => Peer.FJSON (Peer.Partition n)
  end.

(** What holds of the partition counter throughout the life of a chunker:
    it is below the limit while a read is under way, and it is a whole
    number of chunks as long as the end of the file is not reached. *)
Definition partition_inv (file : File) (c : FileChunker.t) : Prop :=
  (FileChunker.reading c <> None -> FileChunker._partitionSize c < 1000000)
  /\ (FileChunker._partitionSize c mod 64000 = 0 \/ FileChunker._offset c = size file).

(** The byte counts the chunker has handed to [onPartitionEnd]. *)
Definition partition_ends (out : list FileChunker.effect) : list Z :=
  flat_map (fun e => match e with
                     | FileChunker.OnPartitionEnd n => [n]
                     | FileChunker.OnChunk _ => []
                     end) out.

(** A file of exactly sixteen chunks: 1024000 zero bytes. *)
Definition sixteen_chunks_file : File :=
  {| name := "zeros.img"; type := EmptyString; content := repeat x00 (Z.to_nat 1024000) |}.

(** The contents of the binary frames among the frames sent, oldest first. *)
Definition binaries (fs : list Peer.frame) : list (list byte) :=
  flat_map (fun f => match f with
                     | Peer.FBinary c => [chunk_bytes c]
                     | Peer.FJSON _ => []
                     end) fs.

(** The byte counts of the [partition] messages among the frames sent. *)
Definition partitions_sent (fs : list Peer.frame) : list Z :=
  flat_map (fun f => match f with
                     | Peer.FJSON (Peer.Partition n) => [n]
                     | _ => []
                     end) fs.

(** The sender waits for an acknowledgement: it has a chunker and no read
    under way. *)
Definition waiting (p : Peer.t) : bool :=
  match Peer._chunker p with
  | Some c => match FileChunker.reading c with None => true | Some _ => false end
  | None => false
  end.

(** How far the sender has read the file it is sending. *)
Definition sender_offset (p : Peer.t) : Z :=
  match Peer._chunker p with
  | Some c => FileChunker._offset c
  | None => 0
  end.

(** What reaches the sender of one file in the normal course of its
    transfer: load events of its reader, progress messages of the
    receiver, and acknowledgements of a partition once the sender waits
    for one. *)
Definition in_course_step (p : Peer.t) (o : Peer.op) : bool :=
  match o with
  | Peer.ReaderLoad => true
  | Peer.OnMessage (Peer.FJSON (Peer.Progress _)) => true
  | Peer.OnMessage (Peer.FJSON (Peer.PartitionReceived _)) => waiting p
  | _ => false
  end.

Fixpoint in_course (os : list Peer.op) (p : Peer.t) : bool :=
  match os with
  | [] => true
  | o :: os' => in_course_step p o && in_course os' (Peer.step o p)
  end.

(** The acknowledgements among the events. *)
Fixpoint acknowledged (os : list Peer.op) : Z :=
  match os with
  | [] => 0
  | Peer.OnMessage (Peer.FJSON (Peer.PartitionReceived _)) :: os' => 1 + acknowledged os'
  | _ :: os' => acknowledged os'
  end.

(** What holds of the sender of [file] after [k] acknowledgements. *)
Definition sender_inv (file : File) (k : Z) (p : Peer.t) : Prop :=
  exists c,
    Peer._chunker p = Some c
    /\ chunker_inv file c /\ partition_inv file c
    /\ concat (binaries (Peer.sent p))
       = firstn (Z.to_nat (FileChunker._offset c)) (content file)
    /\ FileChunker._offset c - FileChunker._partitionSize c <= 1024000 * k
    /\ FileChunker._partitionSize c <= 1024000
    /\ Z.of_nat (length (partitions_sent (Peer.sent p)))
       = k + (if waiting p then 1 else 0)
    /\ Forall (fun n => 1000000 <= n <= 1024000) (partitions_sent (Peer.sent p))
    /\ Peer.headers (Peer.sent p) = [Peer.header_of file].

(** A first partition read, its acknowledgement, and one more read. *)
Definition one_acknowledgement : list Peer.op :=
  repeat Peer.ReaderLoad 16
  ++ [Peer.OnMessage (Peer.FJSON (Peer.PartitionReceived (Peer.Partition 1024000)));
      Peer.ReaderLoad].

(** What the browser reports to a session about its connection and its
    channel. *)
Inductive connection_event : Type :=
| ChannelOpened (channel : RTCPeer.RTCDataChannel)
| ChannelClosed
| StateChanged (state : RTCPeer.connection_state).

Definition reported (e : connection_event) (p : RTCPeer.t) : RTCPeer.t :=
  match e with
  | ChannelOpened channel => RTCPeer._onChannelOpened channel p
  | ChannelClosed => RTCPeer._onChannelClosed p
  | StateChanged state => RTCPeer.connection_state_changes state p
  end.

(** What can happen to a session: a signal handed on by the manager, a
    [refresh], or a report of the browser. *)
Inductive rtc_event : Type :=
| FromServer (sender : string) (payload : RTCPeer.signal_payload)
| Refreshed
| Reported (e : connection_event).

Definition rtc_step (e : rtc_event) (p : RTCPeer.t) : RTCPeer.t :=
  match e with
  | FromServer sender payload => RTCPeer.onServerMessage sender payload p
  | Refreshed => RTCPeer.refresh p
  | Reported e' => reported e' p
  end.

Definition rtc_run (es : list rtc_event) (p : RTCPeer.t) : RTCPeer.t :=
  fold_left (fun q e => rtc_step e q) es p.

(** A call by which a session initiates the handshake. *)
Definition initiates (c : RTCPeer.call) : bool :=
  match c with
  | RTCPeer.CreateDataChannel | RTCPeer.CreateOffer => true
  | _ => false
  end.

(** The calls made on the connection a session holds. *)
Definition calls_made (p : RTCPeer.t) : list RTCPeer.call :=
  match RTCPeer._peer p with
  | Some conn => RTCPeer.calls conn
  | None => []
  end.

(** What can happen to the manager: the three server events it listens
    to, and a report of the browser to one of its sessions. *)
Inductive manager_event : Type :=
| Peers (ps : list PeersManager.descriptor)
| Signal (sender : string) (payload : RTCPeer.signal_payload)
| PeerLeft (peerId : string)
| ReportedTo (peerId : string) (e : connection_event).

Definition manager_step (e : manager_event) (mgr : PeersManager.t) : PeersManager.t :=
  match e with
  | Peers ps => fst (PeersManager._onPeers ps mgr)
  | Signal sender payload => fst (PeersManager._onMessage sender payload mgr)
  | PeerLeft peerId => fst (fst (PeersManager._onPeerLeft peerId mgr))
  | ReportedTo peerId e' =>
      match PeersManager.peers mgr !! peerId with
      | Some (PeersManager.RTC p) =>
          PeersManager.set_peers
            (<[peerId := PeersManager.RTC (reported e' p)]> (PeersManager.peers mgr)) mgr
      | _ => mgr
      end
  end.

Definition manager_run (es : list manager_event) (mgr : PeersManager.t) : PeersManager.t :=
  fold_left (fun m e => manager_step e m) es mgr.

(** Every session of the registry carries the id it is registered under. *)
Definition keyed (m : gmap string PeersManager.session) : Prop :=
  forall (k : string) (p : RTCPeer.t),
    m !! k = Some (PeersManager.RTC p) -> Peer._peerId (RTCPeer.base p) = JS.Val k.

(** The ids of a list of the server. *)
Definition listed (ps : list PeersManager.descriptor) : list string :=
  map PeersManager.id ps.


(** A socket that is closing or closed. *)
Definition dead (ws : ServerConnection.WebSocket) : bool :=
  ServerConnection.in_state ServerConnection.CLOSING ws
  || ServerConnection.in_state ServerConnection.CLOSED ws.

(** A socket that is connecting or open. *)
Definition live (ws : ServerConnection.WebSocket) : bool :=
  ServerConnection.in_state ServerConnection.CONNECTING ws
  || ServerConnection.in_state ServerConnection.OPEN ws.

(** Every socket the object has constructed, oldest first. *)
Definition sockets (s : ServerConnection.t) : list ServerConnection.WebSocket :=
  ServerConnection.replaced s
  ++ match ServerConnection._socket s with Some ws => [ws] | None => [] end.

(** At most one timeout is pending, and it is the one the object
    remembers. *)
Definition timeouts_inv (s : ServerConnection.t) : Prop :=
  ServerConnection.timeouts s = []
  \/ exists id, ServerConnection.timeouts s = [id]
                /\ ServerConnection._reconnectTimer s = Some id.

(** The object holds a socket, and the sockets it has replaced are closing
    or closed. *)
Definition sockets_inv (s : ServerConnection.t) : Prop :=
  is_Some (ServerConnection._socket s)
  /\ Forall (fun ws => dead ws = true) (ServerConnection.replaced s).

(** A channel that is open. *)
Definition open_channel : RTCPeer.RTCDataChannel :=
  {| RTCPeer.readyState := RTCPeer.Open |}.

(** The chunks are successive slices of [bytes], of the chunk size, from
    the offset [off] on. *)
Fixpoint sliced (bytes : list byte) (off : Z) (bs : list (list byte)) : Prop :=
  match bs with
  | [] => True
  | b :: rest =>
      b = slice bytes off (off + 64000)
      /\ sliced bytes (off + Z.of_nat (length b)) rest
  end.

(** The number of bytes of a list of chunks. *)
Definition total (bs : list (list byte)) : Z := Z.of_nat (length (concat bs)).

(** What the sender of [file] has handed to its channel: the header, then
    what its chunker has handed over, the chunks being the successive
    slices of the file up to the chunker's offset. *)
Definition sender_stream (file : File) (p : Peer.t) : Prop :=
  exists (c : FileChunker.t) (out : list FileChunker.effect),
    Peer._chunker p = Some c
    /\ chunker_inv file c
    /\ Peer.sent p = Peer.FJSON (Peer.header_of file) :: map frame_of out
    /\ sliced (content file) 0 (FileChunker.chunks out)
    /\ total (FileChunker.chunks out) = FileChunker._offset c.

(** The events by which the server tells of the peers in the room. *)
Definition tells_of_peers (e : manager_event) : bool :=
  match e with
  | Peers _ | PeerLeft _ => true
  | _ => false
  end.

(** * Properties *)

(** ** Slices *)

Lemma slice_inside (bs : list byte) (off cs : Z) :
  0 <= off <= Z.of_nat (length bs) -> 0 <= cs ->
  slice bs off (off + cs) = firstn (Z.to_nat cs) (skipn (Z.to_nat off) bs).
Proof.
  intros Hoff Hcs. unfold slice.
  destruct (Z.ltb_spec off 0) as [H|_]; [lia|].
  destruct (Z.ltb_spec (off + cs) 0) as [H|_]; [lia|].
  rewrite (Z.min_l off) by lia.
  destruct (Z.le_ge_cases (off + cs) (Z.of_nat (length bs))) as [H|H].
  - rewrite Z.min_l by lia. f_equal. lia.
  - rewrite Z.min_r by lia.
    rewrite !firstn_all2; [reflexivity| |]; rewrite length_skipn; lia.
Qed.

Lemma slice_length (bs : list byte) (off cs : Z) :
  0 <= off <= Z.of_nat (length bs) -> 0 <= cs ->
  Z.of_nat (length (slice bs off (off + cs))) = Z.min cs (Z.of_nat (length bs) - off).
Proof.
  intros Hoff Hcs. rewrite slice_inside by assumption.
  rewrite length_firstn, length_skipn. lia.
Qed.

Lemma slice_at_end (bs : list byte) (cs : Z) :
  0 <= cs -> slice bs (Z.of_nat (length bs)) (Z.of_nat (length bs) + cs) = [].
Proof.
  intros Hcs. apply length_zero_iff_nil.
  pose proof (slice_length bs (Z.of_nat (length bs)) cs) as H. lia.
Qed.

(** ** Prefixes and suffixes of lists *)

Lemma firstn_plus {A : Type} (j k : nat) (l : list A) :
  firstn (j + k) l = firstn j l ++ firstn k (skipn j l).
Proof.
  revert l. induction j as [|j IH]; intros l; [reflexivity|].
  destruct l as [|x l]; simpl.
  - rewrite firstn_nil. reflexivity.
  - rewrite IH. reflexivity.
Qed.



(** ** The chunker *)

Lemma chunker_inv_new (file : File) : chunker_inv file (FileChunker.new file).
Proof.
  unfold chunker_inv, size; simpl. repeat split; try lia. intros chunk H; discriminate.
Qed.

Lemma chunker_inv_nextPartition (file : File) (c : FileChunker.t) :
  chunker_inv file c -> chunker_inv file (FileChunker.nextPartition c).
Proof.
  intros (Hf & Hc & Hm & Hp & Ho & Hr). unfold chunker_inv; simpl.
  repeat split; try assumption; try lia.
  intros chunk H. inversion H. rewrite Hf, Hc. reflexivity.
Qed.

Lemma chunker_inv_onChunkRead (file : File) (c : FileChunker.t) (chunk : list byte) :
  chunker_inv file c -> FileChunker.reading c = Some chunk ->
  chunker_inv file (fst (FileChunker._onChunkRead c chunk)).
Proof.
  intros (Hf & Hc & Hm & Hp & Ho & Hr) Hread.
  pose proof (Hr chunk Hread) as Hchunk.
  assert (Hlen : Z.of_nat (length chunk)
                 = Z.min 64000 (size file - FileChunker._offset c)).
  { rewrite Hchunk. unfold size in *. apply slice_length; lia. }
  unfold FileChunker._onChunkRead.
  destruct (_ || _); unfold chunker_inv; simpl.
  - repeat split; try assumption; try lia. intros ch H; discriminate.
  - repeat split; try assumption; try lia.
    intros ch H. inversion H. rewrite Hf, Hc. reflexivity.
Qed.

Lemma chunker_inv_load (file : File) (c : FileChunker.t) :
  chunker_inv file c -> chunker_inv file (fst (FileChunker.load c)).
Proof.
  intros H. unfold FileChunker.load.
  destruct (FileChunker.reading c) as [chunk|] eqn:E; [|exact H].
  apply chunker_inv_onChunkRead; assumption.
Qed.

Lemma reachable_inv (file : File) (c : FileChunker.t) :
  FileChunker.reachable file c -> chunker_inv file c.
Proof.
  induction 1.
  - apply chunker_inv_new.
  - apply chunker_inv_nextPartition; assumption.
  - apply chunker_inv_load; assumption.
Qed.

(** A file smaller than a partition: the chunker reads on for ever. *)
Lemma small_file_load (file : File) (c : FileChunker.t) :
  size file < 1000000 -> chunker_inv file c -> FileChunker.reading c <> None ->
  exists chunk,
    FileChunker.load c = (FileChunker._readChunk
                            {| FileChunker._chunkSize := FileChunker._chunkSize c;
                               FileChunker._maxPartitionSize := FileChunker._maxPartitionSize c;
                               FileChunker._offset := FileChunker._offset c + Z.of_nat (length chunk);
                               FileChunker._partitionSize :=
                                 FileChunker._partitionSize c + Z.of_nat (length chunk);
                               FileChunker._file := FileChunker._file c;
                               FileChunker.reading := None |},
                          [FileChunker.OnChunk chunk])
    /\ FileChunker.reading c = Some chunk.
Proof.
  intros Hsmall (Hf & Hc & Hm & Hp & Ho & Hr) Hread.
  destruct (FileChunker.reading c) as [chunk|] eqn:E; [|congruence].
  exists chunk. split; [|reflexivity].
  pose proof (Hr chunk eq_refl) as Hchunk.
  assert (Hlen : Z.of_nat (length chunk)
                 = Z.min 64000 (size file - FileChunker._offset c)).
  { rewrite Hchunk. unfold size in *. apply slice_length; lia. }
  unfold FileChunker.load. rewrite E. unfold FileChunker._onChunkRead.
  unfold FileChunker._isPartitionEnd, FileChunker.isFileEnd; simpl.
  rewrite Hm, Hf.
  destruct (Z.geb_spec (FileChunker._partitionSize c + Z.of_nat (length chunk)) 1000000);
    [lia|].
  destruct (Z.gtb_spec (FileChunker._offset c + Z.of_nat (length chunk)) (size file));
    [lia|].
  reflexivity.
Qed.

Lemma small_file_loads (file : File) (n : nat) (c : FileChunker.t) :
  size file < 1000000 -> chunker_inv file c -> FileChunker.reading c <> None ->
  FileChunker.reading (fst (FileChunker.loads n c)) <> None
  /\ snd (FileChunker.loads n c) = map FileChunker.OnChunk (FileChunker.chunks (snd (FileChunker.loads n c)))
  /\ length (FileChunker.chunks (snd (FileChunker.loads n c))) = n.
Proof.
  intros Hsmall. revert c. induction n as [|n IH]; intros c Hinv Hread.
  - simpl. auto.
  - destruct (small_file_load file c Hsmall Hinv Hread) as (chunk & Hload & Hchunk).
    pose proof (chunker_inv_load file c Hinv) as Hinv'.
    simpl. rewrite Hload in *. simpl in Hinv'.
    match goal with |- context [FileChunker.loads n ?c1] =>
      specialize (IH c1 Hinv' ltac:(discriminate));
      destruct (FileChunker.loads n c1) as [c2 out2] end.
    simpl in *. destruct IH as (IH1 & IH2 & IH3).
    repeat split; [assumption| |lia].
    f_equal. assumption.
Qed.

Lemma firstn_skipn_firstn {A : Type} (k n : nat) (l : list A) :
  firstn (k + n) l = firstn k l ++ firstn n (skipn (length (firstn k l)) l).
Proof.
  rewrite firstn_plus. f_equal. f_equal.
  rewrite length_firstn. destruct (Nat.le_ge_cases k (length l)) as [H|H].
  - rewrite Nat.min_l by exact H. reflexivity.
  - rewrite Nat.min_r by exact H. rewrite !skipn_all2 by lia. reflexivity.
Qed.

(** The chunks of a small file, put end to end, are the bytes of the file
    from the offset on, [64000] per read. *)
Lemma small_file_loads_content (file : File) (n : nat) :
  size file < 1000000 ->
  forall c, chunker_inv file c -> FileChunker.reading c <> None ->
    concat (FileChunker.chunks (snd (FileChunker.loads n c)))
    = firstn (Z.to_nat 64000 * n) (skipn (Z.to_nat (FileChunker._offset c)) (content file)).
Proof.
  intros Hsmall. remember (Z.to_nat 64000) as k eqn:Hk.
  induction n as [|n IH]; intros c Hinv Hread.
  - rewrite Nat.mul_0_r. reflexivity.
  - destruct (small_file_load file c Hsmall Hinv Hread) as (chunk & Hload & Hchunk).
    pose proof (chunker_inv_load file c Hinv) as Hinv'.
    destruct Hinv as (Hf & Hc & Hm & Hp & Ho & Hr).
    pose proof (Hr chunk Hchunk) as Hslice.
    unfold size in Ho. rewrite slice_inside in Hslice by lia. rewrite <- Hk in Hslice.
    cbn [FileChunker.loads]. rewrite Hload in *. cbn [fst] in Hinv'.
    match goal with |- context [FileChunker.loads n ?c1] =>
      specialize (IH c1 Hinv' ltac:(discriminate));
      destruct (FileChunker.loads n c1) as [c2 out2] end.
    cbn [snd fst FileChunker._offset FileChunker._readChunk] in IH |- *.
    cbn [app FileChunker.chunks flat_map concat]. 
    change (flat_map _ out2) with (FileChunker.chunks out2).
    rewrite IH.
    replace (k * S n)%nat with (k + k * n)%nat by lia.
    rewrite firstn_skipn_firstn, <- Hslice, skipn_skipn.
    do 3 f_equal. lia.
Qed.

(** What the chunker does get right for a small file: once the reads
    cover the file, the chunks put end to end are the file. *)
Lemma chunker_small_file_content (file : File) (n : nat) :
  size file < 1000000 -> size file <= 64000 * Z.of_nat n ->
  concat (FileChunker.chunks
            (snd (FileChunker.loads n (FileChunker.nextPartition (FileChunker.new file)))))
  = content file.
Proof.
  intros Hsmall Hn.
  rewrite (small_file_loads_content file n Hsmall);
    [|apply chunker_inv_nextPartition, chunker_inv_new|discriminate].
  change (Z.to_nat (FileChunker._offset (FileChunker.nextPartition (FileChunker.new file))))
    with 0%nat.
  cbn [skipn]. apply firstn_all2. unfold size in Hn. lia.
Qed.

(** C1, on the code: for a file smaller than a partition, after [n] reads
    the chunker has handed [n] chunks to [onChunk], has never called
    [onPartitionEnd], and has the next read under way, whatever [n] is.
    So it emits more than [ceil(size / chunk_size)] chunks and does not
    stop after the last one: [isFileEnd] compares with [>], and the
    offset never exceeds the size. *)
Theorem chunker_small_file_never_stops (file : File) (n : nat) :
  size file < 1000000 ->
  FileChunker.reading
    (fst (FileChunker.loads n (FileChunker.nextPartition (FileChunker.new file)))) <> None
  /\ snd (FileChunker.loads n (FileChunker.nextPartition (FileChunker.new file)))
     = map FileChunker.OnChunk
         (FileChunker.chunks
            (snd (FileChunker.loads n (FileChunker.nextPartition (FileChunker.new file)))))
  /\ length
       (FileChunker.chunks
          (snd (FileChunker.loads n (FileChunker.nextPartition (FileChunker.new file)))))
     = n.
Proof.
  intros Hsmall. apply (small_file_loads file); [assumption| |discriminate].
  apply chunker_inv_nextPartition, chunker_inv_new.
Qed.

Lemma chunker_small_file_never_stops_hello :
  size hello < 1000000
  /\ (FileChunker.reading
        (fst (FileChunker.loads 3 (FileChunker.nextPartition (FileChunker.new hello)))) <> None
      /\ snd (FileChunker.loads 3 (FileChunker.nextPartition (FileChunker.new hello)))
         = map FileChunker.OnChunk
             (FileChunker.chunks
                (snd (FileChunker.loads 3 (FileChunker.nextPartition (FileChunker.new hello)))))
      /\ length
           (FileChunker.chunks
              (snd (FileChunker.loads 3 (FileChunker.nextPartition (FileChunker.new hello)))))
         = 3%nat).
Proof.
  split; [reflexivity | apply (chunker_small_file_never_stops hello 3); reflexivity].
Defined.

(** The file of scenario 2: one chunk is expected, three reads give three
    chunks and a fourth read is under way. *)
Example hello_three_reads :
  FileChunker.loads 3 (FileChunker.nextPartition (FileChunker.new hello))
  = ({| FileChunker._chunkSize := 64000;
        FileChunker._maxPartitionSize := 1000000;
        FileChunker._offset := 5;
        FileChunker._partitionSize := 5;
        FileChunker._file := hello;
        FileChunker.reading := Some [] |},
     [FileChunker.OnChunk [x68; x65; x6c; x6c; x6f];
      FileChunker.OnChunk [];
      FileChunker.OnChunk []]).
Proof. vm_compute. reflexivity. Qed.

(** C7, on the code: in every state the chunker goes through the offset is
    at most the file size, so [isFileEnd] is false; in particular it is
    false on the chunk whose offset after the read equals the file size. *)
Theorem isFileEnd_false_when_reachable (file : File) (c : FileChunker.t) :
  FileChunker.reachable file c ->
  FileChunker._offset c <= size file /\ FileChunker.isFileEnd c = false.
Proof.
  intros H. destruct (reachable_inv file c H) as (Hf & _ & _ & _ & Ho & _).
  split; [assumption|]. unfold FileChunker.isFileEnd. rewrite Hf.
  destruct (Z.gtb_spec (FileChunker._offset c) (size file)); [lia|reflexivity].
Qed.

Lemma isFileEnd_false_one_chunk_file :
  FileChunker.reachable one_chunk_file
    (fst (FileChunker.load (FileChunker.nextPartition (FileChunker.new one_chunk_file))))
  /\ (FileChunker._offset
        (fst (FileChunker.load (FileChunker.nextPartition (FileChunker.new one_chunk_file))))
      <= size one_chunk_file
      /\ FileChunker.isFileEnd
           (fst (FileChunker.load (FileChunker.nextPartition (FileChunker.new one_chunk_file))))
         = false).
Proof.
  split.
  - apply FileChunker.reach_load, FileChunker.reach_nextPartition, FileChunker.reach_new.
  - apply (isFileEnd_false_when_reachable one_chunk_file).
    apply FileChunker.reach_load, FileChunker.reach_nextPartition, FileChunker.reach_new.
Defined.

(** A file of exactly one chunk: the first read gives the whole file and
    brings the offset to the size, [isFileEnd] is false there and the
    chunker reads again; the second read gives an empty chunk. *)
Example one_chunk_file_two_reads :
  size one_chunk_file = 64000
  /\ map (fun b => Z.of_nat (length b))
       (FileChunker.chunks
          (snd (FileChunker.load (FileChunker.nextPartition (FileChunker.new one_chunk_file)))))
     = [64000]
  /\ FileChunker._offset
       (fst (FileChunker.load (FileChunker.nextPartition (FileChunker.new one_chunk_file))))
     = 64000
  /\ FileChunker.isFileEnd
       (fst (FileChunker.load (FileChunker.nextPartition (FileChunker.new one_chunk_file))))
     = false
  /\ map (fun b => Z.of_nat (length b))
       (FileChunker.chunks
          (snd (FileChunker.loads 2 (FileChunker.nextPartition (FileChunker.new one_chunk_file)))))
     = [64000; 0].
Proof. repeat split; vm_compute; reflexivity. Qed.

(** ** The chunker's [progress] *)

Lemma div_of_Z_pos (a b : Z) :
  0 < b -> JS.div (JS.of_Z a) (JS.of_Z b) = JS.Fin (inject_Z a / inject_Z b).
Proof.
  intros Hb. unfold JS.div, JS.of_Z, JS.sgn.
  destruct (Qcompare_spec (inject_Z b) (inject_Z 0)) as [H|H|H]; try reflexivity.
  - unfold Qeq in H. simpl in H. lia.
Qed.

Lemma Qdiv_unit (a b : Z) :
  0 <= a <= b -> 0 < b -> (0 <= inject_Z a / inject_Z b /\ inject_Z a / inject_Z b <= 1)%Q.
Proof.
  intros Ha Hb.
  assert (Hb' : (0 < inject_Z b)%Q) by (unfold Qlt; simpl; lia).
  split.
  - apply Qle_shift_div_l; [assumption|]. unfold Qle; simpl. lia.
  - apply Qle_shift_div_r; [assumption|]. unfold Qle; simpl. lia.
Qed.

(** C9, as the code has it: for a non-empty file and every state the
    chunker goes through, [progress] is the offset divided by the file
    size, a number of [0,1] (nothing is clamped: the quotient is in the
    interval by itself). *)
Theorem progress_of_nonempty_file (file : File) (c : FileChunker.t) :
  FileChunker.reachable file c -> 0 < size file ->
  FileChunker.progress c
  = JS.Fin (inject_Z (FileChunker._offset c) / inject_Z (size file))
  /\ JS.in_unit_interval (FileChunker.progress c).
Proof.
  intros H Hpos. destruct (reachable_inv file c H) as (Hf & _ & _ & Hp & Ho & _).
  unfold FileChunker.progress. rewrite Hf, div_of_Z_pos by assumption.
  split; [reflexivity|]. simpl. apply Qdiv_unit; lia.
Qed.

Lemma progress_of_nonempty_file_hello :
  FileChunker.reachable hello
    (fst (FileChunker.load (FileChunker.nextPartition (FileChunker.new hello))))
  /\ 0 < size hello
  /\ (FileChunker.progress
        (fst (FileChunker.load (FileChunker.nextPartition (FileChunker.new hello))))
      = JS.Fin (inject_Z
                  (FileChunker._offset
                     (fst (FileChunker.load (FileChunker.nextPartition (FileChunker.new hello)))))
                / inject_Z (size hello))
      /\ JS.in_unit_interval
           (FileChunker.progress
              (fst (FileChunker.load (FileChunker.nextPartition (FileChunker.new hello)))))).
Proof.
  assert (R : FileChunker.reachable hello
                (fst (FileChunker.load (FileChunker.nextPartition (FileChunker.new hello)))))
    by apply FileChunker.reach_load, FileChunker.reach_nextPartition, FileChunker.reach_new.
  split; [exact R|]. split; [reflexivity|].
  apply (progress_of_nonempty_file hello _ R). reflexivity.
Defined.

(** C9 as stated fails on the empty file: [0 / 0] is [NaN], which is not a
    number of [0,1]. *)
Lemma progress_of_empty_file_is_NaN :
  FileChunker.reachable empty_file (FileChunker.new empty_file)
  /\ FileChunker.progress (FileChunker.new empty_file) = JS.NaN
  /\ ~ JS.in_unit_interval (FileChunker.progress (FileChunker.new empty_file)).
Proof.
  split; [apply FileChunker.reach_new|]. split; [reflexivity|]. simpl. tauto.
Qed.

(** ** The digester *)

Lemma chunk_length_sized (c : chunk) :
  sized c = true -> FileDigester.chunk_length c = JS.of_Z (byte_count c).
Proof.
  unfold FileDigester.chunk_length, byte_count.
  destruct c as [[|b bs]|bs]; simpl; intros H; try discriminate; reflexivity.
Qed.

Lemma Qcompare_inject_Z (a b : Z) : Qcompare (inject_Z a) (inject_Z b) = Z.compare a b.
Proof. unfold Qcompare; simpl. rewrite !Z.mul_1_r. reflexivity. Qed.

Lemma ltb_Fin_of_Z (q : Q) (z s : Z) :
  (q == inject_Z z)%Q -> JS.ltb (JS.Fin q) (JS.of_Z s) = (z <? s).
Proof.
  intros H. unfold JS.ltb, JS.of_Z. rewrite H, Qcompare_inject_Z.
  unfold Z.ltb. destruct (z ?= s); reflexivity.
Qed.

Lemma add_Fin_of_Z (q : Q) (z n : Z) :
  (q == inject_Z z)%Q ->
  exists q', JS.add (JS.Fin q) (JS.of_Z n) = JS.Fin q' /\ (q' == inject_Z (z + n))%Q.
Proof.
  intros H. exists (q + inject_Z n)%Q. split; [reflexivity|].
  rewrite H, inject_Z_plus. reflexivity.
Qed.

(** Once the callback is cleared and the size reached, every call throws. *)
Lemma unchunks_after_completion (cs : list chunk) :
  forall (d : FileDigester.t) (q : Q) (r : Z),
    FileDigester._callback d = false ->
    FileDigester._bytesReceived d = JS.Fin q -> (q == inject_Z r)%Q ->
    FileDigester._size d <= r ->
    forallb sized cs = true ->
    snd (FileDigester.unchunks d cs) = repeat FileDigester.TypeError (length cs).
Proof.
  induction cs as [|c cs IH]; intros d q r Hcb Hb Hq Hr Hs; [reflexivity|].
  simpl in Hs. apply andb_prop in Hs as [Hc Hs].
  destruct (add_Fin_of_Z q r (byte_count c) Hq) as (q' & Hadd & Hq').
  assert (Hpos : 0 <= byte_count c) by (unfold byte_count; lia).
  simpl. unfold FileDigester.unchunk.
  rewrite Hb, (chunk_length_sized c Hc), Hadd, (ltb_Fin_of_Z q' _ _ Hq'), Hcb.
  destruct (Z.ltb_spec (r + byte_count c) (FileDigester._size d)) as [Hlt|Hge]; [lia|].
  match goal with |- context [FileDigester.unchunks ?d1 cs] =>
    specialize (IH d1 q' (r + byte_count c) eq_refl eq_refl Hq' ltac:(simpl; lia) Hs);
    destruct (FileDigester.unchunks d1 cs) as [d2 os] end.
  simpl in *. f_equal. exact IH.
Qed.

Lemma unchunks_until_completion (cs : list chunk) :
  forall (d : FileDigester.t) (q : Q) (r : Z),
    FileDigester._callback d = true ->
    FileDigester._bytesReceived d = JS.Fin q -> (q == inject_Z r)%Q ->
    forallb sized cs = true ->
    snd (FileDigester.unchunks d cs)
    = match completing_call r (FileDigester._size d) cs with
      | None => repeat FileDigester.Returned (length cs)
      | Some k =>
          repeat FileDigester.Returned k
            ++ FileDigester.Invoked (artifact_of d (FileDigester._buffer d ++ firstn (S k) cs))
            :: repeat FileDigester.TypeError (length cs - S k)
      end.
Proof.
  induction cs as [|c cs IH]; intros d q r Hcb Hb Hq Hs; [reflexivity|].
  simpl in Hs. apply andb_prop in Hs as [Hc Hs].
  destruct (add_Fin_of_Z q r (byte_count c) Hq) as (q' & Hadd & Hq').
  simpl. unfold FileDigester.unchunk.
  rewrite Hb, (chunk_length_sized c Hc), Hadd, (ltb_Fin_of_Z q' _ _ Hq'), Hcb.
  destruct (Z.ltb_spec (r + byte_count c) (FileDigester._size d)) as [Hlt|Hge];
    destruct (Z.leb_spec (FileDigester._size d) (r + byte_count c)) as [Hle|Hgt]; try lia.
  - (* not yet complete *)
    match goal with |- context [FileDigester.unchunks ?d1 cs] =>
      specialize (IH d1 q' (r + byte_count c) eq_refl eq_refl Hq' Hs);
      destruct (FileDigester.unchunks d1 cs) as [d2 os] end.
    simpl in *. rewrite IH.
    destruct (completing_call (r + byte_count c) (FileDigester._size d) cs) as [k|]; simpl.
    + unfold artifact_of; simpl. rewrite <- app_assoc. reflexivity.
    + reflexivity.
  - (* this call completes the transfer *)
    match goal with |- context [FileDigester.unchunks ?d1 cs] =>
      pose proof (unchunks_after_completion cs d1 q' (r + byte_count c)
                    eq_refl eq_refl Hq' ltac:(simpl; lia) Hs) as Hafter;
      destruct (FileDigester.unchunks d1 cs) as [d2 os] end.
    simpl in *. rewrite Hafter, Nat.sub_0_r. reflexivity.
Qed.

(** C3, as the code has it: over any sequence of calls whose chunks have a
    length the digester reads as a number, the callback is invoked at the
    first call at which the bytes received reach the declared size and at
    no other call (so at most once, and never if the size is not reached);
    the artifact carries the declared name and size, and as MIME type the
    declared one or the default; every call before returns, every call
    after throws a [TypeError] without invoking the callback. *)
Theorem unchunk_completes_once (m : FileDigester.meta) (cs : list chunk) :
  forallb sized cs = true ->
  snd (FileDigester.unchunks (FileDigester.new m) cs)
  = match completing_call 0 (FileDigester.meta_size m) cs with
    | None => repeat FileDigester.Returned (length cs)
    | Some k =>
        repeat FileDigester.Returned k
          ++ FileDigester.Invoked
               {| FileDigester.a_name := FileDigester.meta_name m;
                  FileDigester.a_mime := kept_mime m;
                  FileDigester.a_size := FileDigester.meta_size m;
                  FileDigester.a_url :=
                    {| FileDigester.blob_parts := firstn (S k) cs;
                       FileDigester.blob_type := kept_mime m |} |}
          :: repeat FileDigester.TypeError (length cs - S k)
    end.
Proof.
  intros Hs.
  rewrite (unchunks_until_completion cs (FileDigester.new m) (inject_Z 0) 0
             eq_refl eq_refl ltac:(reflexivity) Hs).
  reflexivity.
Qed.

Lemma unchunk_completes_once_hi :
  forallb sized hi_chunks = true
  /\ snd (FileDigester.unchunks (FileDigester.new hi_meta) hi_chunks)
     = [FileDigester.Returned;
        FileDigester.Invoked
          {| FileDigester.a_name := "hi.txt";
             FileDigester.a_mime := "text/plain";
             FileDigester.a_size := 5;
             FileDigester.a_url :=
               {| FileDigester.blob_parts := [ArrayBuffer [x68; x65; x6c]; Blob [x6c; x6f]];
                  FileDigester.blob_type := "text/plain" |} |};
        FileDigester.TypeError].
Proof.
  split; [reflexivity | exact (unchunk_completes_once hi_meta hi_chunks eq_refl)].
Defined.

(** C3 as stated fails on a header whose MIME type is the empty string
    (what a [File] of unknown type has): the artifact carries the default
    type, not the declared one. *)
Lemma unchunk_artifact_default_mime :
  exists a : FileDigester.artifact,
    snd (FileDigester.unchunk
           (FileDigester.new
              {| FileDigester.meta_name := "zeros.bin";
                 FileDigester.meta_mime := JS.Val EmptyString;
                 FileDigester.meta_size := 1 |})
           (ArrayBuffer [x00]))
    = FileDigester.Invoked a
    /\ FileDigester.a_mime a = "application/octet-stream"
    /\ FileDigester.a_mime a <> EmptyString.
Proof.
  eexists. split; [reflexivity|]. split; [reflexivity|discriminate].
Qed.

(** An [ArrayBuffer] of length zero: [byteLength || size] is [undefined],
    the bytes received become [NaN], [NaN < size] is false, and the
    callback is invoked although no byte has arrived. *)
Example unchunk_empty_ArrayBuffer :
  FileDigester._bytesReceived
    (fst (FileDigester.unchunk (FileDigester.new hi_meta) (ArrayBuffer []))) = JS.NaN
  /\ exists a,
       snd (FileDigester.unchunk (FileDigester.new hi_meta) (ArrayBuffer []))
       = FileDigester.Invoked a.
Proof. split; [reflexivity | eexists; reflexivity]. Qed.

(** ** Progress reports of an inbound transfer *)





Lemma chunks_until_cons (r size : Z) (c : chunk) (cs : list chunk) :
  chunks_until r size (c :: cs)
  = c :: (if size <=? r + byte_count c then [] else chunks_until (r + byte_count c) size cs).
Proof.
  unfold chunks_until. simpl.
  destruct (size <=? r + byte_count c); [reflexivity|].
  destruct (completing_call (r + byte_count c) size cs); reflexivity.
Qed.


(** ** What a step hands to the transport *)

Lemma grows_refl (p : Peer.t) : grows p p.
Proof. exists []. symmetry. apply app_nil_r. Qed.

Lemma grows_trans (p q r : Peer.t) : grows p q -> grows q r -> grows p r.
Proof.
  intros [m1 H1] [m2 H2]. exists (m1 ++ m2). rewrite H2, H1, app_assoc. reflexivity.
Qed.

Lemma grows_same (p q : Peer.t) : Peer.sent q = Peer.sent p -> grows p q.
Proof. intros H. exists []. rewrite H. symmetry. apply app_nil_r. Qed.

Lemma grows_send (f : Peer.frame) (p : Peer.t) : grows p (Peer._send f p).
Proof. exists [f]. reflexivity. Qed.

Ltac grows_by_computation :=
  first [ apply grows_same; reflexivity
        | eexists; simpl; rewrite <- ?app_assoc; reflexivity ].

Lemma grows_dequeueFile (p : Peer.t) : grows p (Peer._dequeueFile p).
Proof.
  unfold Peer._dequeueFile. destruct (Peer._filesQueue p) as [|file rest].
  - apply grows_refl.
  - eexists. reflexivity.
Qed.

Lemma grows_sink (out : list FileChunker.effect) :
  forall p, grows p (fold_left Peer.sink out p).
Proof.
  induction out as [|e out IH]; intros p; simpl; [apply grows_refl|].
  eapply grows_trans; [|apply IH].
  destruct e; eexists; reflexivity.
Qed.

Lemma grows_onChunkReceived (c : chunk) (p : Peer.t) :
  grows p (fst (Peer._onChunkReceived c p)).
Proof.
  unfold Peer._onChunkReceived.
  destruct (Peer._digester p) as [d|]; [|apply grows_refl].
  destruct (FileDigester.unchunk d c) as [d1 [ | a | ]]; simpl.
  - destruct (JS.ltb _ _); grows_by_computation.
  - destruct (JS.ltb _ _); grows_by_computation.
  - grows_by_computation.
Qed.

Lemma grows_step (o : Peer.op) (p : Peer.t) : grows p (Peer.step o p).
Proof.
  destruct o as [files|text|[m|c]|]; simpl.
  - unfold Peer.sendFiles. simpl. destruct (Peer._busy p).
    + grows_by_computation.
    + eapply grows_trans; [|apply grows_dequeueFile]. grows_by_computation.
  - unfold Peer.sendText.
    destruct (Text.encodeURIComponent text) as [e|]; [|apply grows_refl].
    destruct (Text.btoa _); simpl; [apply grows_send|apply grows_refl].
  - destruct m; simpl; try grows_by_computation.
    + unfold Peer._sendNextPartition.
      destruct (Peer._chunker p) as [c|]; [|apply grows_refl].
      destruct (FileChunker.isFileEnd c); grows_by_computation.
    + unfold Peer._onTransferCompleted.
      eapply grows_trans; [|apply grows_same; reflexivity].
      eapply grows_trans; [|apply grows_dequeueFile]. grows_by_computation.
    + unfold Peer._onTextReceived. destruct (Text.atob text); [|apply grows_refl].
      destruct (Text.decodeURIComponent _); grows_by_computation.
  - apply grows_onChunkReceived.
  - unfold Peer.readerLoad. destruct (Peer._chunker p) as [c|]; [|apply grows_refl].
    destruct (FileChunker.load c) as [c1 out].
    eapply grows_trans; [|apply grows_sink]. grows_by_computation.
Qed.


Lemma sent_step (o : Peer.op) (p : Peer.t) :
  Peer.sent (Peer.step o p) = Peer.sent p ++ Peer.emitted o p.
Proof.
  destruct (grows_step o p) as [more H]. unfold Peer.emitted.
  rewrite H, skipn_app, Nat.sub_diag, skipn_all. reflexivity.
Qed.




(** ** The send queue *)

Lemma headers_app (fs gs : list Peer.frame) :
  Peer.headers (fs ++ gs) = Peer.headers fs ++ Peer.headers gs.
Proof. unfold Peer.headers. rewrite List.filter_app, flat_map_app. reflexivity. Qed.














(** A transfer of two files, then a third while the first is under way:
    one header leaves at once, the next ones on transfer-complete. *)
Example queue_of_three :
  Peer.headers
    (Peer.sent
       (Peer.run
          [Peer.SendFiles [hello; empty_file];
           Peer.SendFiles [hello];
           Peer.OnMessage (Peer.FJSON Peer.TransferComplete)]
          (Peer.new (JS.Val "B"))))
  = [Peer.header_of hello; Peer.header_of empty_file]
  /\ Peer._filesQueue
       (Peer.run
          [Peer.SendFiles [hello; empty_file];
           Peer.SendFiles [hello];
           Peer.OnMessage (Peer.FJSON Peer.TransferComplete)]
          (Peer.new (JS.Val "B")))
     = [hello].
Proof. split; reflexivity. Qed.

(** ** The RTC session *)

(** C5, on the code: [_onChannelClosed] changes nothing, whatever the
    role, because it tests [isCaller], which is never set, where the role
    is kept in [_isCaller]; a connection state change leaves the session
    as it is or, on [failed], only drops the connection object.  So a
    caller whose channel closes does not re-initiate the handshake. *)
Theorem channel_closed_never_restarts (p : RTCPeer.t) :
  RTCPeer._onChannelClosed p = p
  /\ (fst (RTCPeer._onConnectionStateChange p) = p
      \/ fst (RTCPeer._onConnectionStateChange p) = RTCPeer.set_peer None p).
Proof.
  split; [reflexivity|].
  unfold RTCPeer._onConnectionStateChange.
  destruct (RTCPeer._peer p) as [conn|]; [|left; reflexivity].
  destruct (RTCPeer.connectionState conn); first [left; reflexivity | right; reflexivity].
Qed.

(** The caller of scenario 1 after its channel closed: it is the caller,
    it has asked for one offer, and the close leaves it as it was. *)
Example caller_channel_closed :
  RTCPeer._isCaller caller_open = JS.Val true
  /\ RTCPeer.offers caller_open = 1%nat
  /\ RTCPeer._onChannelClosed caller_open = caller_open
  /\ RTCPeer.connection_state_changes RTCPeer.CDisconnected caller_open
     = RTCPeer.set_peer
         (Some {| RTCPeer.connectionState := RTCPeer.CDisconnected;
                  RTCPeer.ondatachannel := false;
                  RTCPeer.calls := [RTCPeer.CreateDataChannel; RTCPeer.CreateOffer] |})
         caller_open
  /\ RTCPeer._peer caller_failed = None
  /\ RTCPeer.offers caller_failed = 0%nat
  /\ RTCPeer._isCaller callee = JS.Val false
  /\ RTCPeer._onChannelClosed callee = callee.
Proof. repeat split; reflexivity. Qed.

(** C6, on the code: with a connection and a channel, [refresh] restarts
    the handshake when the channel is open and does nothing when it is not
    open: the test of the channel's state is the wrong way round (the
    comment above it reads "check if channel open. otherwise create one"). *)
Theorem refresh_restarts_when_open
    (b : Peer.t) (role : JS.value bool)
    (conn : RTCPeer.RTCPeerConnection) (state : RTCPeer.ready_state) :
  RTCPeer.refresh
    {| RTCPeer.base := b; RTCPeer._isCaller := role;
       RTCPeer._peer := Some conn;
       RTCPeer._channel := Some {| RTCPeer.readyState := state |} |}
  = if RTCPeer.is_open state
    then RTCPeer._start (Peer._peerId b) role
           {| RTCPeer.base := b; RTCPeer._isCaller := role;
              RTCPeer._peer := Some conn;
              RTCPeer._channel := Some {| RTCPeer.readyState := state |} |}
    else {| RTCPeer.base := b; RTCPeer._isCaller := role;
            RTCPeer._peer := Some conn;
            RTCPeer._channel := Some {| RTCPeer.readyState := state |} |}.
Proof.
  unfold RTCPeer.refresh. cbn [RTCPeer._peer RTCPeer._channel RTCPeer.readyState].
  rewrite bool_decide_eq_true_2 by (eexists; reflexivity).
  destruct state; reflexivity.
Qed.

(** A caller with an open channel asks for a second channel and a second
    offer on [refresh]; a caller whose channel has closed is left alone. *)
Example refresh_of_callers :
  RTCPeer.offers caller_open = 1%nat
  /\ RTCPeer.offers (RTCPeer.refresh caller_open) = 2%nat
  /\ RTCPeer.refresh caller_closed = caller_closed.
Proof. repeat split; reflexivity. Qed.

(** ** The registry *)

(** C10: a peer-left event for an id that is not registered throws
    nothing, closes nothing and leaves the registry as it was; for a
    registered session without a connection object it removes the entry,
    throws nothing and closes nothing. *)
Theorem onPeerLeft_without_connection (mgr : PeersManager.t) (peerId : string) :
  (PeersManager.peers mgr !! peerId = None ->
   PeersManager._onPeerLeft peerId mgr = (mgr, Peer.Normal, None))
  /\ (forall s : PeersManager.session,
        PeersManager.peers mgr !! peerId = Some s ->
        PeersManager.session_peer s = None ->
        PeersManager._onPeerLeft peerId mgr
        = (PeersManager.set_peers (delete peerId (PeersManager.peers mgr)) mgr,
           Peer.Normal, None)
        /\ PeersManager.peers (fst (fst (PeersManager._onPeerLeft peerId mgr))) !! peerId = None
        /\ forall other : string,
             other <> peerId ->
             PeersManager.peers (fst (fst (PeersManager._onPeerLeft peerId mgr))) !! other
             = PeersManager.peers mgr !! other).
Proof.
  split.
  - intros H. unfold PeersManager._onPeerLeft. rewrite H, (delete_id _ _ H).
    destruct mgr; reflexivity.
  - intros s H Hs. unfold PeersManager._onPeerLeft. rewrite H, Hs. cbn.
    split; [reflexivity|]. split.
    + apply lookup_delete_eq.
    + intros other Hne. apply lookup_delete_ne. congruence.
Qed.

Lemma onPeerLeft_without_connection_two_sessions :
  (PeersManager.peers two_sessions !! "Z" = None
   /\ PeersManager._onPeerLeft "Z" two_sessions = (two_sessions, Peer.Normal, None))
  /\ (PeersManager.peers two_sessions !! "B" = Some (PeersManager.RTC caller_failed)
      /\ PeersManager.session_peer (PeersManager.RTC caller_failed) = None
      /\ PeersManager._onPeerLeft "B" two_sessions
         = (PeersManager.set_peers (delete "B" (PeersManager.peers two_sessions)) two_sessions,
            Peer.Normal, None)).
Proof.
  split.
  - split; [vm_compute; reflexivity|].
    apply (proj1 (onPeerLeft_without_connection two_sessions "Z")). vm_compute. reflexivity.
  - split; [vm_compute; reflexivity|]. split; [reflexivity|].
    apply (proj2 (onPeerLeft_without_connection two_sessions "B")
             (PeersManager.RTC caller_failed));
      [vm_compute; reflexivity|reflexivity].
Defined.

(** The relay session leaves: its entry goes, nothing is closed; a
    session with a connection leaves: the connection is closed. *)
Example onPeerLeft_samples :
  snd (PeersManager._onPeerLeft "W" two_sessions) = None
  /\ PeersManager.peers (fst (fst (PeersManager._onPeerLeft "W" two_sessions))) !! "W" = None
  /\ snd (PeersManager._onPeerLeft "B"
            (PeersManager.set_peers (<["B" := PeersManager.RTC caller_open]> ∅)
               (PeersManager.new true)))
     = Some {| RTCPeer.connectionState := RTCPeer.CNew;
               RTCPeer.ondatachannel := false;
               RTCPeer.calls :=
                 [RTCPeer.CreateDataChannel; RTCPeer.CreateOffer; RTCPeer.Close] |}.
Proof. repeat split; vm_compute; reflexivity. Qed.

(** ** The text path *)

(** The global functions on small inputs: [btoa("abcd")] is ["YWJjZA=="];
    [atob] skips white space and takes padded and unpadded input, and
    fails on a lone character; [escape("\u00E4\u20AC@ ")] is
    ["%E4%u20AC@%20"]; [unescape("%u0107%41%%5")] is ["\u0107A%%5"];
    [decodeURIComponent] reads ["%E2%82%AC"] as U+20AC and throws on a
    truncated escape, on an overlong form and on an encoded surrogate;
    [encodeURIComponent] throws on a lone low surrogate. *)
Example text_functions :
  Text.btoa [97; 98; 99; 100] = Some [89; 87; 74; 106; 90; 65; 61; 61]
  /\ Text.atob [89; 87; 32; 74; 106; 10; 90; 65; 61; 61] = Some [97; 98; 99; 100]
  /\ Text.atob [89; 87; 74; 106; 90; 65] = Some [97; 98; 99; 100]
  /\ Text.atob [89] = None
  /\ Text.btoa [8364] = None
  /\ Text.escape [228; 8364; 64; 32]
     = [37; 69; 52; 37; 117; 50; 48; 65; 67; 64; 37; 50; 48]
  /\ Text.unescape [37; 117; 48; 49; 48; 55; 37; 52; 49; 37; 37; 53] = [263; 65; 37; 37; 53]
  /\ Text.decodeURIComponent [37; 69; 50; 37; 56; 50; 37; 65; 67] = Some [8364]
  /\ Text.decodeURIComponent [37; 69; 50; 37; 56; 50; 37] = None
  /\ Text.decodeURIComponent [37; 67; 48; 37; 56; 48] = None
  /\ Text.decodeURIComponent [37; 69; 68; 37; 65; 48; 37; 56; 48] = None
  /\ Text.encodeURIComponent [97; 32; 8364] = Some [97; 37; 50; 48; 37; 69; 50; 37; 56; 50; 37; 65; 67]
  /\ Text.encodeURIComponent [56320] = None.
Proof. repeat split; vm_compute; reflexivity. Qed.

(** A property of the integers below [n], checked on each of them. *)
Lemma checked_below (f : Z -> bool) (n : nat) :
  forallb f (map Z.of_nat (seq 0 n)) = true ->
  forall d, 0 <= d < Z.of_nat n -> f d = true.
Proof.
  intros H d Hd. rewrite forallb_forall in H. apply H.
  apply in_map_iff. exists (Z.to_nat d). split; [lia|].
  apply in_seq. lia.
Qed.

Lemma hex2_percent (b : Z) :
  is_octet b -> Text.hex2 (Text.hexDigit (b / 16)) (Text.hexDigit (b mod 16)) = Some b.
Proof.
  intros Hb.
  pose proof (checked_below
                (fun b => match Text.hex2 (Text.hexDigit (b / 16)) (Text.hexDigit (b mod 16)) with
                          | Some n => n =? b
                          | None => false
                          end) 256 ltac:(vm_compute; reflexivity) b Hb) as H.
  cbv beta in H. destruct (Text.hex2 _ _) as [n|]; [|discriminate].
  apply Z.eqb_eq in H. congruence.
Qed.

Lemma hexDigit_not_u (b : Z) : is_octet b -> (Text.hexDigit (b / 16) =? 117) = false.
Proof.
  intros Hb.
  pose proof (checked_below (fun b => negb (Text.hexDigit (b / 16) =? 117)) 256
                ltac:(vm_compute; reflexivity) b Hb) as H.
  apply negb_true_iff in H. exact H.
Qed.

Lemma b64value_b64char (i : Z) : 0 <= i < 64 -> Text.b64value (Text.b64char i) = Some i.
Proof.
  intros Hi.
  pose proof (checked_below
                (fun i => match Text.b64value (Text.b64char i) with
                          | Some n => n =? i
                          | None => false
                          end) 64 ltac:(vm_compute; reflexivity) i Hi) as H.
  cbv beta in H. destruct (Text.b64value _) as [n|]; [|discriminate].
  apply Z.eqb_eq in H. congruence.
Qed.

Lemma b64char_plain (i : Z) :
  0 <= i < 64 ->
  (Text.b64char i =? 61) = false /\ Text.is_ascii_whitespace (Text.b64char i) = false.
Proof.
  intros Hi.
  pose proof (checked_below
                (fun i => negb (Text.b64char i =? 61)
                          && negb (Text.is_ascii_whitespace (Text.b64char i)))
                64 ltac:(vm_compute; reflexivity) i Hi) as H.
  apply andb_prop in H as [H1 H2].
  apply negb_true_iff in H1, H2. split; assumption.
Qed.

(** The characters [escape] and [encodeURIComponent] leave alone are
    ASCII and are not the percent sign. *)
Lemma escapeUnescaped_ascii (c : Z) :
  Text.escapeUnescaped c = true -> 0 <= c < 128 /\ c <> 37.
Proof.
  unfold Text.escapeUnescaped, Text.is_alpha, Text.is_digit, Text.in_range, Text.mem.
  cbn [existsb]. rewrite !orb_true_iff, !andb_true_iff, !Z.leb_le, !Z.eqb_eq. lia.
Qed.

Lemma uriUnescaped_ascii (c : Z) :
  Text.uriUnescaped c = true -> 0 <= c < 128 /\ c <> 37.
Proof.
  unfold Text.uriUnescaped, Text.is_alpha, Text.is_digit, Text.in_range, Text.mem.
  cbn [existsb]. rewrite !orb_true_iff, !andb_true_iff, !Z.leb_le, !Z.eqb_eq. lia.
Qed.

(** *** Percent escapes and [unescape] *)

Lemma unescape_literal (c : Z) (rest : Text.jsstring) :
  c <> 37 -> Text.unescape (c :: rest) = c :: Text.unescape rest.
Proof.
  intros H. cbn [Text.unescape].
  destruct (Z.eqb_spec c 37); [contradiction|reflexivity].
Qed.

Lemma unescape_percent (b : Z) (rest : Text.jsstring) :
  is_octet b -> Text.unescape (Text.percent b ++ rest) = b :: Text.unescape rest.
Proof.
  intros Hb. unfold Text.percent. cbn [app Text.unescape].
  rewrite (hexDigit_not_u b Hb), (hex2_percent b Hb). reflexivity.
Qed.

Lemma unescape_percents (bs : list Z) (rest : Text.jsstring) :
  Forall is_octet bs ->
  Text.unescape (flat_map Text.percent bs ++ rest) = bs ++ Text.unescape rest.
Proof.
  induction 1 as [|b bs Hb _ IH]; [reflexivity|].
  cbn [flat_map]. rewrite <- app_assoc, (unescape_percent b _ Hb), IH. reflexivity.
Qed.

(** *** UTF-8 *)

Ltac cases_on_comparisons :=
  repeat match goal with
         | |- context [?a <? ?b] => destruct (Z.ltb_spec a b)
         | |- context [?a <=? ?b] => destruct (Z.leb_spec a b)
         | |- context [?a =? ?b] => destruct (Z.eqb_spec a b)
         end.

Lemma utf8_encode_octets (v : Z) :
  0 <= v < 1114112 -> Forall is_octet (Text.utf8_encode v).
Proof.
  intros Hv. unfold Text.utf8_encode, is_octet. cases_on_comparisons;
    repeat constructor; Z.div_mod_to_equations; lia.
Qed.

Lemma surrogates_of_in_range (c : Z) :
  (Text.is_high_surrogate c = true <-> 55296 <= c <= 56319)
  /\ (Text.is_low_surrogate c = true <-> 56320 <= c <= 57343).
Proof.
  unfold Text.is_high_surrogate, Text.is_low_surrogate, Text.in_range.
  rewrite !andb_true_iff, !Z.leb_le. tauto.
Qed.

Lemma pair_code_point_range (hi lo : Z) :
  Text.is_high_surrogate hi = true -> Text.is_low_surrogate lo = true ->
  65536 <= Text.pair_code_point hi lo < 1114112.
Proof.
  intros Hh Hl. apply surrogates_of_in_range in Hh, Hl.
  unfold Text.pair_code_point. lia.
Qed.

(** The shape of a well-formed string: empty, a code unit that is not a
    surrogate followed by a well-formed string, or a pair followed by a
    well-formed string. *)
Lemma well_formed_ind (P : Text.jsstring -> Prop) :
  P [] ->
  (forall c rest,
      0 <= c < 65536 -> Text.is_high_surrogate c = false -> Text.is_low_surrogate c = false ->
      Text.well_formed rest = true -> P rest -> P (c :: rest)) ->
  (forall hi lo rest,
      Text.is_high_surrogate hi = true -> Text.is_low_surrogate lo = true ->
      Text.well_formed rest = true -> P rest -> P (hi :: lo :: rest)) ->
  forall s, Text.well_formed s = true -> P s.
Proof.
  intros Hnil Hone Hpair s.
  remember (length s) as n eqn:Hn.
  assert (Hle : (length s <= n)%nat) by lia. clear Hn.
  revert s Hle. induction n as [|n IH]; intros s Hle Hwf.
  - destruct s; [exact Hnil|simpl in Hle; lia].
  - destruct s as [|c rest]; [exact Hnil|].
    cbn [Text.well_formed] in Hwf. simpl in Hle.
    destruct (Text.is_high_surrogate c) eqn:Hh.
    + destruct rest as [|d rest]; [discriminate|].
      apply andb_prop in Hwf as [Hd Hwf]. simpl in Hle.
      apply Hpair; try assumption. apply IH; [lia|assumption].
    + destruct (Text.is_low_surrogate c) eqn:Hl; [discriminate|].
      apply andb_prop in Hwf as [Hc Hwf].
      unfold Text.in_range in Hc. apply andb_prop in Hc as [Hc1 Hc2].
      apply Z.leb_le in Hc1, Hc2.
      apply Hone; try assumption; [lia|]. apply IH; [lia|assumption].
Qed.

Lemma utf8_cons (c : Z) (rest : Text.jsstring) :
  Text.is_high_surrogate c = false ->
  Text.utf8 (c :: rest) = Text.utf8_encode c ++ Text.utf8 rest.
Proof. intros H. cbn [Text.utf8]. rewrite H. reflexivity. Qed.

Lemma utf8_pair (hi lo : Z) (rest : Text.jsstring) :
  Text.is_high_surrogate hi = true ->
  Text.utf8 (hi :: lo :: rest)
  = Text.utf8_encode (Text.pair_code_point hi lo) ++ Text.utf8 rest.
Proof. intros H. cbn [Text.utf8]. rewrite H. reflexivity. Qed.

Lemma utf8_octets (s : Text.jsstring) :
  Text.well_formed s = true -> Forall is_octet (Text.utf8 s).
Proof.
  revert s. apply well_formed_ind.
  - constructor.
  - intros c rest Hc Hh Hl _ IH. rewrite utf8_cons by assumption.
    apply Forall_app. split; [apply utf8_encode_octets; lia|exact IH].
  - intros hi lo rest Hh Hl _ IH. rewrite utf8_pair by assumption.
    apply Forall_app. split; [|exact IH].
    apply utf8_encode_octets. pose proof (pair_code_point_range hi lo Hh Hl). lia.
Qed.

(** [unescape(encodeURIComponent(s))] is the UTF-8 form of [s], one code
    unit per octet. *)
Lemma unescape_encodeURIComponent (s : Text.jsstring) :
  Text.well_formed s = true ->
  exists e, Text.encodeURIComponent s = Some e /\ Text.unescape e = Text.utf8 s.
Proof.
  revert s. apply well_formed_ind.
  - exists []. split; reflexivity.
  - intros c rest Hc Hh Hl _ (e & He & Hu).
    rewrite utf8_cons by assumption. cbn [Text.encodeURIComponent].
    rewrite He, Hl, Hh. cbn [negb fmap option_fmap option_map].
    destruct (Text.uriUnescaped c) eqn:Hun.
    + destruct (uriUnescaped_ascii c Hun) as [Hascii Hne].
      exists (c :: e). split; [reflexivity|].
      rewrite unescape_literal, Hu by assumption.
      unfold Text.utf8_encode. destruct (Z.ltb_spec c 128); [reflexivity|lia].
    + eexists. split; [reflexivity|].
      rewrite unescape_percents, Hu; [reflexivity|]. apply utf8_encode_octets. lia.
  - intros hi lo rest Hh Hl _ (e & He & Hu).
    rewrite utf8_pair by assumption. cbn [Text.encodeURIComponent].
    assert (Hun : Text.uriUnescaped hi = false).
    { destruct (Text.uriUnescaped hi) eqn:E; [|reflexivity].
      apply uriUnescaped_ascii in E. apply surrogates_of_in_range in Hh. lia. }
    assert (Hlo : Text.is_low_surrogate hi = false).
    { destruct (Text.is_low_surrogate hi) eqn:E; [|reflexivity].
      apply surrogates_of_in_range in E, Hh. lia. }
    rewrite Hun, Hlo, Hh, Hl, He. cbn [negb fmap option_fmap option_map].
    eexists. split; [reflexivity|].
    rewrite unescape_percents, Hu; [reflexivity|]. apply utf8_encode_octets.
    pose proof (pair_code_point_range hi lo Hh Hl). lia.
Qed.

(** *** Base64 *)

Lemma list_ind3 {A : Type} (P : list A -> Prop) :
  P [] -> (forall a, P [a]) -> (forall a b, P [a; b]) ->
  (forall a b c rest, P rest -> P (a :: b :: c :: rest)) ->
  forall l, P l.
Proof.
  intros H0 H1 H2 H3 l.
  remember (length l) as n eqn:Hn.
  assert (Hle : (length l <= n)%nat) by lia. clear Hn.
  revert l Hle. induction n as [|n IH]; intros l Hle.
  - destruct l; [exact H0|simpl in Hle; lia].
  - destruct l as [|a [|b [|c rest]]]; auto.
    apply H3, IH. simpl in Hle. lia.
Qed.

Lemma sextets_in_range (a b c : Z) :
  is_octet a -> is_octet b -> is_octet c ->
  0 <= a / 4 < 64 /\ 0 <= a mod 4 * 16 + b / 16 < 64
  /\ 0 <= b mod 16 * 4 + c / 64 < 64 /\ 0 <= c mod 64 < 64
  /\ 0 <= a mod 4 * 16 < 64 /\ 0 <= b mod 16 * 4 < 64.
Proof. unfold is_octet. intros. Z.div_mod_to_equations. lia. Qed.

Lemma b64encode_empty_or_long (bs : list Z) :
  Text.b64encode bs = [] \/ (2 <= length (Text.b64encode bs))%nat.
Proof. destruct bs as [|a [|b [|c rest]]]; simpl; [left; reflexivity|right; lia..]. Qed.

Lemma b64encode_length (bs : list Z) :
  Z.of_nat (length (Text.b64encode bs)) mod 4 = 0.
Proof.
  induction bs as [| a | a b | a b c rest IH] using list_ind3; try reflexivity.
  cbn [Text.b64encode length]. rewrite !Nat2Z.inj_succ.
  replace (Z.succ (Z.succ (Z.succ (Z.succ (Z.of_nat (length (Text.b64encode rest)))))))
    with (Z.of_nat (length (Text.b64encode rest)) + 1 * 4) by lia.
  rewrite Z.mod_add by lia. exact IH.
Qed.

Lemma b64encode_no_whitespace (bs : list Z) :
  Forall is_octet bs ->
  List.filter (fun c => negb (Text.is_ascii_whitespace c)) (Text.b64encode bs)
  = Text.b64encode bs.
Proof.
  induction bs as [| a | a b | a b c rest IH] using list_ind3; intros H.
  - reflexivity.
  - inversion H as [|? ? Ha _]; subst.
    destruct (sextets_in_range a a a Ha Ha Ha) as (S1 & _ & _ & _ & S5 & _).
    cbn [Text.b64encode List.filter].
    rewrite (proj2 (b64char_plain _ S1)), (proj2 (b64char_plain _ S5)). reflexivity.
  - inversion H as [|? ? Ha H']; subst. inversion H' as [|? ? Hb _]; subst.
    destruct (sextets_in_range a b b Ha Hb Hb) as (S1 & S2 & _ & _ & _ & S6).
    cbn [Text.b64encode List.filter].
    rewrite (proj2 (b64char_plain _ S1)), (proj2 (b64char_plain _ S2)),
      (proj2 (b64char_plain _ S6)). reflexivity.
  - inversion H as [|? ? Ha H']; subst. inversion H' as [|? ? Hb H'']; subst.
    inversion H'' as [|? ? Hc Hrest]; subst.
    destruct (sextets_in_range a b c Ha Hb Hc) as (S1 & S2 & S3 & S4 & _ & _).
    cbn [Text.b64encode List.filter].
    rewrite (proj2 (b64char_plain _ S1)), (proj2 (b64char_plain _ S2)),
      (proj2 (b64char_plain _ S3)), (proj2 (b64char_plain _ S4)).
    cbn [negb]. rewrite (IH Hrest). reflexivity.
Qed.

Lemma strip_padding_cons (x : Z) (l : Text.jsstring) :
  (2 <= length l)%nat -> Text.strip_padding (x :: l) = x :: Text.strip_padding l.
Proof. destruct l as [|a [|b l]]; simpl; intros H; try lia; reflexivity. Qed.

Lemma strip_padding_block (x1 x2 x3 x4 : Z) (t : Text.jsstring) :
  (x4 =? 61) = false -> t = [] \/ (2 <= length t)%nat ->
  Text.strip_padding (x1 :: x2 :: x3 :: x4 :: t) = x1 :: x2 :: x3 :: x4 :: Text.strip_padding t.
Proof.
  intros H4 [->|Ht].
  - cbn [Text.strip_padding]. rewrite H4. reflexivity.
  - rewrite !strip_padding_cons by (simpl; lia). reflexivity.
Qed.

Lemma b64decode_strip_b64encode (bs : list Z) :
  Forall is_octet bs ->
  Text.b64decode (Text.strip_padding (Text.b64encode bs)) = Some bs.
Proof.
  induction bs as [| a | a b | a b c rest IH] using list_ind3; intros H.
  - reflexivity.
  - inversion H as [|? ? Ha _]; subst.
    destruct (sextets_in_range a a a Ha Ha Ha) as (S1 & _ & _ & _ & S5 & _).
    cbn [Text.b64encode Text.strip_padding Z.eqb Pos.eqb Text.b64decode].
    rewrite (b64value_b64char _ S1), (b64value_b64char _ S5).
    do 2 f_equal. unfold is_octet in Ha. Z.div_mod_to_equations. lia.
  - inversion H as [|? ? Ha H']; subst. inversion H' as [|? ? Hb _]; subst.
    destruct (sextets_in_range a b b Ha Hb Hb) as (S1 & S2 & _ & _ & _ & S6).
    cbn [Text.b64encode Text.strip_padding Z.eqb Pos.eqb].
    rewrite (proj1 (b64char_plain _ S6)). cbn [Text.b64decode].
    rewrite (b64value_b64char _ S1), (b64value_b64char _ S2), (b64value_b64char _ S6).
    unfold is_octet in Ha, Hb. do 2 f_equal; [|f_equal]; Z.div_mod_to_equations; lia.
  - inversion H as [|? ? Ha H']; subst. inversion H' as [|? ? Hb H'']; subst.
    inversion H'' as [|? ? Hc Hrest]; subst.
    destruct (sextets_in_range a b c Ha Hb Hc) as (S1 & S2 & S3 & S4 & _ & _).
    cbn [Text.b64encode].
    rewrite strip_padding_block
      by (first [apply (proj1 (b64char_plain _ S4)) | apply b64encode_empty_or_long]).
    cbn [Text.b64decode].
    rewrite (b64value_b64char _ S1), (b64value_b64char _ S2),
      (b64value_b64char _ S3), (b64value_b64char _ S4), (IH Hrest).
    cbn [fmap option_fmap option_map].
    unfold is_octet in Ha, Hb, Hc.
    do 2 f_equal; [|f_equal; [|f_equal]]; Z.div_mod_to_equations; lia.
Qed.

(** [atob(btoa(s))] is [s] when every code unit of [s] is an octet. *)
Lemma atob_btoa (bs : list Z) :
  Forall is_octet bs ->
  Text.btoa bs = Some (Text.b64encode bs) /\ Text.atob (Text.b64encode bs) = Some bs.
Proof.
  intros H. split.
  - unfold Text.btoa. replace (forallb (Text.in_range 0 255) bs) with true; [reflexivity|].
    symmetry. induction H as [|b bs Hb _ IH]; [reflexivity|].
    cbn [forallb]. rewrite IH, andb_true_r.
    unfold is_octet in Hb. unfold Text.in_range. apply andb_true_iff.
    rewrite !Z.leb_le. lia.
  - unfold Text.atob. rewrite (b64encode_no_whitespace bs H), b64encode_length.
    cbn [Z.eqb]. apply b64decode_strip_b64encode. exact H.
Qed.

(** *** [escape] and [decodeURIComponent] *)

Lemma escape1_octet (b : Z) :
  is_octet b ->
  Text.escape1 b = if Text.escapeUnescaped b then [b] else Text.percent b.
Proof.
  intros Hb. unfold Text.escape1. destruct (Text.escapeUnescaped b); [reflexivity|].
  unfold is_octet in Hb. destruct (Z.ltb_spec b 256); [reflexivity|lia].
Qed.

Lemma tokens_escape (bs : list Z) (rest : Text.jsstring) (ts : list Text.token) :
  Forall is_octet bs -> Text.tokens rest = Some ts ->
  Text.tokens (Text.escape bs ++ rest) = Some (map token_of bs ++ ts).
Proof.
  intros H Hrest. induction H as [|b bs Hb _ IH]; [exact Hrest|].
  unfold Text.escape in *. cbn [flat_map map]. rewrite <- app_assoc.
  rewrite (escape1_octet b Hb). unfold token_of at 1.
  destruct (Text.escapeUnescaped b) eqn:E.
  - destruct (escapeUnescaped_ascii b E) as [_ Hne].
    cbn [app Text.tokens]. destruct (Z.eqb_spec b 37); [contradiction|].
    rewrite IH. reflexivity.
  - unfold Text.percent. cbn [app Text.tokens Z.eqb Pos.eqb].
    rewrite (hex2_percent b Hb), IH. reflexivity.
Qed.

Lemma token_of_high (b : Z) : 128 <= b -> token_of b = Text.Oct b.
Proof.
  intros Hb. unfold token_of. destruct (Text.escapeUnescaped b) eqn:E; [|reflexivity].
  apply escapeUnescaped_ascii in E. lia.
Qed.

Lemma continuation_true (b : Z) : 128 <= b <= 191 -> Text.is_continuation b = true.
Proof.
  intros Hb. unfold Text.is_continuation, Text.in_range.
  apply andb_true_iff. rewrite !Z.leb_le. exact Hb.
Qed.

Lemma decode_tokens_1 (b : Z) (ts : list Text.token) :
  0 <= b < 128 ->
  Text.decode_tokens (token_of b :: ts) = cons b <$> Text.decode_tokens ts.
Proof.
  intros Hb. unfold token_of. destruct (Text.escapeUnescaped b); cbn [Text.decode_tokens].
  - reflexivity.
  - destruct (Z.ltb_spec b 128); [reflexivity|lia].
Qed.

Lemma decode_tokens_2 (b1 b2 : Z) (ts : list Text.token) :
  192 <= b1 < 224 ->
  Text.decode_tokens (Text.Oct b1 :: Text.Oct b2 :: ts)
  = match Text.utf8_decode2 b1 b2 with
    | Some v => app (Text.utf16_encode v) <$> Text.decode_tokens ts
    | None => None
    end.
Proof.
  intros Hb. cbn [Text.decode_tokens].
  destruct (Z.ltb_spec b1 128); [lia|]. destruct (Z.ltb_spec b1 192); [lia|].
  destruct (Z.ltb_spec b1 224); [reflexivity|lia].
Qed.

Lemma decode_tokens_3 (b1 b2 b3 : Z) (ts : list Text.token) :
  224 <= b1 < 240 ->
  Text.decode_tokens (Text.Oct b1 :: Text.Oct b2 :: Text.Oct b3 :: ts)
  = match Text.utf8_decode3 b1 b2 b3 with
    | Some v => app (Text.utf16_encode v) <$> Text.decode_tokens ts
    | None => None
    end.
Proof.
  intros Hb. cbn [Text.decode_tokens].
  destruct (Z.ltb_spec b1 128); [lia|]. destruct (Z.ltb_spec b1 192); [lia|].
  destruct (Z.ltb_spec b1 224); [lia|]. destruct (Z.ltb_spec b1 240); [reflexivity|lia].
Qed.

Lemma decode_tokens_4 (b1 b2 b3 b4 : Z) (ts : list Text.token) :
  240 <= b1 < 248 ->
  Text.decode_tokens (Text.Oct b1 :: Text.Oct b2 :: Text.Oct b3 :: Text.Oct b4 :: ts)
  = match Text.utf8_decode4 b1 b2 b3 b4 with
    | Some v => app (Text.utf16_encode v) <$> Text.decode_tokens ts
    | None => None
    end.
Proof.
  intros Hb. cbn [Text.decode_tokens].
  destruct (Z.ltb_spec b1 128); [lia|]. destruct (Z.ltb_spec b1 192); [lia|].
  destruct (Z.ltb_spec b1 224); [lia|]. destruct (Z.ltb_spec b1 240); [lia|].
  destruct (Z.ltb_spec b1 248); [reflexivity|lia].
Qed.

Lemma utf8_decode2_encode (v : Z) :
  128 <= v < 2048 -> Text.utf8_decode2 (192 + v / 64) (128 + v mod 64) = Some v.
Proof.
  intros Hv. unfold Text.utf8_decode2.
  replace ((192 + v / 64 - 192) * 64 + (128 + v mod 64 - 128)) with v
    by (Z.div_mod_to_equations; lia).
  rewrite continuation_true by (Z.div_mod_to_equations; lia).
  destruct (Z.leb_spec 128 v); [reflexivity|lia].
Qed.

Lemma utf8_decode3_encode (v : Z) :
  2048 <= v < 65536 -> v < 55296 \/ 57343 < v ->
  Text.utf8_decode3 (224 + v / 4096) (128 + v / 64 mod 64) (128 + v mod 64) = Some v.
Proof.
  intros Hv Hs. unfold Text.utf8_decode3.
  replace ((224 + v / 4096 - 224) * 4096 + (128 + v / 64 mod 64 - 128) * 64
           + (128 + v mod 64 - 128)) with v
    by (Z.div_mod_to_equations; lia).
  rewrite !continuation_true by (Z.div_mod_to_equations; lia).
  unfold Text.in_range.
  destruct (Z.leb_spec 2048 v); [|lia].
  destruct (Z.leb_spec 55296 v); destruct (Z.leb_spec v 57343); try lia; reflexivity.
Qed.

Lemma utf8_decode4_encode (v : Z) :
  65536 <= v < 1114112 ->
  Text.utf8_decode4 (240 + v / 262144) (128 + v / 4096 mod 64) (128 + v / 64 mod 64)
    (128 + v mod 64) = Some v.
Proof.
  intros Hv. unfold Text.utf8_decode4.
  replace ((240 + v / 262144 - 240) * 262144 + (128 + v / 4096 mod 64 - 128) * 4096
           + (128 + v / 64 mod 64 - 128) * 64 + (128 + v mod 64 - 128)) with v
    by (Z.div_mod_to_equations; lia).
  rewrite !continuation_true by (Z.div_mod_to_equations; lia).
  unfold Text.in_range.
  destruct (Z.leb_spec 65536 v); [|lia].
  destruct (Z.leb_spec v 1114111); [reflexivity|lia].
Qed.

(** A code point that is not a surrogate, read back from its octets. *)
Lemma decode_tokens_code_point (v : Z) (ts : list Text.token) :
  0 <= v < 1114112 -> v < 55296 \/ 57343 < v ->
  Text.decode_tokens (map token_of (Text.utf8_encode v) ++ ts)
  = app (Text.utf16_encode v) <$> Text.decode_tokens ts.
Proof.
  intros Hv Hs. unfold Text.utf8_encode.
  destruct (Z.ltb_spec v 128); [|destruct (Z.ltb_spec v 2048); [|destruct (Z.ltb_spec v 65536)]];
    cbn [map app].
  - rewrite decode_tokens_1 by lia.
    unfold Text.utf16_encode. destruct (Z.ltb_spec v 65536); [|lia].
    destruct (Text.decode_tokens ts); reflexivity.
  - rewrite !token_of_high by (Z.div_mod_to_equations; lia).
    rewrite decode_tokens_2 by (Z.div_mod_to_equations; lia).
    rewrite utf8_decode2_encode by lia. reflexivity.
  - rewrite !token_of_high by (Z.div_mod_to_equations; lia).
    rewrite decode_tokens_3 by (Z.div_mod_to_equations; lia).
    rewrite utf8_decode3_encode by lia. reflexivity.
  - rewrite !token_of_high by (Z.div_mod_to_equations; lia).
    rewrite decode_tokens_4 by (Z.div_mod_to_equations; lia).
    rewrite utf8_decode4_encode by lia. reflexivity.
Qed.

Lemma utf16_encode_pair (hi lo : Z) :
  Text.is_high_surrogate hi = true -> Text.is_low_surrogate lo = true ->
  Text.utf16_encode (Text.pair_code_point hi lo) = [hi; lo].
Proof.
  intros Hh Hl. pose proof (pair_code_point_range hi lo Hh Hl) as Hr.
  apply surrogates_of_in_range in Hh, Hl.
  unfold Text.utf16_encode. destruct (Z.ltb_spec (Text.pair_code_point hi lo) 65536); [lia|].
  unfold Text.pair_code_point in *. f_equal; [|f_equal]; Z.div_mod_to_equations; lia.
Qed.

Lemma decode_tokens_utf8 (s : Text.jsstring) :
  Text.well_formed s = true ->
  Text.decode_tokens (map token_of (Text.utf8 s)) = Some s.
Proof.
  revert s. apply well_formed_ind.
  - reflexivity.
  - intros c rest Hc Hh Hl _ IH. rewrite utf8_cons, map_app by assumption.
    assert (Hs : c < 55296 \/ 57343 < c).
    { destruct (Z.lt_ge_cases c 55296); [left; assumption|].
      destruct (Z.lt_ge_cases 57343 c); [right; assumption|].
      destruct (Z.le_gt_cases c 56319).
      - assert (Text.is_high_surrogate c = true) by (apply surrogates_of_in_range; lia).
        congruence.
      - assert (Text.is_low_surrogate c = true) by (apply surrogates_of_in_range; lia).
        congruence. }
    rewrite decode_tokens_code_point, IH by lia.
    unfold Text.utf16_encode. destruct (Z.ltb_spec c 65536); [reflexivity|lia].
  - intros hi lo rest Hh Hl _ IH. rewrite utf8_pair, map_app by assumption.
    pose proof (pair_code_point_range hi lo Hh Hl) as Hr.
    rewrite decode_tokens_code_point, IH by lia.
    rewrite utf16_encode_pair by assumption. reflexivity.
Qed.

(** [decodeURIComponent(escape(b))] is [s] when [b] is the UTF-8 form of
    [s], one code unit per octet. *)
Lemma decodeURIComponent_escape (s : Text.jsstring) :
  Text.well_formed s = true ->
  Text.decodeURIComponent (Text.escape (Text.utf8 s)) = Some s.
Proof.
  intros H. unfold Text.decodeURIComponent.
  pose proof (tokens_escape (Text.utf8 s) [] [] (utf8_octets s H) eq_refl) as Ht.
  rewrite !app_nil_r in Ht. rewrite Ht. apply decode_tokens_utf8. exact H.
Qed.

(** C4, as the code has it: for every text without unpaired surrogate,
    [sendText] hands one text message to the transport, and the session
    that receives this message fires [text-received] with the same text. *)
Theorem text_round_trip (m : Text.jsstring) (a b : Peer.t) :
  Text.well_formed m = true ->
  exists t : Text.jsstring,
    Peer.sendText m a = (Peer.sendJSON (Peer.Text t) a, Peer.Normal)
    /\ Peer._onMessage (Peer.FJSON (Peer.Text t)) b
       = (Peer.fire (Peer.TextReceived m (Peer._peerId b)) b, Peer.Normal).
Proof.
  intros Hwf.
  destruct (unescape_encodeURIComponent m Hwf) as (e & He & Hu).
  destruct (atob_btoa (Text.utf8 m) (utf8_octets m Hwf)) as [Hbtoa Hatob].
  exists (Text.b64encode (Text.utf8 m)). split.
  - unfold Peer.sendText. rewrite He, Hu, Hbtoa. reflexivity.
  - cbn [Peer._onMessage]. unfold Peer._onTextReceived.
    rewrite Hatob, (decodeURIComponent_escape m Hwf). reflexivity.
Qed.

Lemma text_round_trip_hello_world :
  Text.well_formed hello_world = true
  /\ exists t : Text.jsstring,
       Peer.sendText hello_world (Peer.new (JS.Val "B"))
       = (Peer.sendJSON (Peer.Text t) (Peer.new (JS.Val "B")), Peer.Normal)
       /\ Peer._onMessage (Peer.FJSON (Peer.Text t)) (Peer.new (JS.Val "A"))
          = (Peer.fire (Peer.TextReceived hello_world (JS.Val "A")) (Peer.new (JS.Val "A")),
             Peer.Normal).
Proof.
  split; [reflexivity|].
  exact (text_round_trip hello_world (Peer.new (JS.Val "B")) (Peer.new (JS.Val "A")) eq_refl).
Defined.

(** What goes over the channel for that text: ["aMOpbGxvIPCfjI0="]. *)
Example hello_world_on_the_wire :
  Peer.sent (fst (Peer.sendText hello_world (Peer.new (JS.Val "B"))))
  = [Peer.FJSON
       (Peer.Text [97; 77; 79; 112; 98; 71; 120; 118; 73; 80; 67; 102; 106; 73; 48; 61])].
Proof. vm_compute. reflexivity. Qed.

(** C4 as stated fails on a text with an unpaired surrogate:
    [encodeURIComponent] throws a [URIError] and nothing is sent. *)
Lemma sendText_unpaired_surrogate :
  Text.well_formed [55296] = false
  /\ Peer.sendText [55296] (Peer.new (JS.Val "B"))
     = (Peer.new (JS.Val "B"), Peer.Throw Peer.URIError).
Proof. split; reflexivity. Qed.

(** * Further properties

    What the rest of the script shows, beyond the statements above. *)

(** ** The digester, whatever the chunks *)

Lemma chunk_length_cases (c : chunk) :
  FileDigester.chunk_length c = JS.NaN
  \/ (FileDigester.chunk_length c = JS.of_Z (byte_count c) /\ 0 <= byte_count c).
Proof.
  destruct c as [[|b bs]|bs]; [left; reflexivity|right..];
    (split; [reflexivity|unfold byte_count; lia]).
Qed.

Lemma unchunk_buffer (d : FileDigester.t) (c : chunk) :
  FileDigester._buffer (fst (FileDigester.unchunk d c)) = FileDigester._buffer d ++ [c].
Proof.
  unfold FileDigester.unchunk.
  destruct (JS.ltb _ _); [reflexivity|]. destruct (FileDigester._callback d); reflexivity.
Qed.

Lemma unchunks_buffer (cs : list chunk) :
  forall d, FileDigester._buffer (fst (FileDigester.unchunks d cs)) = FileDigester._buffer d ++ cs.
Proof.
  induction cs as [|c cs IH]; intros d; simpl; [symmetry; apply app_nil_r|].
  pose proof (unchunk_buffer d c) as Hb.
  destruct (FileDigester.unchunk d c) as [d1 o]. specialize (IH d1).
  destruct (FileDigester.unchunks d1 cs) as [d2 os]. simpl in *.
  rewrite IH, Hb, <- app_assoc. reflexivity.
Qed.

(** Once the callback is cleared and the count is [NaN] or has reached the
    size, every call throws, whatever the chunk. *)
Lemma unchunks_when_spent (cs : list chunk) :
  forall d : FileDigester.t,
    FileDigester._callback d = false ->
    spent d ->
    snd (FileDigester.unchunks d cs) = repeat FileDigester.TypeError (length cs).
Proof.
  induction cs as [|c cs IH]; intros d Hcb Hsp; [reflexivity|].
  assert (Hstep : snd (FileDigester.unchunk d c) = FileDigester.TypeError
                  /\ FileDigester._callback (fst (FileDigester.unchunk d c)) = false
                  /\ spent (fst (FileDigester.unchunk d c))).
  { unfold FileDigester.unchunk, spent in *.
    destruct Hsp as [Hnan|(q & r & Hb & Hq & Hr)].
    - rewrite Hnan, Hcb. cbn. auto.
    - rewrite Hb, Hcb. destruct (chunk_length_cases c) as [Hc|[Hc Hpos]]; rewrite Hc.
      + cbn. auto.
      + destruct (add_Fin_of_Z q r (byte_count c) Hq) as (q' & Hadd & Hq').
        rewrite Hadd, (ltb_Fin_of_Z q' _ _ Hq').
        destruct (Z.ltb_spec (r + byte_count c) (FileDigester._size d)); [lia|].
        cbn. split; [reflexivity|]. split; [reflexivity|].
        right. exists q', (r + byte_count c). split; [reflexivity|]. split; [assumption|lia]. }
  destruct Hstep as (Ho & Hcb' & Hsp'). simpl.
  destruct (FileDigester.unchunk d c) as [d1 o]. simpl in *. subst o.
  specialize (IH d1 Hcb' Hsp'). destruct (FileDigester.unchunks d1 cs) as [d2 os].
  simpl in *. f_equal. exact IH.
Qed.

Lemma unchunks_any_chunks (cs : list chunk) :
  forall (d : FileDigester.t) (q : Q) (r : Z),
    FileDigester._callback d = true ->
    FileDigester._bytesReceived d = JS.Fin q -> (q == inject_Z r)%Q ->
    snd (FileDigester.unchunks d cs) = repeat FileDigester.Returned (length cs)
    \/ exists k : nat,
         (k < length cs)%nat
         /\ snd (FileDigester.unchunks d cs)
            = repeat FileDigester.Returned k
                ++ FileDigester.Invoked
                     (artifact_of d (FileDigester._buffer d ++ firstn (S k) cs))
                :: repeat FileDigester.TypeError (length cs - S k).
Proof.
  induction cs as [|c cs IH]; intros d q r Hcb Hb Hq; [left; reflexivity|].
  simpl. unfold FileDigester.unchunk. rewrite Hb, Hcb.
  destruct (chunk_length_cases c) as [Hc|[Hc Hpos]]; rewrite Hc.
  - (* the count becomes NaN: the callback is invoked at once *)
    right. exists 0%nat. split; [simpl; lia|]. cbn [JS.add JS.ltb JS.of_Z].
    match goal with |- context [FileDigester.unchunks ?d1 cs] =>
      pose proof (unchunks_when_spent cs d1 eq_refl ltac:(left; reflexivity)) as Hafter;
      destruct (FileDigester.unchunks d1 cs) as [d2 os] end.
    simpl in *. rewrite Hafter, Nat.sub_0_r. reflexivity.
  - destruct (add_Fin_of_Z q r (byte_count c) Hq) as (q' & Hadd & Hq').
    rewrite Hadd, (ltb_Fin_of_Z q' _ _ Hq').
    destruct (Z.ltb_spec (r + byte_count c) (FileDigester._size d)) as [Hlt|Hge].
    + match goal with |- context [FileDigester.unchunks ?d1 cs] =>
        specialize (IH d1 q' (r + byte_count c) eq_refl eq_refl Hq');
        destruct (FileDigester.unchunks d1 cs) as [d2 os] end.
      simpl in *. destruct IH as [IH|(k & Hk & IH)].
      * left. rewrite IH. reflexivity.
      * right. exists (S k). split; [lia|]. rewrite IH. unfold artifact_of. simpl.
        rewrite <- app_assoc. reflexivity.
    + right. exists 0%nat. split; [simpl; lia|].
      match goal with |- context [FileDigester.unchunks ?d1 cs] =>
        pose proof (unchunks_when_spent cs d1 eq_refl
                      ltac:(right; exists q', (r + byte_count c);
                            split; [reflexivity|split; [assumption|simpl; lia]])) as Hafter;
        destruct (FileDigester.unchunks d1 cs) as [d2 os] end.
      simpl in *. rewrite Hafter, Nat.sub_0_r. reflexivity.
Qed.

(** X1: whatever the header and whatever the chunks (empty ones and
    overrun included), the calls of [unchunk] return until one invokes the
    callback, with the chunks buffered so far, and every call after that
    one throws a [TypeError]: the callback is never invoked twice.  The
    buffer keeps every chunk given, in order, and is never released. *)
Theorem unchunk_never_completes_twice (m : FileDigester.meta) (cs : list chunk) :
  (snd (FileDigester.unchunks (FileDigester.new m) cs)
   = repeat FileDigester.Returned (length cs)
   \/ exists k : nat,
        (k < length cs)%nat
        /\ snd (FileDigester.unchunks (FileDigester.new m) cs)
           = repeat FileDigester.Returned k
               ++ FileDigester.Invoked
                    {| FileDigester.a_name := FileDigester.meta_name m;
                       FileDigester.a_mime := kept_mime m;
                       FileDigester.a_size := FileDigester.meta_size m;
                       FileDigester.a_url :=
                         {| FileDigester.blob_parts := firstn (S k) cs;
                            FileDigester.blob_type := kept_mime m |} |}
               :: repeat FileDigester.TypeError (length cs - S k))
  /\ FileDigester._buffer (fst (FileDigester.unchunks (FileDigester.new m) cs)) = cs.
Proof.
  split; [|apply (unchunks_buffer cs (FileDigester.new m))].
  exact (unchunks_any_chunks cs (FileDigester.new m) (inject_Z 0) 0
           eq_refl eq_refl ltac:(reflexivity)).
Qed.

(** ** What a session answers *)

Ltac log_grows :=
  first [ symmetry; apply app_nil_r
        | cbn; rewrite <- ?app_assoc; reflexivity ].

Ltac logs_by_computation :=
  eexists _, _; split; [split; log_grows|]; split; reflexivity.

Lemma logs_sink (out : list FileChunker.effect) :
  forall p, exists fs,
    logs fs [] p (fold_left Peer.sink out p)
    /\ completions fs = [] /\ acknowledgements fs = [].
Proof.
  induction out as [|e out IH]; intros p; simpl.
  - exists []. split; [split; symmetry; apply app_nil_r|]. split; reflexivity.
  - destruct (IH (Peer.sink p e)) as (fs & [Hs Hf] & Hc & Ha).
    destruct e as [bytes|n].
    + exists (Peer.FBinary (ArrayBuffer bytes) :: fs). split; [split|].
      * rewrite Hs. cbn. rewrite <- app_assoc. reflexivity.
      * rewrite Hf. reflexivity.
      * split; [exact Hc|exact Ha].
    + exists (Peer.FJSON (Peer.Partition n) :: fs). split; [split|].
      * rewrite Hs. cbn. rewrite <- app_assoc. reflexivity.
      * rewrite Hf. reflexivity.
      * split; [exact Hc|exact Ha].
Qed.

(** One step: as many transfer-complete messages leave as [file-received]
    events are fired, and a [partition] message received, and nothing
    else, is acknowledged. *)
Lemma step_answers (o : Peer.op) (p : Peer.t) :
  exists fs es,
    logs fs es p (Peer.step o p)
    /\ length (completions fs) = length (files_received es)
    /\ acknowledgements fs = partitions_received [o].
Proof.
  destruct o as [files|text|[m|c]|]; cbn [Peer.step].
  - unfold Peer.sendFiles. cbn [Peer._busy Peer.set_filesQueue].
    destruct (Peer._busy p); [logs_by_computation|].
    unfold Peer._dequeueFile. cbn [Peer._filesQueue Peer.set_filesQueue].
    destruct (Peer._filesQueue p ++ files); logs_by_computation.
  - unfold Peer.sendText. destruct (Text.encodeURIComponent text);
      [destruct (Text.btoa _)|]; logs_by_computation.
  - destruct m; cbn [Peer._onMessage fst]; try logs_by_computation.
    + unfold Peer._sendNextPartition. destruct (Peer._chunker p) as [c|];
        [destruct (FileChunker.isFileEnd c)|]; logs_by_computation.
    + unfold Peer._onTransferCompleted, Peer._dequeueFile.
      cbn [Peer._filesQueue Peer.set_busy Peer._onDownloadProgress Peer.fire].
      destruct (Peer._filesQueue p); logs_by_computation.
    + unfold Peer._onTextReceived. destruct (Text.atob text);
        [destruct (Text.decodeURIComponent _)|]; logs_by_computation.
  - cbn [Peer._onMessage]. unfold Peer._onChunkReceived.
    destruct (Peer._digester p) as [d|]; [|logs_by_computation].
    destruct (FileDigester.unchunk d c) as [d1 [ | a | ]];
      try destruct (JS.ltb _ _); logs_by_computation.
  - unfold Peer.readerLoad. destruct (Peer._chunker p) as [c|]; [|logs_by_computation].
    destruct (FileChunker.load c) as [c1 out].
    destruct (logs_sink out (Peer.set_chunker (Some c1) p)) as (fs & [Hs Hf] & Hc & Ha).
    exists fs, []. split; [split; assumption|]. rewrite Hc, Ha. split; reflexivity.
Qed.

Lemma completions_app (fs gs : list Peer.frame) :
  completions (fs ++ gs) = completions fs ++ completions gs.
Proof. unfold completions. apply List.filter_app. Qed.

Lemma files_received_app (es fs : list Peer.event) :
  files_received (es ++ fs) = files_received es ++ files_received fs.
Proof. unfold files_received. apply flat_map_app. Qed.

Lemma acknowledgements_app (fs gs : list Peer.frame) :
  acknowledgements (fs ++ gs) = acknowledgements fs ++ acknowledgements gs.
Proof. unfold acknowledgements. apply flat_map_app. Qed.

Lemma run_answers (os : list Peer.op) :
  forall p, exists fs es,
    logs fs es p (Peer.run os p)
    /\ length (completions fs) = length (files_received es)
    /\ acknowledgements fs = partitions_received os.
Proof.
  induction os as [|o os IH]; intros p.
  - exists [], []. split; [split; symmetry; apply app_nil_r|]. split; reflexivity.
  - destruct (step_answers o p) as (f1 & e1 & [Hs1 Hf1] & Hc1 & Ha1).
    destruct (IH (Peer.step o p)) as (f2 & e2 & [Hs2 Hf2] & Hc2 & Ha2).
    exists (f1 ++ f2), (e1 ++ e2).
    change (Peer.run (o :: os) p) with (Peer.run os (Peer.step o p)).
    split; [split|split].
    + rewrite Hs2, Hs1, app_assoc. reflexivity.
    + rewrite Hf2, Hf1, app_assoc. reflexivity.
    + rewrite completions_app, files_received_app, !length_app, Hc1, Hc2. reflexivity.
    + rewrite acknowledgements_app, Ha1, Ha2.
      unfold partitions_received in *. simpl in *. rewrite app_nil_r. reflexivity.
Qed.

(** X2: over every sequence of events of a session, the session has sent
    exactly as many transfer-complete messages as it has fired
    [file-received] events. *)
Theorem one_completion_per_file (id : JS.value string) (os : list Peer.op) :
  length (completions (Peer.sent (Peer.run os (Peer.new id))))
  = length (files_received (Peer.fired (Peer.run os (Peer.new id)))).
Proof.
  destruct (run_answers os (Peer.new id)) as (fs & es & [Hs Hf] & Hc & _).
  rewrite Hs, Hf. exact Hc.
Qed.

(** X3: over every sequence of events of a session, the
    [partition_received] messages sent answer the [partition] messages
    received, one for one and in order, and each carries as [offset] the
    whole message it answers, not the number in it. *)
Theorem partitions_acknowledged (id : JS.value string) (os : list Peer.op) :
  acknowledgements (Peer.sent (Peer.run os (Peer.new id))) = partitions_received os.
Proof.
  destruct (run_answers os (Peer.new id)) as (fs & es & [Hs Hf] & _ & Ha).
  rewrite Hs. exact Ha.
Qed.

(** ** A small file from one session to another *)

(** As [unchunks_until_completion], asking a readable length only of the
    chunks up to the one that completes the transfer. *)
Lemma unchunks_until_completion_any_tail (cs : list chunk) :
  forall (d : FileDigester.t) (q : Q) (r : Z),
    FileDigester._callback d = true ->
    FileDigester._bytesReceived d = JS.Fin q -> (q == inject_Z r)%Q ->
    forallb sized (chunks_until r (FileDigester._size d) cs) = true ->
    snd (FileDigester.unchunks d cs)
    = match completing_call r (FileDigester._size d) cs with
      | None => repeat FileDigester.Returned (length cs)
      | Some k =>
          repeat FileDigester.Returned k
            ++ FileDigester.Invoked (artifact_of d (FileDigester._buffer d ++ firstn (S k) cs))
            :: repeat FileDigester.TypeError (length cs - S k)
      end.
Proof.
  induction cs as [|c cs IH]; intros d q r Hcb Hb Hq Hs; [reflexivity|].
  rewrite chunks_until_cons in Hs. cbn [forallb] in Hs.
  apply andb_prop in Hs as [Hc Hs].
  destruct (add_Fin_of_Z q r (byte_count c) Hq) as (q' & Hadd & Hq').
  simpl. unfold FileDigester.unchunk.
  rewrite Hb, (chunk_length_sized c Hc), Hadd, (ltb_Fin_of_Z q' _ _ Hq'), Hcb.
  destruct (Z.ltb_spec (r + byte_count c) (FileDigester._size d)) as [Hlt|Hge];
    destruct (Z.leb_spec (FileDigester._size d) (r + byte_count c)) as [Hle|Hgt]; try lia.
  - match goal with |- context [FileDigester.unchunks ?d1 cs] =>
      specialize (IH d1 q' (r + byte_count c) eq_refl eq_refl Hq' Hs);
      destruct (FileDigester.unchunks d1 cs) as [d2 os] end.
    simpl in *. rewrite IH.
    destruct (completing_call (r + byte_count c) (FileDigester._size d) cs) as [k|]; simpl.
    + unfold artifact_of; simpl. rewrite <- app_assoc. reflexivity.
    + reflexivity.
  - match goal with |- context [FileDigester.unchunks ?d1 cs] =>
      pose proof (unchunks_when_spent cs d1 eq_refl
                    ltac:(right; exists q', (r + byte_count c);
                          split; [reflexivity|split; [assumption|simpl; lia]])) as Hafter;
      destruct (FileDigester.unchunks d1 cs) as [d2 os] end.
    simpl in *. rewrite Hafter, Nat.sub_0_r. reflexivity.
Qed.

(** The chunks a session receives go to its digester, and each artifact
    the digester hands over is fired as [file-received]. *)
Lemma chunks_to_digester (cs : list chunk) :
  forall (p : Peer.t) (d : FileDigester.t),
    Peer._digester p = Some d ->
    files_received (Peer.fired (Peer.run (chunk_ops cs) p))
    = files_received (Peer.fired p) ++ invoked (snd (FileDigester.unchunks d cs)).
Proof.
  induction cs as [|c cs IH]; intros p d Hd.
  { simpl. rewrite app_nil_r. reflexivity. }
  unfold chunk_ops, Peer.run. simpl. unfold Peer._onChunkReceived. rewrite Hd.
  destruct (FileDigester.unchunk d c) as [d1 o] eqn:Hu.
  destruct (FileDigester.unchunks d1 cs) as [d2 os] eqn:Hus.
  assert (Hos : os = snd (FileDigester.unchunks d1 cs)) by (rewrite Hus; reflexivity).
  destruct o as [ | a | ]; try destruct (JS.ltb _ _); cbn [fst snd invoked flat_map];
    match goal with |- context [fold_left _ _ ?p1] =>
      change (fold_left _ _ p1) with (Peer.run (chunk_ops cs) p1);
      rewrite (IH p1 d1 eq_refl), <- Hos
    end;
    cbn; rewrite ?files_received_app, <- ?app_assoc; cbn; rewrite ?app_nil_r; reflexivity.
Qed.

(** What the sender of a small file hands to its channel: the header,
    then one binary frame per read. *)
Lemma sender_loads (file : File) (n : nat) :
  size file < 1000000 ->
  forall (p : Peer.t) (c : FileChunker.t),
    Peer._chunker p = Some c -> chunker_inv file c -> FileChunker.reading c <> None ->
    Peer.sent (Peer.run (repeat Peer.ReaderLoad n) p)
    = Peer.sent p
      ++ map (fun b => Peer.FBinary (ArrayBuffer b))
           (FileChunker.chunks (snd (FileChunker.loads n c))).
Proof.
  intros Hsmall. induction n as [|n IH]; intros p c Hc Hinv Hread.
  { simpl. rewrite app_nil_r. reflexivity. }
  destruct (small_file_load file c Hsmall Hinv Hread) as (chunk & Hload & Hchunk).
  pose proof (chunker_inv_load file c Hinv) as Hinv'.
  cbn [repeat FileChunker.loads]. unfold Peer.run. cbn [fold_left Peer.step].
  unfold Peer.readerLoad. rewrite Hc. rewrite Hload in *. cbn [fst] in Hinv'.
  cbn [fold_left Peer.sink].
  match goal with |- context [fold_left _ (repeat _ n) ?p1] =>
    change (fold_left _ (repeat Peer.ReaderLoad n) p1)
      with (Peer.run (repeat Peer.ReaderLoad n) p1);
    rewrite (IH p1 _ eq_refl Hinv' ltac:(discriminate))
  end.
  destruct (FileChunker.loads n _) as [c2 out2].
  cbn. rewrite <- app_assoc. reflexivity.
Qed.

Lemma sender_frames (file : File) (id : JS.value string) (n : nat) :
  size file < 1000000 ->
  Peer.sent (Peer.run (Peer.SendFiles [file] :: repeat Peer.ReaderLoad n) (Peer.new id))
  = Peer.FJSON (Peer.header_of file)
    :: map (fun b => Peer.FBinary (ArrayBuffer b))
         (FileChunker.chunks
            (snd (FileChunker.loads n (FileChunker.nextPartition (FileChunker.new file))))).
Proof.
  intros Hsmall.
  change (Peer.run (Peer.SendFiles [file] :: repeat Peer.ReaderLoad n) (Peer.new id))
    with (Peer.run (repeat Peer.ReaderLoad n) (Peer.sendFiles [file] (Peer.new id))).
  rewrite (sender_loads file n Hsmall _ (FileChunker.nextPartition (FileChunker.new file)));
    [reflexivity|reflexivity|apply chunker_inv_nextPartition, chunker_inv_new|discriminate].
Qed.

(** The chunks of a small file, as received: the transfer is complete at
    one of them, the chunks up to it are not empty, and put end to end
    they are the file from the offset on. *)
Lemma stream_completes (file : File) (blob : bool) (n : nat) :
  size file < 1000000 ->
  forall c : FileChunker.t,
    chunker_inv file c -> FileChunker.reading c <> None ->
    FileChunker._offset c < size file ->
    size file <= FileChunker._offset c + 64000 * Z.of_nat n ->
    exists k : nat,
      completing_call (FileChunker._offset c) (size file)
        (map (as_chunk blob) (FileChunker.chunks (snd (FileChunker.loads n c))))
      = Some k
      /\ forallb sized
           (firstn (S k) (map (as_chunk blob) (FileChunker.chunks (snd (FileChunker.loads n c)))))
         = true
      /\ concat (map chunk_bytes
                   (firstn (S k)
                      (map (as_chunk blob) (FileChunker.chunks (snd (FileChunker.loads n c))))))
         = skipn (Z.to_nat (FileChunker._offset c)) (content file).
Proof.
  intros Hsmall. remember (Z.to_nat 64000) as w eqn:Hw.
  induction n as [|n IH]; intros c Hinv Hread Hlt Hn; [lia|].
  destruct (small_file_load file c Hsmall Hinv Hread) as (chunk & Hload & Hchunk).
  pose proof (chunker_inv_load file c Hinv) as Hinv'.
  destruct Hinv as (Hf & Hc & Hm & Hp & Ho & Hr).
  pose proof (Hr chunk Hchunk) as Hslice.
  assert (Hlen : Z.of_nat (length chunk)
                 = Z.min 64000 (size file - FileChunker._offset c)).
  { rewrite Hslice. unfold size in *. apply slice_length; lia. }
  unfold size in Ho. rewrite slice_inside in Hslice by lia. rewrite <- Hw in Hslice.
  cbn [FileChunker.loads]. rewrite Hload in *. cbn [fst] in Hinv'.
  match goal with |- context [FileChunker.loads n ?c1] =>
    specialize (IH c1 Hinv' ltac:(discriminate));
    destruct (FileChunker.loads n c1) as [c2 out2] end.
  cbn [snd fst FileChunker._offset FileChunker._readChunk] in IH |- *.
  cbn [app FileChunker.chunks flat_map map completing_call].
  change (flat_map _ out2) with (FileChunker.chunks out2).
  assert (Hbc : byte_count (as_chunk blob chunk) = Z.of_nat (length chunk))
    by (destruct blob; reflexivity).
  assert (Hsz : sized (as_chunk blob chunk) = true).
  { destruct blob; [reflexivity|]. destruct chunk; [simpl in Hlen; lia|reflexivity]. }
  assert (Hcb : chunk_bytes (as_chunk blob chunk) = chunk) by (destruct blob; reflexivity).
  rewrite Hbc.
  destruct (Z.leb_spec (size file) (FileChunker._offset c + Z.of_nat (length chunk))) as [Hle|Hgt].
  - exists 0%nat. split; [reflexivity|]. cbn [firstn forallb map concat].
    rewrite Hsz, Hcb, app_nil_r. split; [reflexivity|].
    rewrite Hslice. apply firstn_all2. rewrite length_skipn. unfold size in *. lia.
  - destruct (IH ltac:(lia) ltac:(lia)) as (k & Hk & Hs & Hcat).
    exists (S k). rewrite Hk. split; [reflexivity|].
    change (firstn (S (S k)) (?x :: ?l)) with (x :: firstn (S k) l).
    cbn [forallb map concat]. rewrite Hsz, Hs, Hcb, Hcat. split; [reflexivity|].
    replace (Z.to_nat (FileChunker._offset c + Z.of_nat (length chunk)))
      with (w + Z.to_nat (FileChunker._offset c))%nat by lia.
    rewrite Hslice, <- skipn_skipn. apply firstn_skipn.
Qed.

Lemma invoked_once (k n : nat) (a : FileDigester.artifact) :
  invoked (repeat FileDigester.Returned k
             ++ FileDigester.Invoked a :: repeat FileDigester.TypeError n) = [a].
Proof.
  unfold invoked. rewrite flat_map_app. cbn [flat_map].
  replace (flat_map _ (repeat FileDigester.Returned k)) with (@nil FileDigester.artifact)
    by (induction k; [reflexivity|assumption]).
  replace (flat_map _ (repeat FileDigester.TypeError n)) with (@nil FileDigester.artifact)
    by (induction n; [reflexivity|assumption]).
  reflexivity.
Qed.

(** X4: a non-empty file smaller than a partition, sent by one session and
    received by another over a channel of either binary type: once the
    sender's reads cover the file (and however many empty chunks it sends
    after that), the receiver has fired exactly one [file-received]; its
    artifact has the file's name and size, the file's type (the default
    type if the file has none), and the bytes of the file. *)
Theorem small_file_arrives
    (file : File) (sender receiver : JS.value string) (blob : bool) (n : nat) :
  0 < size file < 1000000 -> size file <= 64000 * Z.of_nat n ->
  exists a : FileDigester.artifact,
    files_received
      (Peer.fired
         (Peer.run
            (deliver blob
               (Peer.sent
                  (Peer.run (Peer.SendFiles [file] :: repeat Peer.ReaderLoad n)
                     (Peer.new sender))))
            (Peer.new receiver)))
    = [a]
    /\ FileDigester.a_name a = name file
    /\ FileDigester.a_size a = size file
    /\ FileDigester.a_mime a
       = FileDigester.or_string (JS.Val (type file)) "application/octet-stream"
    /\ FileDigester.blob_type (FileDigester.a_url a) = FileDigester.a_mime a
    /\ blob_bytes (FileDigester.a_url a) = content file.
Proof.
  intros [Hpos Hsmall] Hn.
  rewrite (sender_frames file sender n Hsmall).
  set (c0 := FileChunker.nextPartition (FileChunker.new file)).
  set (cs := map (as_chunk blob) (FileChunker.chunks (snd (FileChunker.loads n c0)))).
  assert (Hdeliver :
            deliver blob
              (Peer.FJSON (Peer.header_of file)
               :: map (fun b => Peer.FBinary (ArrayBuffer b))
                    (FileChunker.chunks (snd (FileChunker.loads n c0))))
            = Peer.OnMessage (Peer.FJSON (Peer.header_of file)) :: chunk_ops cs).
  { unfold deliver, chunk_ops, cs. cbn [map as_received]. rewrite !map_map. reflexivity. }
  rewrite Hdeliver.
  change (Peer.run (Peer.OnMessage (Peer.FJSON (Peer.header_of file)) :: chunk_ops cs)
            (Peer.new receiver))
    with (Peer.run (chunk_ops cs)
            (Peer._onFileHeader (name file) (type file) (size file) (Peer.new receiver))).
  rewrite (chunks_to_digester cs
             (Peer._onFileHeader (name file) (type file) (size file) (Peer.new receiver))
             (FileDigester.new
                {| FileDigester.meta_name := name file;
                   FileDigester.meta_mime := JS.Val (type file);
                   FileDigester.meta_size := size file |})
             eq_refl).
  destruct (stream_completes file blob n Hsmall c0
              ltac:(apply chunker_inv_nextPartition, chunker_inv_new)
              ltac:(discriminate) Hpos Hn) as (k & Hk & Hs & Hcat).
  fold cs in Hk, Hs, Hcat.
  change (FileChunker._offset c0) with 0 in Hk, Hcat.
  rewrite (unchunks_until_completion_any_tail cs
             (FileDigester.new
                {| FileDigester.meta_name := name file;
                   FileDigester.meta_mime := JS.Val (type file);
                   FileDigester.meta_size := size file |})
             (inject_Z 0) 0 eq_refl eq_refl ltac:(reflexivity));
    [|unfold chunks_until; cbn [FileDigester._size FileDigester.new FileDigester.meta_size];
      rewrite Hk; exact Hs].
  cbn [FileDigester._size FileDigester.new FileDigester.meta_size]. rewrite Hk.
  rewrite invoked_once. eexists. split; [reflexivity|].
  repeat split. unfold blob_bytes. cbn. exact Hcat.
Qed.

Lemma small_file_arrives_hello :
  0 < size hello < 1000000
  /\ size hello <= 64000 * Z.of_nat 3
  /\ exists a : FileDigester.artifact,
       files_received
         (Peer.fired
            (Peer.run
               (deliver true
                  (Peer.sent
                     (Peer.run (Peer.SendFiles [hello] :: repeat Peer.ReaderLoad 3)
                        (Peer.new (JS.Val "B")))))
               (Peer.new (JS.Val "A"))))
       = [a]
       /\ FileDigester.a_name a = name hello
       /\ FileDigester.a_size a = size hello
       /\ FileDigester.a_mime a
          = FileDigester.or_string (JS.Val (type hello)) "application/octet-stream"
       /\ FileDigester.blob_type (FileDigester.a_url a) = FileDigester.a_mime a
       /\ blob_bytes (FileDigester.a_url a) = content hello.
Proof.
  split; [split; reflexivity|]. split; [discriminate|].
  apply (small_file_arrives hello (JS.Val "B") (JS.Val "A") true 3);
    [split; reflexivity|discriminate].
Defined.

(** ** The chunker, whatever the file *)

Lemma firstn_length_firstn {A : Type} (w : nat) (l : list A) :
  firstn (length (firstn w l)) l = firstn w l.
Proof.
  rewrite length_firstn. destruct (Nat.le_ge_cases w (length l)) as [H|H].
  - rewrite Nat.min_l by exact H. reflexivity.
  - rewrite Nat.min_r by exact H. rewrite !firstn_all2 by lia. reflexivity.
Qed.

(** One [load]: nothing when no read is under way; otherwise the chunk
    read is the next bytes of the file, 64000 at most, and the offset
    moves past it. *)
Lemma load_cases (file : File) (c : FileChunker.t) :
  chunker_inv file c ->
  (FileChunker.reading c = None /\ FileChunker.load c = (c, []))
  \/ exists chunk,
       FileChunker.reading c = Some chunk
       /\ chunk = firstn (Z.to_nat 64000)
                    (skipn (Z.to_nat (FileChunker._offset c)) (content file))
       /\ Z.of_nat (length chunk) = Z.min 64000 (size file - FileChunker._offset c)
       /\ FileChunker.chunks (snd (FileChunker.load c)) = [chunk]
       /\ FileChunker._offset (fst (FileChunker.load c))
          = FileChunker._offset c + Z.of_nat (length chunk)
       /\ FileChunker._partitionSize (fst (FileChunker.load c))
          = FileChunker._partitionSize c + Z.of_nat (length chunk)
       /\ (if 1000000 <=? FileChunker._partitionSize c + Z.of_nat (length chunk)
           then snd (FileChunker.load c)
                = [FileChunker.OnChunk chunk;
                   FileChunker.OnPartitionEnd
                     (FileChunker._partitionSize c + Z.of_nat (length chunk))]
                /\ FileChunker.reading (fst (FileChunker.load c)) = None
           else snd (FileChunker.load c) = [FileChunker.OnChunk chunk]
                /\ FileChunker.reading (fst (FileChunker.load c)) <> None).
Proof.
  intros (Hf & Hc & Hm & Hp & Ho & Hr). unfold FileChunker.load.
  destruct (FileChunker.reading c) as [chunk|] eqn:E; [right|left; split; reflexivity].
  exists chunk. pose proof (Hr chunk eq_refl) as Hslice.
  assert (Hlen : Z.of_nat (length chunk)
                 = Z.min 64000 (size file - FileChunker._offset c)).
  { rewrite Hslice. unfold size in *. apply slice_length; lia. }
  unfold size in Ho. rewrite slice_inside in Hslice by lia.
  split; [reflexivity|]. split; [exact Hslice|]. split; [exact Hlen|].
  unfold FileChunker._onChunkRead, FileChunker._isPartitionEnd, FileChunker.isFileEnd.
  cbn [FileChunker._partitionSize FileChunker._maxPartitionSize FileChunker._offset
       FileChunker._file].
  rewrite Hm, Hf.
  destruct (Z.gtb_spec (FileChunker._offset c + Z.of_nat (length chunk)) (size file));
    [unfold size in *; lia|].
  rewrite orb_false_r, Z.geb_leb.
  destruct (1000000 <=? FileChunker._partitionSize c + Z.of_nat (length chunk));
    cbn; repeat split; discriminate.
Qed.

Lemma partition_inv_new (file : File) : partition_inv file (FileChunker.new file).
Proof. split; [intros H; exfalso; apply H; reflexivity|left; reflexivity]. Qed.

Lemma partition_inv_nextPartition (file : File) (c : FileChunker.t) :
  partition_inv file (FileChunker.nextPartition c).
Proof. split; [intros _; reflexivity|left; reflexivity]. Qed.

Lemma partition_inv_load (file : File) (c : FileChunker.t) :
  chunker_inv file c -> partition_inv file c ->
  partition_inv file (fst (FileChunker.load c))
  /\ forall n, In n (partition_ends (snd (FileChunker.load c))) -> 1000000 <= n <= 1024000.
Proof.
  intros Hinv [Hr Hw].
  destruct (load_cases file c Hinv) as [[Hnone Hload]|(chunk & Hread & _ & Hlen & _ & Ho & Hp & Hend)].
  - rewrite Hload. split; [split; assumption|]. intros n [].
  - specialize (Hr ltac:(congruence)).
    destruct Hinv as (_ & _ & _ & Hps & Hoff & _). unfold partition_inv.
    rewrite Ho, Hp.
    destruct (Z.leb_spec 1000000 (FileChunker._partitionSize c + Z.of_nat (length chunk)))
      as [Hge|Hlt]; destruct Hend as [Hout Hreading]; rewrite Hout.
    + split; [split|].
      * intros H. congruence.
      * destruct Hw as [Hw|Hw]; [|lia].
        destruct (Z.eq_dec (Z.of_nat (length chunk)) 64000) as [E|E]; [|right; lia].
        left. rewrite E. Z.div_mod_to_equations. lia.
      * intros n [<-|[]]. cbn. destruct Hw as [Hw|Hw]; [|lia].
        Z.div_mod_to_equations. lia.
    + split; [split|].
      * intros _. lia.
      * destruct Hw as [Hw|Hw]; [|lia].
        destruct (Z.eq_dec (Z.of_nat (length chunk)) 64000) as [E|E]; [|right; lia].
        left. rewrite E. Z.div_mod_to_equations. lia.
      * intros n [].
Qed.

Lemma reachable_partition_inv (file : File) (c : FileChunker.t) :
  FileChunker.reachable file c -> partition_inv file c.
Proof.
  induction 1 as [|c Hc IH|c Hc IH].
  - apply partition_inv_new.
  - apply partition_inv_nextPartition.
  - apply partition_inv_load; [apply reachable_inv; assumption|assumption].
Qed.

Lemma chunks_app (o1 o2 : list FileChunker.effect) :
  FileChunker.chunks (o1 ++ o2) = FileChunker.chunks o1 ++ FileChunker.chunks o2.
Proof. unfold FileChunker.chunks. apply flat_map_app. Qed.

Lemma loads_in_order (file : File) (n : nat) :
  forall c, chunker_inv file c ->
    FileChunker._offset c <= FileChunker._offset (fst (FileChunker.loads n c)) <= size file
    /\ concat (FileChunker.chunks (snd (FileChunker.loads n c)))
       = firstn (Z.to_nat (FileChunker._offset (fst (FileChunker.loads n c))
                           - FileChunker._offset c))
           (skipn (Z.to_nat (FileChunker._offset c)) (content file))
    /\ Forall (fun b => Z.of_nat (length b) <= 64000)
         (FileChunker.chunks (snd (FileChunker.loads n c))).
Proof.
  induction n as [|n IH]; intros c Hinv.
  - cbn [FileChunker.loads fst snd]. rewrite Z.sub_diag.
    destruct Hinv as (_ & _ & _ & Hp & Ho & _). split; [lia|]. split; [reflexivity|constructor].
  - pose proof (chunker_inv_load file c Hinv) as Hinv'.
    specialize (IH _ Hinv').
    pose proof (load_cases file c Hinv) as Hcases.
    cbn [FileChunker.loads].
    destruct (FileChunker.load c) as [c1 out1]. cbn [fst snd] in *.
    destruct (FileChunker.loads n c1) as [c2 out2].
    cbn [fst snd] in *. rewrite chunks_app, concat_app.
    destruct IH as (Hoff & Hcat & Hall). rewrite Hcat.
    destruct Hcases as [[_ Hload]|(chunk & _ & Hslice & Hlen & Hch & Ho & _)].
    + injection Hload as -> ->. cbn [FileChunker.chunks flat_map app].
      split; [assumption|]. split; [reflexivity|assumption].
    + rewrite Hch. destruct Hinv as (_ & _ & _ & Hp & Hos & _).
      split; [lia|]. split.
      * cbn [concat]. rewrite app_nil_r, Ho.
        replace (Z.to_nat (FileChunker._offset c2 - FileChunker._offset c))
          with (length chunk
                + Z.to_nat (FileChunker._offset c2
                            - (FileChunker._offset c + Z.of_nat (length chunk))))%nat by lia.
        rewrite firstn_plus.
        replace (Z.to_nat (FileChunker._offset c + Z.of_nat (length chunk)))
          with (length chunk + Z.to_nat (FileChunker._offset c))%nat by lia.
        rewrite <- skipn_skipn. f_equal.
        rewrite Hslice at 2. rewrite Hslice at 1. symmetry. apply firstn_length_firstn.
      * constructor; [lia|assumption].
Qed.

(** X5: whatever the file and the state its chunker is in, over any number
    of reads the chunks handed to [onChunk], put end to end, are the bytes
    of the file from the offset before to the offset after: nothing is
    skipped or sent twice; no chunk is longer than 64000 bytes and the
    offset never passes the end of the file. *)
Theorem chunks_in_order (file : File) (c : FileChunker.t) (n : nat) :
  FileChunker.reachable file c ->
  FileChunker._offset c <= FileChunker._offset (fst (FileChunker.loads n c)) <= size file
  /\ concat (FileChunker.chunks (snd (FileChunker.loads n c)))
     = firstn (Z.to_nat (FileChunker._offset (fst (FileChunker.loads n c))
                         - FileChunker._offset c))
         (skipn (Z.to_nat (FileChunker._offset c)) (content file))
  /\ Forall (fun b => Z.of_nat (length b) <= 64000)
       (FileChunker.chunks (snd (FileChunker.loads n c))).
Proof. intros H. apply loads_in_order, reachable_inv, H. Qed.

Lemma chunks_in_order_hello :
  FileChunker.reachable hello (FileChunker.nextPartition (FileChunker.new hello))
  /\ (FileChunker._offset (FileChunker.nextPartition (FileChunker.new hello))
      <= FileChunker._offset
           (fst (FileChunker.loads 2 (FileChunker.nextPartition (FileChunker.new hello))))
      <= size hello
      /\ concat (FileChunker.chunks
                   (snd (FileChunker.loads 2 (FileChunker.nextPartition (FileChunker.new hello)))))
         = firstn (Z.to_nat
                     (FileChunker._offset
                        (fst (FileChunker.loads 2
                                (FileChunker.nextPartition (FileChunker.new hello))))
                      - FileChunker._offset (FileChunker.nextPartition (FileChunker.new hello))))
             (skipn (Z.to_nat (FileChunker._offset
                                 (FileChunker.nextPartition (FileChunker.new hello))))
                (content hello))
      /\ Forall (fun b => Z.of_nat (length b) <= 64000)
           (FileChunker.chunks
              (snd (FileChunker.loads 2 (FileChunker.nextPartition (FileChunker.new hello)))))).
Proof.
  split; [apply FileChunker.reach_nextPartition, FileChunker.reach_new|].
  apply (chunks_in_order hello _ 2).
  apply FileChunker.reach_nextPartition, FileChunker.reach_new.
Defined.

(** ** Partitions *)

(** X6: in every state a chunker reaches, whatever the file, each byte
    count handed to [onPartitionEnd] lies between the partition limit,
    1000000, and 1024000, the sixteen chunks it takes to reach the limit:
    a partition never ends early, not even at the end of the file. *)
Theorem partition_ends_bounded (file : File) (c : FileChunker.t) (n : nat) (p : Z) :
  FileChunker.reachable file c ->
  In p (partition_ends (snd (FileChunker.loads n c))) ->
  1000000 <= p <= 1024000.
Proof.
  intros Hreach. pose proof (reachable_inv file c Hreach) as Hinv.
  pose proof (reachable_partition_inv file c Hreach) as Hpart. clear Hreach.
  revert c Hinv Hpart. induction n as [|n IH]; intros c Hinv Hpart; [intros []|].
  cbn [FileChunker.loads].
  pose proof (chunker_inv_load file c Hinv) as Hinv'.
  destruct (partition_inv_load file c Hinv Hpart) as [Hpart' Hends].
  specialize (IH (fst (FileChunker.load c)) Hinv' Hpart').
  destruct (FileChunker.load c) as [c1 out1]. cbn [fst snd] in *.
  destruct (FileChunker.loads n c1) as [c2 out2]. cbn [fst snd] in *.
  unfold partition_ends in *. rewrite flat_map_app, in_app_iff.
  intros [H|H]; [apply Hends, H|apply IH, H].
Qed.

(** Sixteen full chunks from the start of a partition end it. *)
Lemma full_partition (file : File) (k : nat) :
  forall c, chunker_inv file c -> FileChunker.reading c <> None ->
    (1 <= k <= 16)%nat ->
    FileChunker._partitionSize c = 1024000 - 64000 * Z.of_nat k ->
    FileChunker._offset c + 64000 * Z.of_nat k <= size file ->
    snd (FileChunker.loads k c)
    = map FileChunker.OnChunk (FileChunker.chunks (snd (FileChunker.loads k c)))
      ++ [FileChunker.OnPartitionEnd 1024000]
    /\ length (FileChunker.chunks (snd (FileChunker.loads k c))) = k
    /\ FileChunker.reading (fst (FileChunker.loads k c)) = None
    /\ FileChunker._offset (fst (FileChunker.loads k c))
       = FileChunker._offset c + 64000 * Z.of_nat k.
Proof.
  induction k as [|k IH]; intros c Hinv Hread Hk Hps Hoff; [lia|].
  pose proof (chunker_inv_load file c Hinv) as Hinv'.
  destruct (load_cases file c Hinv)
    as [[Hnone _]|(chunk & _ & _ & Hlen & Hch & Ho & Hp & Hend)]; [contradiction|].
  assert (Hfull : Z.of_nat (length chunk) = 64000) by lia.
  rewrite Hfull in *. cbn [FileChunker.loads].
  destruct (Z.leb_spec 1000000 (FileChunker._partitionSize c + 64000)) as [Hge|Hlt];
    destruct Hend as [Hout Hreading].
  - assert (k = 0)%nat as -> by lia.
    destruct (FileChunker.load c) as [c1 out1]. cbn [fst snd FileChunker.loads] in *.
    subst out1. cbn. repeat split; try assumption.
    f_equal. f_equal. f_equal. lia.
  - specialize (IH (fst (FileChunker.load c)) Hinv' Hreading ltac:(lia) ltac:(lia) ltac:(lia)).
    destruct (FileChunker.load c) as [c1 out1]. cbn [fst snd] in *.
    destruct (FileChunker.loads k c1) as [c2 out2]. cbn [fst snd] in *.
    destruct IH as (Hout2 & Hlen2 & Hread2 & Hoff2). subst out1.
    cbn [app FileChunker.chunks flat_map map]. fold (FileChunker.chunks out2).
    repeat split.
    + cbn. f_equal. exact Hout2.
    + cbn. f_equal. exact Hlen2.
    + exact Hread2.
    + lia.
Qed.

Lemma size_sixteen_chunks_file : size sixteen_chunks_file = 1024000.
Proof.
  unfold size, sixteen_chunks_file. cbn [content]. rewrite repeat_length. lia.
Qed.

Lemma partition_ends_app (o1 o2 : list FileChunker.effect) :
  partition_ends (o1 ++ o2) = partition_ends o1 ++ partition_ends o2.
Proof. apply flat_map_app. Qed.

Lemma partition_ends_chunks (cs : list (list byte)) :
  partition_ends (map FileChunker.OnChunk cs) = [].
Proof. induction cs as [|b cs IH]; [reflexivity|exact IH]. Qed.

Lemma partition_ends_bounded_sixteen_chunks :
  FileChunker.reachable sixteen_chunks_file
    (FileChunker.nextPartition (FileChunker.new sixteen_chunks_file))
  /\ In 1024000
       (partition_ends
          (snd (FileChunker.loads 16
                  (FileChunker.nextPartition (FileChunker.new sixteen_chunks_file)))))
  /\ 1000000 <= 1024000 <= 1024000.
Proof.
  assert (Hreach : FileChunker.reachable sixteen_chunks_file
                     (FileChunker.nextPartition (FileChunker.new sixteen_chunks_file)))
    by apply FileChunker.reach_nextPartition, FileChunker.reach_new.
  assert (Hin : In 1024000
                  (partition_ends
                     (snd (FileChunker.loads 16
                             (FileChunker.nextPartition
                                (FileChunker.new sixteen_chunks_file)))))).
  { destruct (full_partition sixteen_chunks_file 16
                (FileChunker.nextPartition (FileChunker.new sixteen_chunks_file)))
      as (Hout & _).
    - apply reachable_inv, Hreach.
    - discriminate.
    - lia.
    - reflexivity.
    - rewrite size_sixteen_chunks_file. cbn [FileChunker.nextPartition FileChunker._offset
        FileChunker._readChunk FileChunker.new]. lia.
    - rewrite Hout, partition_ends_app, partition_ends_chunks. left. reflexivity. }
  split; [exact Hreach|]. split; [exact Hin|].
  exact (partition_ends_bounded sixteen_chunks_file _ 16 1024000 Hreach Hin).
Defined.

(** ** The sender of a file of any size *)

Lemma sink_frames (out : list FileChunker.effect) :
  forall p,
    Peer.sent (fold_left Peer.sink out p) = Peer.sent p ++ map frame_of out
    /\ Peer._chunker (fold_left Peer.sink out p) = Peer._chunker p.
Proof.
  induction out as [|e out IH]; intros p; cbn [fold_left map].
  - split; [symmetry; apply app_nil_r|reflexivity].
  - destruct (IH (Peer.sink p e)) as [Hs Hc]. rewrite Hs, Hc.
    destruct e; cbn; rewrite <- app_assoc; split; reflexivity.
Qed.

(** A load event at the session is a load event at its chunker, with what
    the chunker hands over sent as frames. *)
Lemma readerLoad_frames (p : Peer.t) (c : FileChunker.t) :
  Peer._chunker p = Some c ->
  Peer.sent (Peer.readerLoad p) = Peer.sent p ++ map frame_of (snd (FileChunker.load c))
  /\ Peer._chunker (Peer.readerLoad p) = Some (fst (FileChunker.load c)).
Proof.
  intros Hc. unfold Peer.readerLoad. rewrite Hc.
  destruct (FileChunker.load c) as [c1 out]. cbn [fst snd].
  destruct (sink_frames out (Peer.set_chunker (Some c1) p)) as [Hs Hk].
  rewrite Hs, Hk. split; reflexivity.
Qed.

Lemma readerLoads_frames (n : nat) :
  forall (p : Peer.t) (c : FileChunker.t),
    Peer._chunker p = Some c ->
    Peer.sent (Peer.run (repeat Peer.ReaderLoad n) p)
    = Peer.sent p ++ map frame_of (snd (FileChunker.loads n c))
    /\ Peer._chunker (Peer.run (repeat Peer.ReaderLoad n) p)
       = Some (fst (FileChunker.loads n c)).
Proof.
  induction n as [|n IH]; intros p c Hc.
  - cbn. rewrite app_nil_r. split; [reflexivity|exact Hc].
  - destruct (readerLoad_frames p c Hc) as [Hs Hk].
    cbn [repeat FileChunker.loads]. unfold Peer.run. cbn [fold_left Peer.step].
    change (fold_left (fun q o => Peer.step o q) (repeat Peer.ReaderLoad n) (Peer.readerLoad p))
      with (Peer.run (repeat Peer.ReaderLoad n) (Peer.readerLoad p)).
    destruct (IH _ _ Hk) as [Hs' Hk']. rewrite Hs', Hk', Hs.
    destruct (FileChunker.load c) as [c1 out1]. cbn [fst snd].
    destruct (FileChunker.loads n c1) as [c2 out2]. cbn [fst snd].
    rewrite map_app, app_assoc. split; reflexivity.
Qed.

Lemma loads_app (n m : nat) (c : FileChunker.t) :
  FileChunker.loads (n + m) c
  = (fst (FileChunker.loads m (fst (FileChunker.loads n c))),
     snd (FileChunker.loads n c) ++ snd (FileChunker.loads m (fst (FileChunker.loads n c)))).
Proof.
  revert c. induction n as [|n IH]; intros c.
  - cbn. destruct (FileChunker.loads m c); reflexivity.
  - cbn [Nat.add FileChunker.loads]. destruct (FileChunker.load c) as [c1 out1].
    rewrite IH. destruct (FileChunker.loads n c1) as [c2 out2]. cbn [fst snd].
    rewrite app_assoc. reflexivity.
Qed.

Lemma loads_idle (m : nat) (c : FileChunker.t) :
  FileChunker.reading c = None -> FileChunker.loads m c = (c, []).
Proof.
  intros H. induction m as [|m IH]; [reflexivity|].
  cbn [FileChunker.loads]. unfold FileChunker.load. rewrite H, IH. reflexivity.
Qed.

Lemma map_frame_of_chunks (cs : list (list byte)) :
  map frame_of (map FileChunker.OnChunk cs)
  = map (fun b => Peer.FBinary (ArrayBuffer b)) cs.
Proof. rewrite map_map. reflexivity. Qed.

(** X7: a file of at least one full partition.  After [sendFiles] the
    session sends the header, then with the reader's load events sixteen
    binary frames that hold the first 1024000 bytes of the file in order,
    then one [partition] message with the byte count 1024000; and then it
    stops: however many more load events there are, nothing else is sent
    until the receiver acknowledges. *)
Theorem sender_stops_after_a_partition
    (file : File) (id : JS.value string) (m : nat) :
  1024000 <= size file ->
  exists cs : list (list byte),
    Peer.sent (Peer.run (Peer.SendFiles [file] :: repeat Peer.ReaderLoad (16 + m))
                 (Peer.new id))
    = Peer.FJSON (Peer.header_of file)
      :: map (fun b => Peer.FBinary (ArrayBuffer b)) cs
      ++ [Peer.FJSON (Peer.Partition 1024000)]
    /\ length cs = 16%nat
    /\ concat cs = firstn (Z.to_nat 1024000) (content file)
    /\ waiting (Peer.run (Peer.SendFiles [file] :: repeat Peer.ReaderLoad (16 + m))
                  (Peer.new id)) = true.
Proof.
  intros Hsize.
  set (c0 := FileChunker.nextPartition (FileChunker.new file)).
  assert (Hinv : chunker_inv file c0) by apply chunker_inv_nextPartition, chunker_inv_new.
  destruct (full_partition file 16 c0 Hinv ltac:(discriminate) ltac:(lia)
              eq_refl ltac:(cbn; lia)) as (Hout & Hlen & Hread & Hoff).
  destruct (loads_in_order file 16 c0 Hinv) as (_ & Hcat & _).
  rewrite Hoff in Hcat.
  change (Peer.run (Peer.SendFiles [file] :: repeat Peer.ReaderLoad (16 + m)) (Peer.new id))
    with (Peer.run (repeat Peer.ReaderLoad (16 + m)) (Peer.sendFiles [file] (Peer.new id))).
  destruct (readerLoads_frames (16 + m) (Peer.sendFiles [file] (Peer.new id)) c0 eq_refl)
    as [Hs Hk].
  unfold waiting. rewrite Hs, Hk, loads_app, (loads_idle m _ Hread). cbn [fst snd].
  rewrite Hread, app_nil_r, Hout, map_app, map_frame_of_chunks.
  exists (FileChunker.chunks (snd (FileChunker.loads 16 c0))).
  split; [reflexivity|]. split; [exact Hlen|]. split; [|reflexivity].
  rewrite Hcat. cbn [c0 FileChunker.nextPartition FileChunker._offset FileChunker._readChunk
                     FileChunker.new].
  replace (0 + 64000 * Z.of_nat 16 - 0) with 1024000 by lia.
  reflexivity.
Qed.

Lemma sender_stops_after_a_partition_sixteen_chunks :
  1024000 <= size sixteen_chunks_file
  /\ exists cs : list (list byte),
       Peer.sent (Peer.run (Peer.SendFiles [sixteen_chunks_file]
                              :: repeat Peer.ReaderLoad (16 + 3))
                    (Peer.new (JS.Val "B")))
       = Peer.FJSON (Peer.header_of sixteen_chunks_file)
         :: map (fun b => Peer.FBinary (ArrayBuffer b)) cs
         ++ [Peer.FJSON (Peer.Partition 1024000)]
       /\ length cs = 16%nat
       /\ concat cs = firstn (Z.to_nat 1024000) (content sixteen_chunks_file)
       /\ waiting (Peer.run (Peer.SendFiles [sixteen_chunks_file]
                               :: repeat Peer.ReaderLoad (16 + 3))
                     (Peer.new (JS.Val "B"))) = true.
Proof.
  assert (H : 1024000 <= size sixteen_chunks_file)
    by (rewrite size_sixteen_chunks_file; lia).
  split; [exact H|].
  exact (sender_stops_after_a_partition sixteen_chunks_file (JS.Val "B") 3 H).
Defined.

(** ** The sender in the course of a transfer *)

Lemma binaries_app (fs gs : list Peer.frame) :
  binaries (fs ++ gs) = binaries fs ++ binaries gs.
Proof. apply flat_map_app. Qed.

Lemma partitions_sent_app (fs gs : list Peer.frame) :
  partitions_sent (fs ++ gs) = partitions_sent fs ++ partitions_sent gs.
Proof. apply flat_map_app. Qed.

Lemma acknowledged_cons (o : Peer.op) (os : list Peer.op) :
  acknowledged (o :: os) = acknowledged [o] + acknowledged os.
Proof. destruct o as [| |[[]|]|]; cbn [acknowledged]; lia. Qed.

Lemma sender_inv_start (file : File) (id : JS.value string) :
  sender_inv file 0 (Peer.sendFiles [file] (Peer.new id)).
Proof.
  exists (FileChunker.nextPartition (FileChunker.new file)).
  split; [reflexivity|].
  split; [apply chunker_inv_nextPartition, chunker_inv_new|].
  split; [apply partition_inv_nextPartition|].
  repeat split; try reflexivity; try (cbn; lia). constructor.
Qed.

Lemma next_bytes {A : Type} (off w : nat) (l chunk : list A) :
  chunk = firstn w (skipn off l) ->
  firstn off l ++ chunk = firstn (off + length chunk) l.
Proof.
  intros H. rewrite firstn_plus. f_equal. rewrite H at 2. rewrite H at 1.
  symmetry. apply firstn_length_firstn.
Qed.

Lemma sender_inv_readerLoad (file : File) (k : Z) (p : Peer.t) :
  sender_inv file k p -> sender_inv file k (Peer.readerLoad p).
Proof.
  intros (c & Hc & Hinv & Hpart & Hbytes & Hlag & Hps & Hcount & Hbounds & Hhead).
  destruct (readerLoad_frames p c Hc) as [Hs Hk].
  pose proof (chunker_inv_load file c Hinv) as Hinv'.
  destruct (partition_inv_load file c Hinv Hpart) as [Hpart' Hends].
  exists (fst (FileChunker.load c)). unfold waiting in *. rewrite Hk, Hs. rewrite Hc in Hcount.
  split; [reflexivity|]. split; [exact Hinv'|]. split; [exact Hpart'|].
  destruct (load_cases file c Hinv)
    as [[Hnone Hload]|(chunk & Hread & Hslice & Hlen & _ & Ho & Hp & Hend)].
  - rewrite Hload. cbn [fst snd map]. rewrite app_nil_r, Hnone. rewrite Hnone in Hcount.
    repeat split; assumption.
  - rewrite Hread in Hcount. rewrite Ho, Hp.
    destruct Hinv as (_ & _ & _ & Hp0 & Hoff & _).
    assert (Hcat : concat (binaries (Peer.sent p)) ++ chunk
                   = firstn (Z.to_nat (FileChunker._offset c + Z.of_nat (length chunk)))
                       (content file)).
    { rewrite Hbytes.
      replace (Z.to_nat (FileChunker._offset c + Z.of_nat (length chunk)))
        with (Z.to_nat (FileChunker._offset c) + length chunk)%nat by lia.
      apply (next_bytes _ (Z.to_nat 64000)). exact Hslice. }
    destruct (Z.leb_spec 1000000 (FileChunker._partitionSize c + Z.of_nat (length chunk)))
      as [Hge|Hlt]; destruct Hend as [Hout Hreading]; rewrite Hout in *.
    + rewrite Hreading. cbn [map frame_of].
      rewrite binaries_app, partitions_sent_app, headers_app, concat_app, length_app, Hhead.
      cbn [binaries partitions_sent flat_map chunk_bytes app concat length Peer.headers
           List.filter Peer.is_header].
      rewrite app_nil_r.
      assert (Hb : 1000000 <= FileChunker._partitionSize c + Z.of_nat (length chunk)
                   <= 1024000) by (apply Hends; left; reflexivity).
      repeat split; try assumption; try lia.
      apply Forall_app; split; [assumption|]. constructor; [exact Hb|constructor].
    + destruct (FileChunker.reading (fst (FileChunker.load c))) as [next|]; [|contradiction].
      cbn [map frame_of].
      rewrite binaries_app, partitions_sent_app, headers_app, concat_app, Hhead.
      cbn [binaries partitions_sent flat_map chunk_bytes app concat length Peer.headers
           List.filter Peer.is_header].
      rewrite !app_nil_r.
      repeat split; try assumption; try lia.
Qed.

Lemma sender_inv_acknowledgement (file : File) (k : Z) (p : Peer.t) :
  sender_inv file k p -> waiting p = true ->
  sender_inv file (k + 1) (Peer._sendNextPartition p).
Proof.
  intros (c & Hc & Hinv & Hpart & Hbytes & Hlag & Hps & Hcount & Hbounds & Hhead) Hwait.
  rewrite Hwait in Hcount. unfold Peer._sendNextPartition. rewrite Hc.
  pose proof Hinv as (_ & _ & _ & Hp0 & Hoff & _).
  unfold FileChunker.isFileEnd. destruct Hinv as (Hf & Hinv). rewrite Hf.
  destruct (Z.gtb_spec (FileChunker._offset c) (size file)) as [H|_]; [lia|].
  exists (FileChunker.nextPartition c).
  split; [reflexivity|].
  split; [apply chunker_inv_nextPartition; split; assumption|].
  split; [apply partition_inv_nextPartition|].
  cbn [Peer.set_chunker Peer.sent FileChunker.nextPartition FileChunker._readChunk
       FileChunker._offset FileChunker._partitionSize waiting Peer._chunker
       FileChunker.reading].
  repeat split; try assumption; lia.
Qed.

Lemma sender_inv_step (file : File) (k : Z) (p : Peer.t) (o : Peer.op) :
  sender_inv file k p -> in_course_step p o = true ->
  sender_inv file (k + acknowledged [o]) (Peer.step o p).
Proof.
  intros Hinv Ho. destruct o as [files|text|[m|b]|]; try discriminate.
  - destruct m; try discriminate.
    + cbn [acknowledged Peer.step Peer._onMessage fst]. rewrite Z.add_0_r.
      apply sender_inv_acknowledgement; assumption.
    + cbn [acknowledged Peer.step Peer._onMessage fst]. rewrite Z.add_0_r. exact Hinv.
  - cbn [acknowledged Peer.step]. rewrite Z.add_0_r. apply sender_inv_readerLoad, Hinv.
Qed.

Lemma sender_inv_run (file : File) (os : list Peer.op) :
  forall (k : Z) (p : Peer.t),
    sender_inv file k p -> in_course os p = true ->
    sender_inv file (k + acknowledged os) (Peer.run os p).
Proof.
  induction os as [|o os IH]; intros k p Hinv Hos.
  - cbn. rewrite Z.add_0_r. exact Hinv.
  - cbn [in_course] in Hos. apply andb_prop in Hos as [Ho Hos].
    rewrite acknowledged_cons, Z.add_assoc.
    apply (IH _ (Peer.step o p)); [apply sender_inv_step; assumption|exact Hos].
Qed.

(** X8: the sender of one file of any size, under every course of reader
    load events, progress messages and acknowledgements (each of these
    arriving when the sender waits for it).  The binary frames sent, put
    end to end, are the first bytes of the file, as many as the sender has
    read; that is never more than one partition of 1024000 bytes beyond
    what the receiver has acknowledged.  One [partition] message is sent
    per acknowledgement, plus the one the sender waits on, each with a
    byte count between 1000000 and 1024000; the header is sent once. *)
Theorem sender_keeps_to_the_file
    (file : File) (id : JS.value string) (os : list Peer.op) :
  in_course os (Peer.sendFiles [file] (Peer.new id)) = true ->
  concat (binaries (Peer.sent (Peer.run (Peer.SendFiles [file] :: os) (Peer.new id))))
  = firstn (Z.to_nat (sender_offset (Peer.run (Peer.SendFiles [file] :: os) (Peer.new id))))
      (content file)
  /\ 0 <= sender_offset (Peer.run (Peer.SendFiles [file] :: os) (Peer.new id))
     <= Z.min (size file) (1024000 * (acknowledged os + 1))
  /\ Z.of_nat (length (partitions_sent
                         (Peer.sent (Peer.run (Peer.SendFiles [file] :: os) (Peer.new id)))))
     = acknowledged os
       + (if waiting (Peer.run (Peer.SendFiles [file] :: os) (Peer.new id)) then 1 else 0)
  /\ Forall (fun n => 1000000 <= n <= 1024000)
       (partitions_sent (Peer.sent (Peer.run (Peer.SendFiles [file] :: os) (Peer.new id))))
  /\ Peer.headers (Peer.sent (Peer.run (Peer.SendFiles [file] :: os) (Peer.new id)))
     = [Peer.header_of file].
Proof.
  intros Hos.
  change (Peer.run (Peer.SendFiles [file] :: os) (Peer.new id))
    with (Peer.run os (Peer.sendFiles [file] (Peer.new id))).
  destruct (sender_inv_run file os 0 _ (sender_inv_start file id) Hos)
    as (c & Hc & Hinv & _ & Hbytes & Hlag & Hps & Hcount & Hbounds & Hhead).
  destruct Hinv as (_ & _ & _ & Hp0 & Hoff & _).
  unfold sender_offset. rewrite Hc.
  split; [exact Hbytes|]. split; [lia|]. split; [exact Hcount|].
  split; [exact Hbounds|exact Hhead].
Qed.

Lemma in_course_loads (n : nat) (rest : list Peer.op) :
  forall p, in_course (repeat Peer.ReaderLoad n ++ rest) p
            = in_course rest (Peer.run (repeat Peer.ReaderLoad n) p).
Proof.
  induction n as [|n IH]; intros p; [reflexivity|].
  cbn [repeat app in_course in_course_step andb]. apply IH.
Qed.

Lemma waiting_after_a_partition (file : File) (id : JS.value string) :
  1024000 <= size file ->
  waiting (Peer.run (repeat Peer.ReaderLoad 16) (Peer.sendFiles [file] (Peer.new id))) = true.
Proof.
  intros Hsize.
  set (c0 := FileChunker.nextPartition (FileChunker.new file)).
  assert (Hinv : chunker_inv file c0) by apply chunker_inv_nextPartition, chunker_inv_new.
  destruct (full_partition file 16 c0 Hinv ltac:(discriminate) ltac:(lia)
              eq_refl ltac:(cbn; lia)) as (_ & _ & Hread & _).
  destruct (readerLoads_frames 16 (Peer.sendFiles [file] (Peer.new id)) c0 eq_refl)
    as [_ Hk].
  unfold waiting. rewrite Hk, Hread. reflexivity.
Qed.

Lemma sender_keeps_to_the_file_sixteen_chunks :
  in_course one_acknowledgement
    (Peer.sendFiles [sixteen_chunks_file] (Peer.new (JS.Val "B"))) = true
  /\ 0 <= sender_offset
            (Peer.run (Peer.SendFiles [sixteen_chunks_file] :: one_acknowledgement)
               (Peer.new (JS.Val "B")))
     <= Z.min (size sixteen_chunks_file) (1024000 * (acknowledged one_acknowledgement + 1)).
Proof.
  assert (H : in_course one_acknowledgement
                (Peer.sendFiles [sixteen_chunks_file] (Peer.new (JS.Val "B"))) = true).
  { unfold one_acknowledgement. rewrite in_course_loads.
    cbn [in_course in_course_step].
    rewrite waiting_after_a_partition by (rewrite size_sixteen_chunks_file; lia).
    reflexivity. }
  split; [exact H|].
  exact (proj1 (proj2 (sender_keeps_to_the_file sixteen_chunks_file (JS.Val "B")
                         one_acknowledgement H))).
Defined.

(** ** Text, whatever the string *)

Lemma high_surrogate_not_low (c : Z) :
  Text.is_high_surrogate c = true -> Text.is_low_surrogate c = false.
Proof.
  unfold Text.is_high_surrogate, Text.is_low_surrogate, Text.in_range.
  rewrite andb_true_iff, andb_false_iff, !Z.leb_le, !Z.leb_gt. lia.
Qed.

Lemma surrogate_not_uriUnescaped (c : Z) :
  Text.is_high_surrogate c = true \/ Text.is_low_surrogate c = true ->
  Text.uriUnescaped c = false.
Proof.
  intros H. destruct (Text.uriUnescaped c) eqn:E; [|reflexivity].
  apply uriUnescaped_ascii in E.
  unfold Text.is_high_surrogate, Text.is_low_surrogate, Text.in_range in H.
  rewrite !andb_true_iff, !Z.leb_le in H. lia.
Qed.

(** [encodeURIComponent] throws on every string with an unpaired
    surrogate. *)
Lemma encodeURIComponent_unpaired (n : nat) :
  forall s : Text.jsstring,
    (length s <= n)%nat -> Forall (fun c => 0 <= c < 65536) s ->
    Text.well_formed s = false -> Text.encodeURIComponent s = None.
Proof.
  induction n as [|n IH]; intros s Hlen Hunits Hwf.
  { destruct s; [discriminate|simpl in Hlen; lia]. }
  destruct s as [|c rest]; [discriminate|].
  cbn [Text.well_formed] in Hwf. cbn [Text.encodeURIComponent]. simpl in Hlen.
  inversion Hunits as [|? ? Hc Hrest]; subst.
  destruct (Text.is_high_surrogate c) eqn:Hh.
  - rewrite (surrogate_not_uriUnescaped c (or_introl Hh)), (high_surrogate_not_low c Hh).
    cbn [negb]. destruct rest as [|d rest']; [reflexivity|].
    destruct (Text.is_low_surrogate d); [|reflexivity].
    cbn [andb] in Hwf. inversion Hrest; subst.
    rewrite (IH rest'); [reflexivity|simpl in Hlen; lia|assumption|exact Hwf].
  - destruct (Text.is_low_surrogate c) eqn:Hl.
    + rewrite (surrogate_not_uriUnescaped c (or_intror Hl)). reflexivity.
    + assert (Hin : Text.in_range 0 65535 c = true).
      { unfold Text.in_range. rewrite andb_true_iff, !Z.leb_le. lia. }
      rewrite Hin in Hwf. cbn [andb] in Hwf.
      rewrite (IH rest); [|lia|assumption|exact Hwf].
      cbn [negb]. destruct (Text.uriUnescaped c); reflexivity.
Qed.

(** X9: [sendText] on any string of UTF-16 code units.  If the string has
    no unpaired surrogate, one [text] message is sent whose text is the
    base64 form of the UTF-8 octets of the string; otherwise the call
    throws a [URIError] and nothing is sent.  It never ends in the
    [InvalidCharacterError] of [btoa]. *)
Theorem sendText_on_the_wire (m : Text.jsstring) (p : Peer.t) :
  Forall (fun c => 0 <= c < 65536) m ->
  Peer.sendText m p
  = if Text.well_formed m
    then (Peer.sendJSON (Peer.Text (Text.b64encode (Text.utf8 m))) p, Peer.Normal)
    else (p, Peer.Throw Peer.URIError).
Proof.
  intros Hunits. unfold Peer.sendText. destruct (Text.well_formed m) eqn:Hwf.
  - destruct (unescape_encodeURIComponent m Hwf) as (e & He & Hu).
    destruct (atob_btoa (Text.utf8 m) (utf8_octets m Hwf)) as [Hbtoa _].
    rewrite He, Hu, Hbtoa. reflexivity.
  - rewrite (encodeURIComponent_unpaired (length m) m (Nat.le_refl _) Hunits Hwf).
    reflexivity.
Qed.

Lemma sendText_on_the_wire_hello_world :
  Forall (fun c => 0 <= c < 65536) hello_world
  /\ Peer.sendText hello_world (Peer.new (JS.Val "B"))
     = if Text.well_formed hello_world
       then (Peer.sendJSON (Peer.Text (Text.b64encode (Text.utf8 hello_world)))
               (Peer.new (JS.Val "B")), Peer.Normal)
       else (Peer.new (JS.Val "B"), Peer.Throw Peer.URIError).
Proof.
  assert (H : Forall (fun c => 0 <= c < 65536) hello_world)
    by (unfold hello_world; repeat constructor; lia).
  split; [exact H|].
  exact (sendText_on_the_wire hello_world (Peer.new (JS.Val "B")) H).
Defined.

(** ** Text, as received *)

Lemma b64value_range (c x : Z) : Text.b64value c = Some x -> 0 <= x < 64.
Proof.
  unfold Text.b64value, Text.in_range.
  destruct (Z.leb_spec 65 c), (Z.leb_spec c 90), (Z.leb_spec 97 c), (Z.leb_spec c 122),
    (Z.leb_spec 48 c), (Z.leb_spec c 57), (Z.eqb_spec c 43), (Z.eqb_spec c 47);
    cbn [andb]; intros E; inversion E; lia.
Qed.

(** Whatever [atob] returns is a string of octets. *)
Lemma b64decode_octets (n : nat) :
  forall (s : Text.jsstring) (a : list Z),
    (length s <= n)%nat -> Text.b64decode s = Some a -> Forall is_octet a.
Proof.
  induction n as [|n IH]; intros s a Hlen H.
  { destruct s; [inversion H; constructor|simpl in Hlen; lia]. }
  destruct s as [|c1 [|c2 [|c3 [|c4 rest]]]]; cbn [Text.b64decode] in H.
  - inversion H. constructor.
  - discriminate.
  - destruct (Text.b64value c1) as [x|] eqn:E1; [|discriminate].
    destruct (Text.b64value c2) as [y|] eqn:E2; [|discriminate].
    apply b64value_range in E1, E2. inversion H; subst.
    repeat constructor; unfold is_octet; Z.div_mod_to_equations; lia.
  - destruct (Text.b64value c1) as [x|] eqn:E1; [|discriminate].
    destruct (Text.b64value c2) as [y|] eqn:E2; [|discriminate].
    destruct (Text.b64value c3) as [z|] eqn:E3; [|discriminate].
    apply b64value_range in E1, E2, E3. inversion H; subst.
    repeat constructor; unfold is_octet; Z.div_mod_to_equations; lia.
  - destruct (Text.b64value c1) as [x|] eqn:E1; [|discriminate].
    destruct (Text.b64value c2) as [y|] eqn:E2; [|discriminate].
    destruct (Text.b64value c3) as [z|] eqn:E3; [|discriminate].
    destruct (Text.b64value c4) as [w|] eqn:E4; [|discriminate].
    apply b64value_range in E1, E2, E3, E4.
    apply fmap_Some in H as (tl & Htl & ->).
    apply IH in Htl; [|simpl in Hlen; lia].
    repeat constructor; try assumption; unfold is_octet; Z.div_mod_to_equations; lia.
Qed.

Lemma atob_octets (t : Text.jsstring) (a : list Z) :
  Text.atob t = Some a -> Forall is_octet a.
Proof. unfold Text.atob. intros H. eapply b64decode_octets; [reflexivity|exact H]. Qed.

Lemma well_formed_cons (v : Z) (s : Text.jsstring) :
  0 <= v < 65536 -> v < 55296 \/ 57343 < v ->
  Text.well_formed (v :: s) = Text.well_formed s.
Proof.
  intros Hv Hs. cbn [Text.well_formed].
  unfold Text.is_high_surrogate, Text.is_low_surrogate, Text.in_range.
  destruct (Z.leb_spec 55296 v), (Z.leb_spec v 56319), (Z.leb_spec 56320 v),
    (Z.leb_spec v 57343), (Z.leb_spec 0 v), (Z.leb_spec v 65535);
    cbn [andb]; try reflexivity; lia.
Qed.

Lemma not_high_surrogate (v : Z) :
  v < 55296 \/ 57343 < v -> Text.is_high_surrogate v = false.
Proof.
  intros H. unfold Text.is_high_surrogate, Text.in_range.
  apply andb_false_iff. rewrite !Z.leb_gt. lia.
Qed.

(** A code point above the basic plane is a pair of surrogates. *)
Lemma utf16_encode_astral (v : Z) :
  65536 <= v < 1114112 ->
  exists hi lo,
    Text.utf16_encode v = [hi; lo]
    /\ Text.is_high_surrogate hi = true /\ Text.is_low_surrogate lo = true
    /\ Text.pair_code_point hi lo = v.
Proof.
  intros Hv. unfold Text.utf16_encode. destruct (Z.ltb_spec v 65536); [lia|].
  eexists _, _. split; [reflexivity|].
  split; [apply surrogates_of_in_range; Z.div_mod_to_equations; lia|].
  split; [apply surrogates_of_in_range; Z.div_mod_to_equations; lia|].
  unfold Text.pair_code_point. Z.div_mod_to_equations. lia.
Qed.

Lemma continuation_range (b : Z) : Text.is_continuation b = true -> 128 <= b <= 191.
Proof.
  unfold Text.is_continuation, Text.in_range. rewrite andb_true_iff, !Z.leb_le. tauto.
Qed.

Lemma utf8_encode_decode2 (b1 b2 v : Z) :
  192 <= b1 < 224 -> Text.utf8_decode2 b1 b2 = Some v ->
  128 <= v < 2048 /\ Text.utf8_encode v = [b1; b2].
Proof.
  intros Hb. unfold Text.utf8_decode2.
  destruct (Text.is_continuation b2) eqn:E2; [|discriminate]. cbn [andb].
  destruct (Z.leb_spec 128 ((b1 - 192) * 64 + (b2 - 128))); [|discriminate].
  intros Heq. injection Heq as Hv. apply continuation_range in E2.
  split; [lia|]. unfold Text.utf8_encode.
  destruct (Z.ltb_spec v 128); [lia|]. destruct (Z.ltb_spec v 2048); [|lia].
  assert (F1 : 192 + v / 64 = b1) by (Z.div_mod_to_equations; lia).
  assert (F2 : 128 + v mod 64 = b2) by (Z.div_mod_to_equations; lia).
  rewrite F1, F2. reflexivity.
Qed.

Lemma utf8_encode_decode3 (b1 b2 b3 v : Z) :
  224 <= b1 < 240 -> Text.utf8_decode3 b1 b2 b3 = Some v ->
  2048 <= v < 65536 /\ (v < 55296 \/ 57343 < v) /\ Text.utf8_encode v = [b1; b2; b3].
Proof.
  intros Hb. unfold Text.utf8_decode3.
  destruct (Text.is_continuation b2) eqn:E2; [|discriminate].
  destruct (Text.is_continuation b3) eqn:E3; [|discriminate]. cbn [andb].
  destruct (Z.leb_spec 2048 ((b1 - 224) * 4096 + (b2 - 128) * 64 + (b3 - 128)));
    [|discriminate]. cbn [andb].
  destruct (Text.in_range 55296 57343 _) eqn:Es; [discriminate|]. cbn [negb].
  intros Heq. injection Heq as Hv. rewrite Hv in *.
  apply continuation_range in E2, E3.
  unfold Text.in_range in Es. apply andb_false_iff in Es. rewrite !Z.leb_gt in Es.
  split; [lia|]. split; [lia|]. unfold Text.utf8_encode.
  destruct (Z.ltb_spec v 128); [lia|]. destruct (Z.ltb_spec v 2048); [lia|].
  destruct (Z.ltb_spec v 65536); [|lia].
  assert (F1 : 224 + v / 4096 = b1) by (Z.div_mod_to_equations; lia).
  assert (F2 : 128 + (v / 64) mod 64 = b2) by (Z.div_mod_to_equations; lia).
  assert (F3 : 128 + v mod 64 = b3) by (Z.div_mod_to_equations; lia).
  rewrite F1, F2, F3. reflexivity.
Qed.

Lemma utf8_encode_decode4 (b1 b2 b3 b4 v : Z) :
  240 <= b1 < 248 -> Text.utf8_decode4 b1 b2 b3 b4 = Some v ->
  65536 <= v < 1114112 /\ Text.utf8_encode v = [b1; b2; b3; b4].
Proof.
  intros Hb. unfold Text.utf8_decode4.
  destruct (Text.is_continuation b2) eqn:E2; [|discriminate].
  destruct (Text.is_continuation b3) eqn:E3; [|discriminate].
  destruct (Text.is_continuation b4) eqn:E4; [|discriminate]. cbn [andb].
  destruct (Text.in_range 65536 1114111 _) eqn:Er; [|discriminate].
  intros Heq. injection Heq as Hv. rewrite Hv in *.
  apply continuation_range in E2, E3, E4.
  unfold Text.in_range in Er. apply andb_prop in Er as [Hlo Hhi].
  apply Z.leb_le in Hlo, Hhi.
  split; [lia|]. unfold Text.utf8_encode.
  destruct (Z.ltb_spec v 128); [lia|]. destruct (Z.ltb_spec v 2048); [lia|].
  destruct (Z.ltb_spec v 65536); [lia|].
  assert (F1 : 240 + v / 262144 = b1) by (Z.div_mod_to_equations; lia).
  assert (F2 : 128 + (v / 4096) mod 64 = b2) by (Z.div_mod_to_equations; lia).
  assert (F3 : 128 + (v / 64) mod 64 = b3) by (Z.div_mod_to_equations; lia).
  assert (F4 : 128 + v mod 64 = b4) by (Z.div_mod_to_equations; lia).
  rewrite F1, F2, F3, F4. reflexivity.
Qed.

Lemma token_of_cases (b : Z) :
  is_octet b ->
  (token_of b = Text.Lit b /\ 0 <= b < 128) \/ token_of b = Text.Oct b.
Proof.
  intros Hb. unfold token_of. destruct (Text.escapeUnescaped b) eqn:E; [left|right; reflexivity].
  split; [reflexivity|]. apply escapeUnescaped_ascii in E. lia.
Qed.

(** What [decodeURIComponent] accepts is UTF-8, and what it returns is the
    string of which it is the UTF-8 form. *)
Lemma decode_tokens_sound (n : nat) :
  forall (bs : list Z) (s : Text.jsstring),
    (length bs <= n)%nat -> Forall is_octet bs ->
    Text.decode_tokens (map token_of bs) = Some s ->
    Text.well_formed s = true /\ Text.utf8 s = bs.
Proof.
  induction n as [|n IH]; intros bs s Hlen Hoct H.
  { destruct bs; [inversion H; split; reflexivity|simpl in Hlen; lia]. }
  destruct bs as [|b rest]; [inversion H; split; reflexivity|].
  simpl in Hlen. inversion Hoct as [|? ? Hb Hrest]; subst. cbn [map] in H.
  destruct (Z.lt_ge_cases b 128) as [Hascii|Hhigh].
  - unfold is_octet in Hb. rewrite decode_tokens_1 in H by lia.
    apply fmap_Some in H as (s' & Hs' & ->).
    destruct (IH rest s' ltac:(lia) Hrest Hs') as [Hwf Hutf].
    rewrite well_formed_cons, utf8_cons by (try apply not_high_surrogate; lia).
    split; [exact Hwf|]. rewrite Hutf. unfold Text.utf8_encode.
    destruct (Z.ltb_spec b 128); [reflexivity|lia].
  - rewrite token_of_high in H by exact Hhigh. cbn [Text.decode_tokens] in H.
    destruct (Z.ltb_spec b 128); [lia|].
    destruct (Z.ltb_spec b 192); [discriminate|].
    destruct (Z.ltb_spec b 224); [|destruct (Z.ltb_spec b 240); [|destruct (Z.ltb_spec b 248)]].
    + destruct rest as [|b2 rest2]; [discriminate|]. cbn [map] in H.
      inversion Hrest as [|? ? Hb2 Hrest2]; subst.
      destruct (token_of_cases b2 Hb2) as [[E _]|E]; rewrite E in H; [discriminate|].
      destruct (Text.utf8_decode2 b b2) as [v|] eqn:Ev; [|discriminate].
      apply utf8_encode_decode2 in Ev as [Hv Henc]; [|lia].
      apply fmap_Some in H as (s' & Hs' & ->).
      destruct (IH rest2 s' ltac:(simpl in Hlen; lia) Hrest2 Hs') as [Hwf Hutf].
      unfold Text.utf16_encode. destruct (Z.ltb_spec v 65536); [|lia]. cbn [app].
      rewrite well_formed_cons, utf8_cons by (try apply not_high_surrogate; lia).
      split; [exact Hwf|]. rewrite Henc, Hutf. reflexivity.
    + destruct rest as [|b2 [|b3 rest3]]; [discriminate| |]; cbn [map] in H.
      { destruct (token_of b2); discriminate. }
      inversion Hrest as [|? ? Hb2 Hrest2]; subst.
      inversion Hrest2 as [|? ? Hb3 Hrest3]; subst.
      destruct (token_of_cases b2 Hb2) as [[E _]|E]; rewrite E in H; [discriminate|].
      destruct (token_of_cases b3 Hb3) as [[E3 _]|E3]; rewrite E3 in H; [discriminate|].
      destruct (Text.utf8_decode3 b b2 b3) as [v|] eqn:Ev; [|discriminate].
      apply utf8_encode_decode3 in Ev as (Hv & Hs & Henc); [|lia].
      apply fmap_Some in H as (s' & Hs' & ->).
      destruct (IH rest3 s' ltac:(simpl in Hlen; lia) Hrest3 Hs') as [Hwf Hutf].
      unfold Text.utf16_encode. destruct (Z.ltb_spec v 65536); [|lia]. cbn [app].
      rewrite well_formed_cons, utf8_cons by (try apply not_high_surrogate; lia).
      split; [exact Hwf|]. rewrite Henc, Hutf. reflexivity.
    + destruct rest as [|b2 [|b3 [|b4 rest4]]]; [discriminate| | |]; cbn [map] in H.
      { destruct (token_of b2); discriminate. }
      { destruct (token_of b2); [discriminate|]. destruct (token_of b3); discriminate. }
      inversion Hrest as [|? ? Hb2 Hrest2]; subst.
      inversion Hrest2 as [|? ? Hb3 Hrest3]; subst.
      inversion Hrest3 as [|? ? Hb4 Hrest4]; subst.
      destruct (token_of_cases b2 Hb2) as [[E _]|E]; rewrite E in H; [discriminate|].
      destruct (token_of_cases b3 Hb3) as [[E3 _]|E3]; rewrite E3 in H; [discriminate|].
      destruct (token_of_cases b4 Hb4) as [[E4 _]|E4]; rewrite E4 in H; [discriminate|].
      destruct (Text.utf8_decode4 b b2 b3 b4) as [v|] eqn:Ev; [|discriminate].
      apply utf8_encode_decode4 in Ev as (Hv & Henc); [|lia].
      apply fmap_Some in H as (s' & Hs' & ->).
      destruct (IH rest4 s' ltac:(simpl in Hlen; lia) Hrest4 Hs') as [Hwf Hutf].
      destruct (utf16_encode_astral v Hv) as (hi & lo & Hpair & Hh & Hl & Hcp).
      rewrite Hpair. cbn [app]. rewrite utf8_pair by exact Hh.
      cbn [Text.well_formed]. rewrite Hh, Hl, Hcp, Henc, Hutf. split; [exact Hwf|reflexivity].
    + discriminate.
Qed.

(** X10: a [text] message received, whatever its text.  Either the call
    throws and the session is as before, with no event fired; or one
    [text-received] event is fired, and then its text has no unpaired
    surrogate and the base64 text of the message decodes to the UTF-8
    octets of exactly that text: the receiver accepts nothing but the
    encoding [sendText] produces for the text it reports. *)
Theorem text_received_is_what_was_encoded (t : Text.jsstring) (p : Peer.t) :
  (exists e, Peer._onTextReceived t p = (p, Peer.Throw e))
  \/ (exists s : Text.jsstring,
        Peer._onTextReceived t p
        = (Peer.fire (Peer.TextReceived s (Peer._peerId p)) p, Peer.Normal)
        /\ Text.well_formed s = true
        /\ Text.atob t = Some (Text.utf8 s)).
Proof.
  unfold Peer._onTextReceived.
  destruct (Text.atob t) as [a|] eqn:Ha; [|left; eexists; reflexivity].
  pose proof (atob_octets t a Ha) as Hoct.
  unfold Text.decodeURIComponent.
  pose proof (tokens_escape a [] [] Hoct eq_refl) as Ht. rewrite !app_nil_r in Ht.
  rewrite Ht.
  destruct (Text.decode_tokens (map token_of a)) as [s|] eqn:Hs; [|left; eexists; reflexivity].
  right. exists s. split; [reflexivity|].
  destruct (decode_tokens_sound (length a) a s (Nat.le_refl _) Hoct Hs) as [Hwf Hutf].
  split; [exact Hwf|]. rewrite Hutf. reflexivity.
Qed.

(** ** Sessions under every course of events *)

Lemma start_callee (peerId : JS.value string) (isCaller : JS.value bool) (p : RTCPeer.t) :
  RTCPeer.truthy_bool isCaller = false ->
  RTCPeer.truthy_bool (RTCPeer._isCaller p) = false ->
  RTCPeer.truthy_bool (RTCPeer._isCaller (RTCPeer._start peerId isCaller p)) = false
  /\ calls_made (RTCPeer._start peerId isCaller p) = calls_made p.
Proof.
  intros Hc Hp. unfold RTCPeer._start. rewrite Hc. unfold calls_made.
  destruct (RTCPeer._peer p) as [conn|] eqn:E; cbn; rewrite ?E; cbn; split;
    assumption || reflexivity.
Qed.

Lemma callee_step (e : rtc_event) (p : RTCPeer.t) :
  RTCPeer.truthy_bool (RTCPeer._isCaller p) = false ->
  forallb (fun c => negb (initiates c)) (calls_made p) = true ->
  RTCPeer.truthy_bool (RTCPeer._isCaller (rtc_step e p)) = false
  /\ forallb (fun c => negb (initiates c)) (calls_made (rtc_step e p)) = true.
Proof.
  intros Hrole Hcalls. destruct e as [sender payload| |[channel| |state]]; cbn [rtc_step reported].
  - unfold RTCPeer.onServerMessage.
    assert (H1 : RTCPeer.truthy_bool
                   (RTCPeer._isCaller
                      match RTCPeer._peer p with
                      | Some _ => p
                      | None => RTCPeer._start (JS.Val sender) (JS.Val false) p
                      end) = false
                 /\ calls_made
                      match RTCPeer._peer p with
                      | Some _ => p
                      | None => RTCPeer._start (JS.Val sender) (JS.Val false) p
                      end = calls_made p).
    { destruct (RTCPeer._peer p); [split; [assumption|reflexivity]|].
      apply start_callee; [reflexivity|assumption]. }
    destruct H1 as [Hr Hc]. revert Hr Hc.
    generalize (match RTCPeer._peer p with
                | Some _ => p
                | None => RTCPeer._start (JS.Val sender) (JS.Val false) p
                end).
    intros q Hr Hc. rewrite <- Hc in Hcalls. unfold calls_made in *.
    destruct payload; cbn; destruct (RTCPeer._peer q) as [conn|]; cbn in *;
      rewrite ?forallb_app, ?Hcalls; split; assumption || reflexivity.
  - unfold RTCPeer.refresh.
    destruct (_ && _); [split; assumption|].
    destruct (start_callee (Peer._peerId (RTCPeer.base p)) (RTCPeer._isCaller p) p Hrole Hrole)
      as [Hr Hc].
    rewrite Hr, Hc. split; [reflexivity|assumption].
  - split; assumption.
  - split; assumption.
  - unfold RTCPeer.connection_state_changes, RTCPeer._onConnectionStateChange, calls_made in *.
    destruct (RTCPeer._peer p) as [conn|]; cbn; [|split; assumption].
    destruct state; cbn; split; assumption || reflexivity.
Qed.

(** X11: a session constructed without a peer id, as the manager does for
    an incoming signal, never initiates the handshake.  Under every course
    of signals, refreshes and reports of the browser it stays a callee,
    and no data channel and no offer is ever asked of the connection it
    holds. *)
Theorem callee_never_initiates (es : list rtc_event) :
  RTCPeer.truthy_bool (RTCPeer._isCaller (rtc_run es (RTCPeer.new JS.Undefined))) = false
  /\ forallb (fun c => negb (initiates c))
       (calls_made (rtc_run es (RTCPeer.new JS.Undefined))) = true
  /\ RTCPeer.offers (rtc_run es (RTCPeer.new JS.Undefined)) = 0%nat.
Proof.
  assert (H : forall p,
             RTCPeer.truthy_bool (RTCPeer._isCaller p) = false ->
             forallb (fun c => negb (initiates c)) (calls_made p) = true ->
             RTCPeer.truthy_bool (RTCPeer._isCaller (rtc_run es p)) = false
             /\ forallb (fun c => negb (initiates c)) (calls_made (rtc_run es p)) = true).
  { induction es as [|e es IH]; intros p Hr Hc; [split; assumption|].
    destruct (callee_step e p Hr Hc) as [Hr' Hc']. exact (IH _ Hr' Hc'). }
  destruct (H (RTCPeer.new JS.Undefined) eq_refl eq_refl) as [Hr Hc].
  split; [exact Hr|]. split; [exact Hc|].
  unfold RTCPeer.offers, calls_made in *.
  destruct (RTCPeer._peer _) as [conn|]; [|reflexivity].
  induction (RTCPeer.calls conn) as [|c cs IHc]; [reflexivity|].
  cbn [forallb] in Hc. apply andb_prop in Hc as [Hc1 Hc2].
  cbn [List.filter]. destruct c; try discriminate; apply IHc, Hc2.
Qed.

(** ** The registry under every course of events *)

Lemma start_peerId (peerId : JS.value string) (isCaller : JS.value bool) (p : RTCPeer.t) :
  Peer._peerId (RTCPeer.base (RTCPeer._start peerId isCaller p))
  = match RTCPeer._peer p with
    | Some _ => Peer._peerId (RTCPeer.base p)
    | None => peerId
    end.
Proof.
  unfold RTCPeer._start.
  destruct (RTCPeer._peer p), (RTCPeer.truthy_bool isCaller); reflexivity.
Qed.

Lemma refresh_peerId (p : RTCPeer.t) :
  Peer._peerId (RTCPeer.base (RTCPeer.refresh p)) = Peer._peerId (RTCPeer.base p).
Proof.
  unfold RTCPeer.refresh. destruct (_ && _); [reflexivity|].
  rewrite start_peerId. destruct (RTCPeer._peer p); reflexivity.
Qed.

Lemma onServerMessage_peerId
    (sender : string) (payload : RTCPeer.signal_payload) (p : RTCPeer.t) :
  Peer._peerId (RTCPeer.base (RTCPeer.onServerMessage sender payload p))
  = match RTCPeer._peer p with
    | Some _ => Peer._peerId (RTCPeer.base p)
    | None => JS.Val sender
    end.
Proof.
  unfold RTCPeer.onServerMessage.
  destruct (RTCPeer._peer p) eqn:E; destruct payload; cbn [RTCPeer.set_peer RTCPeer.base];
    rewrite ?start_peerId, ?E; reflexivity.
Qed.

Lemma reported_peerId (e : connection_event) (p : RTCPeer.t) :
  Peer._peerId (RTCPeer.base (reported e p)) = Peer._peerId (RTCPeer.base p).
Proof.
  destruct e as [channel| |state]; try reflexivity.
  cbn [reported]. unfold RTCPeer.connection_state_changes, RTCPeer._onConnectionStateChange.
  destruct (RTCPeer._peer p) as [conn|]; cbn; [|reflexivity].
  destruct state; reflexivity.
Qed.

Lemma keyed_insert (m : gmap string PeersManager.session) (k : string) (p : RTCPeer.t) :
  keyed m -> Peer._peerId (RTCPeer.base p) = JS.Val k ->
  keyed (<[k := PeersManager.RTC p]> m).
Proof.
  intros Hm Hp k' p' H. destruct (decide (k = k')) as [<-|Hne].
  - rewrite lookup_insert_eq in H. congruence.
  - rewrite lookup_insert_ne in H by exact Hne. apply Hm, H.
Qed.

Lemma keyed_insert_WS (m : gmap string PeersManager.session) (k : string) :
  keyed m -> keyed (<[k := PeersManager.WS]> m).
Proof.
  intros Hm k' p' H. destruct (decide (k = k')) as [<-|Hne].
  - rewrite lookup_insert_eq in H. discriminate.
  - rewrite lookup_insert_ne in H by exact Hne. apply Hm, H.
Qed.

Lemma keyed_delete (m : gmap string PeersManager.session) (k : string) :
  keyed m -> keyed (delete k m).
Proof.
  intros Hm k' p' H. apply lookup_delete_Some in H as [_ H]. apply Hm, H.
Qed.

Lemma new_peerId (k : string) :
  Peer._peerId (RTCPeer.base (RTCPeer.new (JS.Val k))) = JS.Val k.
Proof.
  unfold RTCPeer.new. destruct (RTCPeer.truthy_string (JS.Val k)); [|reflexivity].
  rewrite start_peerId. reflexivity.
Qed.

Lemma keyed_onPeer (peer : PeersManager.descriptor) (mgr : PeersManager.t) :
  keyed (PeersManager.peers mgr) ->
  keyed (PeersManager.peers (fst (PeersManager._onPeer peer mgr))).
Proof.
  intros H. unfold PeersManager._onPeer.
  destruct (PeersManager.peers mgr !! PeersManager.id peer) as [[p|]|] eqn:E;
    cbn [fst PeersManager.set_peers PeersManager.peers].
  - apply keyed_insert; [exact H|]. rewrite refresh_peerId. apply (H _ _ E).
  - exact H.
  - destruct (_ && _); cbn [fst PeersManager.set_peers PeersManager.peers].
    + apply keyed_insert; [exact H|apply new_peerId].
    + apply keyed_insert_WS, H.
Qed.

Lemma keyed_onPeers (ps : list PeersManager.descriptor) :
  forall mgr, keyed (PeersManager.peers mgr) ->
              keyed (PeersManager.peers (fst (PeersManager._onPeers ps mgr))).
Proof.
  induction ps as [|peer rest IH]; intros mgr H; [exact H|].
  cbn [PeersManager._onPeers]. pose proof (keyed_onPeer peer mgr H) as H1.
  destruct (PeersManager._onPeer peer mgr) as [mgr1 [|e]]; cbn [fst] in *.
  - apply IH, H1.
  - exact H1.
Qed.

Lemma keyed_step (e : manager_event) (mgr : PeersManager.t) :
  keyed (PeersManager.peers mgr) -> keyed (PeersManager.peers (manager_step e mgr)).
Proof.
  intros H. destruct e as [ps|sender payload|peerId|peerId e]; cbn [manager_step].
  - apply keyed_onPeers, H.
  - unfold PeersManager._onMessage.
    destruct (PeersManager.peers mgr !! sender) as [[p|]|] eqn:E;
      cbn [fst PeersManager.set_peers PeersManager.peers].
    + apply keyed_insert; [exact H|]. rewrite onServerMessage_peerId.
      destruct (RTCPeer._peer p); [apply (H _ _ E)|reflexivity].
    + exact H.
    + apply keyed_insert; [exact H|]. rewrite onServerMessage_peerId. reflexivity.
  - unfold PeersManager._onPeerLeft.
    destruct (PeersManager.peers mgr !! peerId) as [s|];
      [destruct (PeersManager.session_peer s)|];
      cbn [fst PeersManager.set_peers PeersManager.peers]; apply keyed_delete, H.
  - destruct (PeersManager.peers mgr !! peerId) as [[p|]|] eqn:E; try exact H.
    cbn [PeersManager.set_peers PeersManager.peers].
    apply keyed_insert; [exact H|]. rewrite reported_peerId. apply (H _ _ E).
Qed.

(** X12: the registry under every course of events ([peers], [signal] and
    [peer-left] from the server, reports of the browser to a session):
    each RTC session carries as its peer id the id it is registered
    under, so the signals it sends are addressed to that peer. *)
Theorem registered_under_own_id
    (rtc : bool) (es : list manager_event) (k : string) (p : RTCPeer.t) :
  PeersManager.peers (manager_run es (PeersManager.new rtc)) !! k
  = Some (PeersManager.RTC p) ->
  Peer._peerId (RTCPeer.base p) = JS.Val k.
Proof.
  assert (H : forall mgr, keyed (PeersManager.peers mgr) ->
                          keyed (PeersManager.peers (manager_run es mgr))).
  { induction es as [|e es IH]; intros mgr Hm; [exact Hm|].
    apply (IH (manager_step e mgr)), keyed_step, Hm. }
  apply (H (PeersManager.new rtc)). intros k' p' Hk. cbn in Hk.
  rewrite lookup_empty in Hk. discriminate.
Qed.

Lemma registered_under_own_id_caller_and_callee :
  PeersManager.peers
    (manager_run
       [Signal "A" RTCPeer.Sdp;
        Peers [{| PeersManager.id := "B"; PeersManager.rtcSupported := true |}];
        ReportedTo "A" (StateChanged RTCPeer.CFailed);
        Signal "A" RTCPeer.Ice]
       (PeersManager.new true)) !! "A"
  = Some (PeersManager.RTC
            (RTCPeer.onServerMessage "A" RTCPeer.Ice
               (reported (StateChanged RTCPeer.CFailed)
                  (RTCPeer.onServerMessage "A" RTCPeer.Sdp (RTCPeer.new JS.Undefined)))))
  /\ Peer._peerId
       (RTCPeer.base
          (RTCPeer.onServerMessage "A" RTCPeer.Ice
             (reported (StateChanged RTCPeer.CFailed)
                (RTCPeer.onServerMessage "A" RTCPeer.Sdp (RTCPeer.new JS.Undefined)))))
     = JS.Val "A".
Proof.
  assert (H : PeersManager.peers
                (manager_run
                   [Signal "A" RTCPeer.Sdp;
                    Peers [{| PeersManager.id := "B"; PeersManager.rtcSupported := true |}];
                    ReportedTo "A" (StateChanged RTCPeer.CFailed);
                    Signal "A" RTCPeer.Ice]
                   (PeersManager.new true)) !! "A"
              = Some (PeersManager.RTC
                        (RTCPeer.onServerMessage "A" RTCPeer.Ice
                           (reported (StateChanged RTCPeer.CFailed)
                              (RTCPeer.onServerMessage "A" RTCPeer.Sdp
                                 (RTCPeer.new JS.Undefined))))))
    by (vm_compute; reflexivity).
  split; [exact H|].
  exact (registered_under_own_id true _ "A" _ H).
Defined.

(** ** Lists of peers *)

Lemma onPeer_elsewhere (peer : PeersManager.descriptor) (mgr : PeersManager.t) (k : string) :
  k <> PeersManager.id peer ->
  PeersManager.peers (fst (PeersManager._onPeer peer mgr)) !! k = PeersManager.peers mgr !! k.
Proof.
  intros Hne. unfold PeersManager._onPeer.
  destruct (PeersManager.peers mgr !! PeersManager.id peer) as [[p|]|];
    [| |destruct (_ && _)];
    cbn [fst PeersManager.set_peers PeersManager.peers];
    rewrite ?lookup_insert_ne by congruence; reflexivity.
Qed.

Lemma onPeer_completion (peer : PeersManager.descriptor) (mgr : PeersManager.t) :
  match PeersManager.peers mgr !! PeersManager.id peer with
  | Some PeersManager.WS =>
      PeersManager._onPeer peer mgr = (mgr, Peer.Throw Peer.TypeError)
  | _ =>
      snd (PeersManager._onPeer peer mgr) = Peer.Normal
      /\ is_Some (PeersManager.peers (fst (PeersManager._onPeer peer mgr))
                  !! PeersManager.id peer)
  end.
Proof.
  unfold PeersManager._onPeer.
  destruct (PeersManager.peers mgr !! PeersManager.id peer) as [[p|]|];
    [| |destruct (_ && _)]; try reflexivity;
    cbn [fst snd PeersManager.set_peers PeersManager.peers];
    rewrite lookup_insert_eq; split; eauto.
Qed.



Lemma onPeers_keeps (ps : list PeersManager.descriptor) :
  forall (mgr : PeersManager.t) (k : string),
    (is_Some (PeersManager.peers mgr !! k) ->
     is_Some (PeersManager.peers (fst (PeersManager._onPeers ps mgr)) !! k))
    /\ (~ In k (listed ps) ->
        PeersManager.peers (fst (PeersManager._onPeers ps mgr)) !! k
        = PeersManager.peers mgr !! k)
    /\ (snd (PeersManager._onPeers ps mgr) = Peer.Normal -> In k (listed ps) ->
        is_Some (PeersManager.peers (fst (PeersManager._onPeers ps mgr)) !! k)).
Proof.
  induction ps as [|first rest IH]; intros mgr k.
  { cbn. split; [tauto|]. split; [reflexivity|]. intros _ []. }
  cbn [PeersManager._onPeers listed map In].
  pose proof (onPeer_completion first mgr) as Hfirst.
  pose proof (onPeer_elsewhere first mgr k) as Hk.
  assert (Hkeep : is_Some (PeersManager.peers mgr !! k) ->
                  is_Some (PeersManager.peers (fst (PeersManager._onPeer first mgr)) !! k)).
  { intros Hs. destruct (decide (k = PeersManager.id first)) as [->|Hne];
      [|rewrite Hk by exact Hne; exact Hs].
    destruct (PeersManager.peers mgr !! PeersManager.id first) as [[p|]|] eqn:E;
      try (apply Hfirst). rewrite Hfirst. cbn [fst]. rewrite E. eauto. }
  destruct (PeersManager._onPeer first mgr) as [mgr1 [|e]] eqn:E1; cbn [fst snd] in *.
  - destruct (IH mgr1 k) as (IH1 & IH2 & IH3). fold (listed rest).
    split; [intros Hs; apply IH1, Hkeep, Hs|].
    split.
    + intros Hnot. rewrite IH2 by tauto. apply Hk. intros ->. tauto.
    + intros Hn [<-|Hin]; [|apply IH3; assumption].
      apply IH1.
      destruct (PeersManager.peers mgr !! PeersManager.id first) as [[p|]|];
        try (apply Hfirst). discriminate Hfirst.
  - split; [exact Hkeep|]. split; [|discriminate].
    intros Hnot. apply Hk. intros ->. tauto.
Qed.

(** X14: [_onPeers] only ever adds to the registry.  A session that is
    registered stays registered, whatever the list (a peer the list no
    longer names is not removed: only [peer-left] removes); the session
    of an id the list does not name is left as it is; and when the call
    returns normally every id of the list is registered. *)
Theorem onPeers_only_adds
    (ps : list PeersManager.descriptor) (mgr : PeersManager.t) (k : string) :
  (is_Some (PeersManager.peers mgr !! k) ->
   is_Some (PeersManager.peers (fst (PeersManager._onPeers ps mgr)) !! k))
  /\ (~ In k (listed ps) ->
      PeersManager.peers (fst (PeersManager._onPeers ps mgr)) !! k
      = PeersManager.peers mgr !! k)
  /\ (snd (PeersManager._onPeers ps mgr) = Peer.Normal -> In k (listed ps) ->
      is_Some (PeersManager.peers (fst (PeersManager._onPeers ps mgr)) !! k)).
Proof. apply onPeers_keeps. Qed.

(** ** The connection to the server *)

Lemma live_or_dead (ws : ServerConnection.WebSocket) : live ws = negb (dead ws).
Proof.
  unfold live, dead, ServerConnection.in_state.
  destruct (ServerConnection.readyState ws); reflexivity.
Qed.

Lemma clearTimeout_sockets (id : option nat) (s : ServerConnection.t) :
  ServerConnection._socket (ServerConnection.clearTimeout id s) = ServerConnection._socket s
  /\ ServerConnection.replaced (ServerConnection.clearTimeout id s)
     = ServerConnection.replaced s
  /\ ServerConnection._reconnectTimer (ServerConnection.clearTimeout id s)
     = ServerConnection._reconnectTimer s
  /\ ServerConnection.next_timeout (ServerConnection.clearTimeout id s)
     = ServerConnection.next_timeout s
  /\ ServerConnection.fired (ServerConnection.clearTimeout id s) = ServerConnection.fired s.
Proof. destruct id; repeat split; reflexivity. Qed.

Lemma clearTimeout_pending (s : ServerConnection.t) :
  timeouts_inv s ->
  ServerConnection.timeouts
    (ServerConnection.clearTimeout (ServerConnection._reconnectTimer s) s) = [].
Proof.
  intros [H|(id & H & Hid)]; unfold ServerConnection.clearTimeout.
  - destruct (ServerConnection._reconnectTimer s); [|exact H].
    cbn [ServerConnection.set_timeouts ServerConnection.timeouts]. rewrite H. reflexivity.
  - rewrite Hid. cbn [ServerConnection.set_timeouts ServerConnection.timeouts].
    rewrite H. cbn [List.filter]. rewrite Nat.eqb_refl. reflexivity.
Qed.

(** After [_connect] the object holds a socket that is connecting or
    open. *)
Lemma connect_live (s : ServerConnection.t) :
  exists ws, ServerConnection._socket (ServerConnection._connect s) = Some ws
             /\ live ws = true.
Proof.
  unfold ServerConnection._connect, ServerConnection._isConnected,
    ServerConnection._isConnecting, live.
  destruct (clearTimeout_sockets (ServerConnection._reconnectTimer s) s) as (Hs & _).
  destruct (ServerConnection._socket
              (ServerConnection.clearTimeout (ServerConnection._reconnectTimer s) s))
    as [ws|] eqn:E; cbn [orb].
  - destruct (ServerConnection.in_state ServerConnection.OPEN ws
              || ServerConnection.in_state ServerConnection.CONNECTING ws) eqn:El.
    + exists ws. split; [exact E|]. rewrite orb_comm. exact El.
    + eexists. split; [reflexivity|reflexivity].
  - eexists. split; [reflexivity|reflexivity].
Qed.

Lemma connect_sockets (s : ServerConnection.t) :
  Forall (fun ws => dead ws = true) (ServerConnection.replaced s) ->
  sockets_inv (ServerConnection._connect s).
Proof.
  intros H. split.
  { destruct (connect_live s) as (ws & Hws & _). rewrite Hws. eauto. }
  unfold ServerConnection._connect, ServerConnection._isConnected,
    ServerConnection._isConnecting.
  destruct (clearTimeout_sockets (ServerConnection._reconnectTimer s) s) as (Hs & Hr & _).
  destruct (ServerConnection._socket
              (ServerConnection.clearTimeout (ServerConnection._reconnectTimer s) s))
    as [ws|] eqn:E; cbn [orb].
  - destruct (ServerConnection.in_state ServerConnection.OPEN ws
              || ServerConnection.in_state ServerConnection.CONNECTING ws) eqn:El.
    + rewrite Hr. exact H.
    + cbn [ServerConnection.replaced]. rewrite Hr. apply Forall_app. split; [exact H|].
      constructor; [|constructor].
      rewrite orb_comm in El. fold (live ws) in El. rewrite live_or_dead in El.
      destruct (dead ws); [reflexivity|discriminate].
  - cbn [ServerConnection.replaced]. rewrite Hr, app_nil_r. exact H.
Qed.

Lemma connect_pending (s : ServerConnection.t) :
  timeouts_inv s -> ServerConnection.timeouts (ServerConnection._connect s) = [].
Proof.
  intros H. unfold ServerConnection._connect.
  destruct (_ || _); [apply clearTimeout_pending, H|].
  cbn [ServerConnection.timeouts]. apply clearTimeout_pending, H.
Qed.

Lemma onDisconnect_pending (s : ServerConnection.t) :
  timeouts_inv s ->
  ServerConnection.timeouts (ServerConnection._onDisconnect s)
  = [ServerConnection.next_timeout s]
  /\ ServerConnection._reconnectTimer (ServerConnection._onDisconnect s)
     = Some (ServerConnection.next_timeout s).
Proof.
  intros H. unfold ServerConnection._onDisconnect.
  cbn [ServerConnection.timeouts ServerConnection._reconnectTimer].
  set (s1 := ServerConnection.fire _ s).
  assert (H1 : timeouts_inv s1) by exact H.
  rewrite (clearTimeout_pending s1 H1).
  destruct (clearTimeout_sockets (ServerConnection._reconnectTimer s1) s1)
    as (_ & _ & _ & Hn & _).
  rewrite Hn. split; reflexivity.
Qed.

Lemma onDisconnect_sockets (s : ServerConnection.t) :
  ServerConnection._socket (ServerConnection._onDisconnect s) = ServerConnection._socket s
  /\ ServerConnection.replaced (ServerConnection._onDisconnect s)
     = ServerConnection.replaced s.
Proof.
  unfold ServerConnection._onDisconnect.
  cbn [ServerConnection._socket ServerConnection.replaced].
  set (s1 := ServerConnection.fire _ s).
  destruct (clearTimeout_sockets (ServerConnection._reconnectTimer s1) s1) as (Hs & Hr & _).
  rewrite Hs, Hr. split; reflexivity.
Qed.

Lemma send_keeps (m : ServerConnection.client_message) (s : ServerConnection.t) :
  is_Some (ServerConnection._socket s) ->
  snd (ServerConnection.send m s) = Peer.Normal
  /\ is_Some (ServerConnection._socket (fst (ServerConnection.send m s)))
  /\ ServerConnection.replaced (fst (ServerConnection.send m s)) = ServerConnection.replaced s
  /\ ServerConnection.timeouts (fst (ServerConnection.send m s)) = ServerConnection.timeouts s
  /\ ServerConnection._reconnectTimer (fst (ServerConnection.send m s))
     = ServerConnection._reconnectTimer s.
Proof.
  intros [ws Hws]. unfold ServerConnection.send. rewrite Hws.
  destruct (ServerConnection.in_state ServerConnection.OPEN ws); cbn;
    rewrite ?Hws; repeat split; eauto.
Qed.

Lemma onMessage_keeps (msg : ServerConnection.server_message) (s : ServerConnection.t) :
  is_Some (ServerConnection._socket s) ->
  snd (ServerConnection._onMessage msg s) = Peer.Normal
  /\ is_Some (ServerConnection._socket (fst (ServerConnection._onMessage msg s)))
  /\ ServerConnection.replaced (fst (ServerConnection._onMessage msg s))
     = ServerConnection.replaced s
  /\ ServerConnection.timeouts (fst (ServerConnection._onMessage msg s))
     = ServerConnection.timeouts s
  /\ ServerConnection._reconnectTimer (fst (ServerConnection._onMessage msg s))
     = ServerConnection._reconnectTimer s.
Proof.
  intros H. destruct msg; cbn [ServerConnection._onMessage]; try apply send_keeps, H;
    cbn; repeat split; exact H.
Qed.

Lemma disconnect_keeps (s : ServerConnection.t) :
  is_Some (ServerConnection._socket s) ->
  snd (ServerConnection._disconnect s) = Peer.Normal
  /\ is_Some (ServerConnection._socket (fst (ServerConnection._disconnect s)))
  /\ ServerConnection.replaced (fst (ServerConnection._disconnect s))
     = ServerConnection.replaced s
  /\ ServerConnection.timeouts (fst (ServerConnection._disconnect s))
     = ServerConnection.timeouts s
  /\ ServerConnection._reconnectTimer (fst (ServerConnection._disconnect s))
     = ServerConnection._reconnectTimer s.
Proof.
  intros H. destruct (send_keeps ServerConnection.Disconnect s H) as (Hn & Hs & Hr & Ht & Hi).
  unfold ServerConnection._disconnect.
  destruct (ServerConnection.send ServerConnection.Disconnect s) as [s1 c].
  cbn [fst snd] in *. subst c. cbn [fst snd ServerConnection.set_socket
    ServerConnection._socket ServerConnection.replaced ServerConnection.timeouts
    ServerConnection._reconnectTimer].
  destruct Hs as [ws Hws]. rewrite Hws. repeat split; eauto.
Qed.

Lemma step_sockets (o : ServerConnection.op) (s : ServerConnection.t) :
  sockets_inv s -> sockets_inv (ServerConnection.step o s).
Proof.
  intros [Hs Hr]. destruct o as [r|r|r msg|id|hidden|]; cbn [ServerConnection.step].
  - destruct (ServerConnection.socket_at r s) as [ws|] eqn:E; [|split; assumption].
    destruct (ServerConnection.in_state ServerConnection.CONNECTING ws) eqn:Ec;
      [|split; assumption].
    destruct r as [|i]; cbn [ServerConnection.set_socket_at ServerConnection.socket_at] in *.
    + split; [cbn; eauto|exact Hr].
    + pose proof (Forall_lookup_1 _ _ _ _ Hr E) as Hd. cbv beta in Hd.
      unfold dead, ServerConnection.in_state in *.
      destruct (ServerConnection.readyState ws); discriminate.
  - destruct (ServerConnection.socket_at r s) as [ws|] eqn:E; [|split; assumption].
    destruct (ServerConnection.in_state ServerConnection.CLOSED ws); [split; assumption|].
    split; rewrite ?(proj1 (onDisconnect_sockets _)), ?(proj2 (onDisconnect_sockets _));
      destruct r as [|i]; cbn [ServerConnection.set_socket_at ServerConnection.set_socket
        ServerConnection.set_replaced ServerConnection._socket ServerConnection.replaced];
      eauto.
    apply Forall_insert; [exact Hr|reflexivity].
  - destruct (ServerConnection.socket_at r s) as [ws|]; [|split; assumption].
    destruct (ServerConnection.in_state ServerConnection.OPEN ws); [|split; assumption].
    destruct (onMessage_keeps msg s Hs) as (_ & Hs' & Hr' & _).
    split; [exact Hs'|rewrite Hr'; exact Hr].
  - destruct (existsb _ _); [|split; assumption]. apply connect_sockets. exact Hr.
  - destruct hidden; [split; assumption|]. apply connect_sockets. exact Hr.
  - destruct (disconnect_keeps s Hs) as (_ & Hs' & Hr' & _).
    split; [exact Hs'|rewrite Hr'; exact Hr].
Qed.

Lemma run_sockets (os : list ServerConnection.op) :
  sockets_inv (ServerConnection.run os ServerConnection.new).
Proof.
  assert (H : forall s, sockets_inv s -> sockets_inv (ServerConnection.run os s)).
  { induction os as [|o os IH]; intros s Hs; [exact Hs|].
    apply (IH (ServerConnection.step o s)), step_sockets, Hs. }
  apply H. split; [cbn; eauto|constructor].
Qed.

(** X15: the object never has two connections to the server.  Under every
    course of events (a socket opens, closes or receives a message, a
    timeout fires, the page becomes visible or hidden, the page unloads)
    it holds a socket, so that [send] and [_disconnect] return normally,
    and every socket it has replaced is closing or closed: of all the
    sockets it has constructed at most one is connecting or open. *)
Theorem never_two_connections (os : list ServerConnection.op) :
  is_Some (ServerConnection._socket (ServerConnection.run os ServerConnection.new))
  /\ Forall (fun ws => dead ws = true)
       (ServerConnection.replaced (ServerConnection.run os ServerConnection.new))
  /\ (length (List.filter live (sockets (ServerConnection.run os ServerConnection.new)))
      <= 1)%nat
  /\ (forall m, snd (ServerConnection.send m (ServerConnection.run os ServerConnection.new))
                = Peer.Normal)
  /\ snd (ServerConnection._disconnect (ServerConnection.run os ServerConnection.new))
     = Peer.Normal.
Proof.
  destruct (run_sockets os) as [Hs Hr].
  split; [exact Hs|]. split; [exact Hr|]. split; [|split].
  - unfold sockets. rewrite List.filter_app, length_app.
    replace (List.filter live
               (ServerConnection.replaced (ServerConnection.run os ServerConnection.new)))
      with (@nil ServerConnection.WebSocket).
    + destruct (ServerConnection._socket _) as [ws|]; cbn; [destruct (live ws)|]; cbn; lia.
    + induction Hr as [|ws l Hd _ IH]; [reflexivity|].
      cbn [List.filter]. rewrite live_or_dead, Hd. exact IH.
  - intros m. apply send_keeps, Hs.
  - apply disconnect_keeps, Hs.
Qed.

Lemma set_socket_at_pending
    (r : ServerConnection.socket_ref) (ws : ServerConnection.WebSocket)
    (s : ServerConnection.t) :
  timeouts_inv s -> timeouts_inv (ServerConnection.set_socket_at r ws s).
Proof. intros H. destruct r; exact H. Qed.

Lemma onMessage_pending (msg : ServerConnection.server_message) (s : ServerConnection.t) :
  timeouts_inv s -> timeouts_inv (fst (ServerConnection._onMessage msg s)).
Proof.
  intros H. destruct msg; try exact H.
  cbn [ServerConnection._onMessage]. unfold ServerConnection.send.
  destruct (ServerConnection._socket s) as [ws|]; [|exact H].
  destruct (ServerConnection.in_state ServerConnection.OPEN ws); exact H.
Qed.

Lemma disconnect_pending (s : ServerConnection.t) :
  timeouts_inv s -> timeouts_inv (fst (ServerConnection._disconnect s)).
Proof.
  intros H. unfold ServerConnection._disconnect, ServerConnection.send.
  destruct (ServerConnection._socket s) as [ws|]; [|exact H].
  destruct (ServerConnection.in_state ServerConnection.OPEN ws); exact H.
Qed.

Lemma fired_timeout_pending (id : nat) (s : ServerConnection.t) :
  timeouts_inv s -> existsb (Nat.eqb id) (ServerConnection.timeouts s) = true ->
  ServerConnection.timeouts s = [id]
  /\ List.filter (fun j => negb (Nat.eqb j id)) (ServerConnection.timeouts s) = [].
Proof.
  intros [H|(id' & H & _)] Hin; rewrite H in *; [discriminate|].
  cbn [existsb] in Hin. rewrite orb_false_r in Hin. apply Nat.eqb_eq in Hin. subst id'.
  cbn [List.filter]. rewrite Nat.eqb_refl. split; reflexivity.
Qed.

Lemma step_pending (o : ServerConnection.op) (s : ServerConnection.t) :
  timeouts_inv s -> timeouts_inv (ServerConnection.step o s).
Proof.
  intros H. destruct o as [r|r|r msg|id|hidden|]; cbn [ServerConnection.step].
  - destruct (ServerConnection.socket_at r s) as [ws|]; [|exact H].
    destruct (ServerConnection.in_state _ ws); [|exact H].
    apply set_socket_at_pending, H.
  - destruct (ServerConnection.socket_at r s) as [ws|]; [|exact H].
    destruct (ServerConnection.in_state _ ws); [exact H|].
    destruct (onDisconnect_pending _ (set_socket_at_pending r
                (ServerConnection.with_state ServerConnection.CLOSED ws) s H)) as [Ht Hi].
    right. eexists. split; [exact Ht|exact Hi].
  - destruct (ServerConnection.socket_at r s) as [ws|]; [|exact H].
    destruct (ServerConnection.in_state _ ws); [|exact H].
    apply onMessage_pending, H.
  - destruct (existsb _ _) eqn:E; [|exact H].
    destruct (fired_timeout_pending id s H E) as [_ Hf].
    left. apply connect_pending. left. exact Hf.
  - destruct hidden; [exact H|]. left. apply connect_pending, H.
  - apply disconnect_pending, H.
Qed.

Lemma run_pending (os : list ServerConnection.op) :
  timeouts_inv (ServerConnection.run os ServerConnection.new).
Proof.
  assert (H : forall s, timeouts_inv s -> timeouts_inv (ServerConnection.run os s)).
  { induction os as [|o os IH]; intros s Hs; [exact Hs|].
    apply (IH (ServerConnection.step o s)), step_pending, Hs. }
  apply H. left. reflexivity.
Qed.

(** X16: under every course of events at most one reconnection is
    pending: there is never more than one timeout that would call
    [_connect], and if there is one it is the one [_reconnectTimer]
    names, so that the next [_connect] or [_onDisconnect] clears it. *)
Theorem one_reconnection_pending (os : list ServerConnection.op) :
  (length (ServerConnection.timeouts (ServerConnection.run os ServerConnection.new)) <= 1)%nat
  /\ forall id,
       In id (ServerConnection.timeouts (ServerConnection.run os ServerConnection.new)) ->
       ServerConnection._reconnectTimer (ServerConnection.run os ServerConnection.new)
       = Some id.
Proof.
  destruct (run_pending os) as [H|(id & H & Hid)]; rewrite H.
  - split; [cbn; lia|]. intros id [].
  - split; [cbn; lia|]. intros id' [<-|[]]. exact Hid.
Qed.

(** X17: the object reconnects.  In every state it reaches, when a socket
    it has constructed (held or replaced) that is not yet closed closes,
    the user is notified and exactly one timeout is pending; and when
    that timeout fires, the object holds a socket that is connecting or
    open, and no timeout is pending. *)
Theorem reconnects_after_a_close
    (os : list ServerConnection.op) (r : ServerConnection.socket_ref)
    (ws : ServerConnection.WebSocket) :
  ServerConnection.socket_at r (ServerConnection.run os ServerConnection.new) = Some ws ->
  ServerConnection.in_state ServerConnection.CLOSED ws = false ->
  exists id,
    ServerConnection.timeouts
      (ServerConnection.step (ServerConnection.SocketCloses r)
         (ServerConnection.run os ServerConnection.new)) = [id]
    /\ ServerConnection.fired
         (ServerConnection.step (ServerConnection.SocketCloses r)
            (ServerConnection.run os ServerConnection.new))
       = ServerConnection.fired (ServerConnection.run os ServerConnection.new)
         ++ [ServerConnection.FireNotifyUser "Connection lost. Retry in 5 seconds..."]
    /\ ServerConnection.timeouts
         (ServerConnection.step (ServerConnection.TimeoutFires id)
            (ServerConnection.step (ServerConnection.SocketCloses r)
               (ServerConnection.run os ServerConnection.new))) = []
    /\ exists ws',
         ServerConnection._socket
           (ServerConnection.step (ServerConnection.TimeoutFires id)
              (ServerConnection.step (ServerConnection.SocketCloses r)
                 (ServerConnection.run os ServerConnection.new))) = Some ws'
         /\ live ws' = true.
Proof.
  intros Hat Hopen. pose proof (run_pending os) as Hinv.
  set (s := ServerConnection.run os ServerConnection.new) in *.
  pose proof (step_pending (ServerConnection.SocketCloses r) s Hinv) as Hinv1.
  cbn [ServerConnection.step] in *. rewrite Hat, Hopen in *.
  set (s0 := ServerConnection.set_socket_at r
               (ServerConnection.with_state ServerConnection.CLOSED ws) s) in *.
  destruct (onDisconnect_pending s0 (set_socket_at_pending r _ s Hinv)) as [Ht Hi].
  exists (ServerConnection.next_timeout s0). split; [exact Ht|]. split.
  { unfold ServerConnection._onDisconnect. cbn [ServerConnection.fired].
    match goal with |- context [ServerConnection.clearTimeout ?i ?q] =>
      destruct (clearTimeout_sockets i q) as (_ & _ & _ & _ & Hf); rewrite Hf
    end.
    subst s0. destruct r; reflexivity. }
  rewrite Ht. cbn [existsb]. rewrite Nat.eqb_refl. cbn [orb].
  split; [|apply connect_live].
  apply connect_pending. left. cbn [ServerConnection.set_timeouts ServerConnection.timeouts
    List.filter]. rewrite Nat.eqb_refl. reflexivity.
Qed.

Lemma reconnects_after_a_close_at_once :
  ServerConnection.socket_at ServerConnection.Held
    (ServerConnection.run [] ServerConnection.new)
  = Some {| ServerConnection.readyState := ServerConnection.CONNECTING;
            ServerConnection.written := [] |}
  /\ ServerConnection.in_state ServerConnection.CLOSED
       {| ServerConnection.readyState := ServerConnection.CONNECTING;
          ServerConnection.written := [] |} = false
  /\ exists id,
       ServerConnection.timeouts
         (ServerConnection.step (ServerConnection.SocketCloses ServerConnection.Held)
            (ServerConnection.run [] ServerConnection.new)) = [id]
       /\ ServerConnection.fired
            (ServerConnection.step (ServerConnection.SocketCloses ServerConnection.Held)
               (ServerConnection.run [] ServerConnection.new))
          = ServerConnection.fired (ServerConnection.run [] ServerConnection.new)
            ++ [ServerConnection.FireNotifyUser "Connection lost. Retry in 5 seconds..."]
       /\ ServerConnection.timeouts
            (ServerConnection.step (ServerConnection.TimeoutFires id)
               (ServerConnection.step (ServerConnection.SocketCloses ServerConnection.Held)
                  (ServerConnection.run [] ServerConnection.new))) = []
       /\ exists ws',
            ServerConnection._socket
              (ServerConnection.step (ServerConnection.TimeoutFires id)
                 (ServerConnection.step (ServerConnection.SocketCloses ServerConnection.Held)
                    (ServerConnection.run [] ServerConnection.new))) = Some ws'
            /\ live ws' = true.
Proof.
  split; [reflexivity|]. split; [reflexivity|].
  exact (reconnects_after_a_close [] ServerConnection.Held _ eq_refl eq_refl).
Defined.

(** ** Sending on the channel *)

(** With an open channel the session sends as the abstract session does. *)
Lemma sendFiles_on_open_channel
    (files : list File) (p : RTCPeer.t) (channel : RTCPeer.RTCDataChannel) :
  RTCPeer._channel p = Some channel ->
  RTCPeer.is_open (RTCPeer.readyState channel) = true ->
  RTCPeer.sendFiles files p
  = (RTCPeer.set_base (Peer.sendFiles files (RTCPeer.base p)) p, RTCPeer.Returns).
Proof.
  intros Hc Ho. unfold RTCPeer.sendFiles, RTCPeer._send_fails, Peer.sendFiles,
    Peer._dequeueFile.
  rewrite Hc, Ho.
  destruct (Peer._busy _); [reflexivity|].
  destruct (Peer._filesQueue _); reflexivity.
Qed.

(** X18: files selected before the channel is there.  On a session that
    is idle and has no channel yet, [sendFiles] throws a [TypeError]
    after it has taken the first file from the queue and marked the
    session busy: nothing is sent, the first file is lost and the others
    stay queued.  The session stays busy: once the channel is open, a
    further [sendFiles] returns normally and still sends nothing, it only
    lengthens the queue. *)
Theorem files_before_the_channel_block_the_session
    (p : RTCPeer.t) (file : File) (files more : list File) :
  RTCPeer._channel p = None ->
  Peer._busy (RTCPeer.base p) = false ->
  Peer._filesQueue (RTCPeer.base p) = [] ->
  snd (RTCPeer.sendFiles (file :: files) p) = RTCPeer.Throws Peer.TypeError
  /\ Peer.sent (RTCPeer.base (fst (RTCPeer.sendFiles (file :: files) p)))
     = Peer.sent (RTCPeer.base p)
  /\ Peer._filesQueue (RTCPeer.base (fst (RTCPeer.sendFiles (file :: files) p))) = files
  /\ Peer._busy (RTCPeer.base (fst (RTCPeer.sendFiles (file :: files) p))) = true
  /\ snd (RTCPeer.sendFiles more
            (RTCPeer._onChannelOpened open_channel
               (fst (RTCPeer.sendFiles (file :: files) p))))
     = RTCPeer.Returns
  /\ Peer.sent
       (RTCPeer.base
          (fst (RTCPeer.sendFiles more
                  (RTCPeer._onChannelOpened open_channel
                     (fst (RTCPeer.sendFiles (file :: files) p))))))
     = Peer.sent (RTCPeer.base p)
  /\ Peer._filesQueue
       (RTCPeer.base
          (fst (RTCPeer.sendFiles more
                  (RTCPeer._onChannelOpened open_channel
                     (fst (RTCPeer.sendFiles (file :: files) p))))))
     = files ++ more.
Proof.
  intros Hc Hb Hq. unfold RTCPeer.sendFiles at 1 2 3 4 6 8 10. unfold RTCPeer._send_fails.
  cbn [Peer.set_filesQueue Peer._busy Peer._filesQueue]. rewrite Hc, Hb, Hq.
  cbn [app fst snd RTCPeer.thrown_by RTCPeer.set_base RTCPeer.base Peer.set_filesQueue
       Peer.set_busy Peer.sent Peer._filesQueue Peer._busy].
  repeat (split; [reflexivity|]).
  unfold RTCPeer.sendFiles.
  cbn [RTCPeer._onChannelOpened RTCPeer.set_channel RTCPeer.base Peer.set_filesQueue
       Peer._busy fst snd RTCPeer.set_base Peer.sent Peer._filesQueue].
  repeat split; reflexivity.
Qed.

Lemma files_before_the_channel_block_the_session_hello :
  RTCPeer._channel (RTCPeer.new (JS.Val "B")) = None
  /\ Peer._busy (RTCPeer.base (RTCPeer.new (JS.Val "B"))) = false
  /\ Peer._filesQueue (RTCPeer.base (RTCPeer.new (JS.Val "B"))) = []
  /\ snd (RTCPeer.sendFiles [hello; empty_file] (RTCPeer.new (JS.Val "B")))
     = RTCPeer.Throws Peer.TypeError
  /\ Peer._filesQueue
       (RTCPeer.base
          (fst (RTCPeer.sendFiles [hello]
                  (RTCPeer._onChannelOpened open_channel
                     (fst (RTCPeer.sendFiles [hello; empty_file]
                             (RTCPeer.new (JS.Val "B"))))))))
     = [empty_file] ++ [hello].
Proof.
  split; [reflexivity|]. split; [reflexivity|]. split; [reflexivity|].
  pose proof (files_before_the_channel_block_the_session
                (RTCPeer.new (JS.Val "B")) hello [empty_file] [hello]
                eq_refl eq_refl eq_refl) as (H1 & _ & _ & _ & _ & _ & H7).
  split; [exact H1|exact H7].
Defined.

(** ** A file of any size, from one session to another *)

Lemma total_cons (b : list byte) (bs : list (list byte)) :
  total (b :: bs) = Z.of_nat (length b) + total bs.
Proof. unfold total. cbn [concat]. rewrite length_app. lia. Qed.

Lemma total_app (bs more : list (list byte)) : total (bs ++ more) = total bs + total more.
Proof. unfold total. rewrite concat_app, length_app. lia. Qed.

Lemma sliced_app (bytes : list byte) (bs more : list (list byte)) :
  forall off,
    sliced bytes off bs -> sliced bytes (off + total bs) more ->
    sliced bytes off (bs ++ more).
Proof.
  induction bs as [|b bs IH]; intros off Hbs Hmore.
  - change (total []) with 0 in Hmore. rewrite Z.add_0_r in Hmore. exact Hmore.
  - destruct Hbs as [Hb Hrest]. split; [exact Hb|].
    apply IH; [exact Hrest|]. rewrite total_cons, Z.add_assoc in Hmore. exact Hmore.
Qed.

Lemma sender_stream_start (file : File) (id : JS.value string) :
  sender_stream file (Peer.sendFiles [file] (Peer.new id)).
Proof.
  exists (FileChunker.nextPartition (FileChunker.new file)), [].
  split; [reflexivity|].
  split; [apply chunker_inv_nextPartition, chunker_inv_new|].
  repeat split; reflexivity.
Qed.

Lemma sender_stream_readerLoad (file : File) (p : Peer.t) :
  sender_stream file p -> sender_stream file (Peer.readerLoad p).
Proof.
  intros (c & out & Hc & Hinv & Hsent & Hsl & Htot).
  destruct (readerLoad_frames p c Hc) as [Hs Hk].
  pose proof (chunker_inv_load file c Hinv) as Hinv'.
  exists (fst (FileChunker.load c)), (out ++ snd (FileChunker.load c)).
  split; [exact Hk|]. split; [exact Hinv'|].
  split; [rewrite Hs, Hsent, map_app; reflexivity|].
  rewrite chunks_app, total_app.
  destruct (load_cases file c Hinv)
    as [[_ Hload]|(chunk & Hread & _ & _ & Hch & Ho & _)].
  - rewrite Hload. cbn [fst snd FileChunker.chunks flat_map].
    rewrite app_nil_r. change (total []) with 0. split; [exact Hsl|lia].
  - rewrite Hch, Ho. split.
    + apply sliced_app; [exact Hsl|]. rewrite Htot, Z.add_0_l.
      split; [|exact I]. destruct Hinv as (_ & _ & _ & _ & _ & Hr). apply Hr, Hread.
    + rewrite total_cons. change (total []) with 0. lia.
Qed.

Lemma sender_stream_step (file : File) (p : Peer.t) (o : Peer.op) :
  sender_stream file p -> in_course_step p o = true ->
  sender_stream file (Peer.step o p).
Proof.
  intros Hinv Ho. destruct o as [files|text|[m|b]|]; try discriminate.
  - destruct m; try discriminate.
    + cbn [Peer.step Peer._onMessage fst]. unfold Peer._sendNextPartition.
      destruct Hinv as (c & out & Hc & Hinv & Hsent & Hsl & Htot). rewrite Hc.
      destruct (FileChunker.isFileEnd c).
      * exists c, out. split; [exact Hc|]. split; [exact Hinv|].
        split; [exact Hsent|]. split; [exact Hsl|exact Htot].
      * exists (FileChunker.nextPartition c), out.
        split; [reflexivity|]. split; [apply chunker_inv_nextPartition, Hinv|].
        split; [exact Hsent|]. split; [exact Hsl|exact Htot].
    + exact Hinv.
  - apply sender_stream_readerLoad, Hinv.
Qed.

Lemma sender_stream_run (file : File) (os : list Peer.op) :
  forall p, sender_stream file p -> in_course os p = true ->
            sender_stream file (Peer.run os p).
Proof.
  induction os as [|o os IH]; intros p Hinv Hos; [exact Hinv|].
  cbn [in_course] in Hos. apply andb_prop in Hos as [Ho Hos].
  apply (IH (Peer.step o p)); [apply sender_stream_step; assumption|exact Hos].
Qed.

Lemma run_cons (o : Peer.op) (os : list Peer.op) (p : Peer.t) :
  Peer.run (o :: os) p = Peer.run os (Peer.step o p).
Proof. reflexivity. Qed.

(** What the receiver makes of the frames of a chunker: the binary
    frames go to its digester, a [partition] message changes nothing of
    it. *)
Lemma receiver_of_stream (blob : bool) (out : list FileChunker.effect) :
  forall (p : Peer.t) (d : FileDigester.t),
    Peer._digester p = Some d ->
    files_received (Peer.fired (Peer.run (deliver blob (map frame_of out)) p))
    = files_received (Peer.fired p)
      ++ invoked (snd (FileDigester.unchunks d
                         (map (as_chunk blob) (FileChunker.chunks out)))).
Proof.
  induction out as [|e out IH]; intros p d Hd.
  { cbn. rewrite app_nil_r. reflexivity. }
  destruct e as [bytes|n].
  - change (deliver blob (map frame_of (FileChunker.OnChunk bytes :: out)))
      with (Peer.OnMessage (Peer.FBinary (as_chunk blob bytes))
              :: deliver blob (map frame_of out)).
    change (FileChunker.chunks (FileChunker.OnChunk bytes :: out))
      with (bytes :: FileChunker.chunks out).
    set (c := as_chunk blob bytes).
    pose proof (chunks_to_digester [c] p d Hd) as H1.
    change (Peer.run (chunk_ops [c]) p)
      with (Peer.step (Peer.OnMessage (Peer.FBinary c)) p) in H1.
    rewrite run_cons. cbn [map FileDigester.unchunks] in *. fold c.
    destruct (FileDigester.unchunk d c) as [d1 o] eqn:Hu.
    assert (Hd1 : Peer._digester (Peer.step (Peer.OnMessage (Peer.FBinary c)) p) = Some d1).
    { cbn [Peer.step Peer._onMessage]. unfold Peer._onChunkReceived. rewrite Hd, Hu.
      destruct o; try destruct (JS.ltb _ _); reflexivity. }
    rewrite (IH _ d1 Hd1), H1.
    destruct (FileDigester.unchunks d1 _) as [d2 os]. cbn [fst snd invoked flat_map].
    rewrite app_nil_r, <- app_assoc. reflexivity.
  - change (deliver blob (map frame_of (FileChunker.OnPartitionEnd n :: out)))
      with (Peer.OnMessage (Peer.FJSON (Peer.Partition n))
              :: deliver blob (map frame_of out)).
    change (FileChunker.chunks (FileChunker.OnPartitionEnd n :: out))
      with (FileChunker.chunks out).
    rewrite run_cons. rewrite (IH _ d); [reflexivity|exact Hd].
Qed.

Lemma as_chunk_bytes (blob : bool) (b : list byte) :
  chunk_bytes (as_chunk blob b) = b /\ byte_count (as_chunk blob b) = Z.of_nat (length b).
Proof. unfold byte_count. destruct blob; split; reflexivity. Qed.

Lemma as_chunk_sized (blob : bool) (b : list byte) :
  0 < Z.of_nat (length b) -> sized (as_chunk blob b) = true.
Proof. destruct blob, b; cbn; intros; try reflexivity; lia. Qed.

(** Successive slices, as the digester counts them: the transfer is
    complete when the slices reach the end of the file, not before, and
    then the chunks up to the completing one are the rest of the file. *)
Lemma sliced_completes (file : File) (blob : bool) (bs : list (list byte)) :
  forall off,
    sliced (content file) off bs -> 0 <= off < size file ->
    if off + total bs <? size file
    then completing_call off (size file) (map (as_chunk blob) bs) = None
         /\ forallb sized (map (as_chunk blob) bs) = true
    else exists k : nat,
        completing_call off (size file) (map (as_chunk blob) bs) = Some k
        /\ forallb sized (firstn (S k) (map (as_chunk blob) bs)) = true
        /\ concat (map chunk_bytes (firstn (S k) (map (as_chunk blob) bs)))
           = skipn (Z.to_nat off) (content file).
Proof.
  remember (Z.to_nat 64000) as w eqn:Hw.
  induction bs as [|b bs IH]; intros off Hsl Hoff.
  { change (total []) with 0. rewrite Z.add_0_r.
    destruct (Z.ltb_spec off (size file)); [split; reflexivity|lia]. }
  destruct Hsl as [Hb Hrest].
  assert (Hlen : Z.of_nat (length b) = Z.min 64000 (size file - off)).
  { rewrite Hb. unfold size in *. apply slice_length; lia. }
  unfold size in Hoff. rewrite slice_inside in Hb by (unfold size in *; lia).
  rewrite <- Hw in Hb. fold (size file) in Hoff.
  destruct (as_chunk_bytes blob b) as [Hbytes Hcount].
  pose proof (as_chunk_sized blob b ltac:(lia)) as Hsized.
  rewrite total_cons. cbn [map completing_call]. rewrite Hcount.
  destruct (Z.leb_spec (size file) (off + Z.of_nat (length b))) as [Hdone|Hmore].
  - destruct (Z.ltb_spec (off + (Z.of_nat (length b) + total bs)) (size file)) as [Hlt|_].
    { unfold total in Hlt. lia. }
    exists 0%nat. split; [reflexivity|].
    cbn [firstn forallb map concat]. rewrite Hsized, Hbytes, app_nil_r.
    split; [reflexivity|]. rewrite Hb. apply firstn_all2.
    rewrite length_skipn. unfold size in *. lia.
  - specialize (IH (off + Z.of_nat (length b)) Hrest ltac:(lia)).
    rewrite Z.add_assoc.
    destruct (off + Z.of_nat (length b) + total bs <? size file).
    + destruct IH as [Hnone Hall]. rewrite Hnone. cbn [forallb].
      rewrite Hsized, Hall. split; reflexivity.
    + destruct IH as (k & Hk & Hall & Hcat). exists (S k). rewrite Hk.
      split; [reflexivity|].
      cbn [firstn forallb map concat] in *. rewrite Hsized, Hbytes.
      split; [exact Hall|]. rewrite Hcat.
      replace (Z.to_nat (off + Z.of_nat (length b))) with (w + Z.to_nat off)%nat by lia.
      rewrite <- skipn_skipn, Hb. apply firstn_skipn.
Qed.

Lemma invoked_returned (n : nat) : invoked (repeat FileDigester.Returned n) = [].
Proof. induction n as [|n IH]; [reflexivity|exact IH]. Qed.

(** X19: a non-empty file of any size, sent by one session and received
    by another over a channel of either binary type, under every course
    of reader load events, progress messages and acknowledgements at the
    sender.  As long as the sender has not read the whole file the
    receiver has fired no [file-received]; once it has, the receiver has
    fired exactly one, whose artifact has the file's name and size, the
    file's type (the default type if the file has none), and the bytes
    of the file. *)
Theorem file_arrives_when_read
    (file : File) (sender receiver : JS.value string) (blob : bool) (os : list Peer.op) :
  0 < size file ->
  in_course os (Peer.sendFiles [file] (Peer.new sender)) = true ->
  if sender_offset (Peer.run (Peer.SendFiles [file] :: os) (Peer.new sender)) <? size file
  then files_received
         (Peer.fired
            (Peer.run
               (deliver blob
                  (Peer.sent (Peer.run (Peer.SendFiles [file] :: os) (Peer.new sender))))
               (Peer.new receiver)))
       = []
  else exists a : FileDigester.artifact,
      files_received
        (Peer.fired
           (Peer.run
              (deliver blob
                 (Peer.sent (Peer.run (Peer.SendFiles [file] :: os) (Peer.new sender))))
              (Peer.new receiver)))
      = [a]
      /\ FileDigester.a_name a = name file
      /\ FileDigester.a_size a = size file
      /\ FileDigester.a_mime a
         = FileDigester.or_string (JS.Val (type file)) "application/octet-stream"
      /\ FileDigester.blob_type (FileDigester.a_url a) = FileDigester.a_mime a
      /\ blob_bytes (FileDigester.a_url a) = content file.
Proof.
  intros Hpos Hos.
  change (Peer.run (Peer.SendFiles [file] :: os) (Peer.new sender))
    with (Peer.run os (Peer.sendFiles [file] (Peer.new sender))).
  destruct (sender_stream_run file os _ (sender_stream_start file sender) Hos)
    as (c & out & Hc & Hinv & Hsent & Hsl & Htot).
  unfold sender_offset. rewrite Hc, Hsent, <- Htot.
  change (deliver blob (Peer.FJSON (Peer.header_of file) :: map frame_of out))
    with (Peer.OnMessage (Peer.FJSON (Peer.header_of file))
            :: deliver blob (map frame_of out)).
  change (Peer.run (Peer.OnMessage (Peer.FJSON (Peer.header_of file))
                      :: deliver blob (map frame_of out)) (Peer.new receiver))
    with (Peer.run (deliver blob (map frame_of out))
            (Peer._onFileHeader (name file) (type file) (size file) (Peer.new receiver))).
  set (d0 := FileDigester.new
               {| FileDigester.meta_name := name file;
                  FileDigester.meta_mime := JS.Val (type file);
                  FileDigester.meta_size := size file |}).
  rewrite (receiver_of_stream blob out
             (Peer._onFileHeader (name file) (type file) (size file) (Peer.new receiver))
             d0 eq_refl).
  cbn [Peer.fired Peer._onFileHeader Peer.set_digester Peer.set_lastProgress Peer.new
       files_received flat_map app].
  pose proof (sliced_completes file blob (FileChunker.chunks out) 0 Hsl ltac:(lia)) as Hdone.
  rewrite Z.add_0_l in Hdone.
  pose proof (unchunks_until_completion_any_tail
                (map (as_chunk blob) (FileChunker.chunks out)) d0 (inject_Z 0) 0
                eq_refl eq_refl ltac:(reflexivity)) as Hun.
  unfold chunks_until in Hun.
  cbn [d0 FileDigester._size FileDigester.new FileDigester.meta_size] in Hun.
  destruct (total (FileChunker.chunks out) <? size file).
  - destruct Hdone as [Hnone Hall]. rewrite Hnone in Hun.
    rewrite (Hun Hall). apply invoked_returned.
  - destruct Hdone as (k & Hk & Hall & Hcat). rewrite Hk in Hun.
    rewrite (Hun Hall), invoked_once. eexists. split; [reflexivity|].
    repeat split. unfold blob_bytes. cbn. exact Hcat.
Qed.

Lemma file_arrives_when_read_hello :
  0 < size hello
  /\ in_course [Peer.ReaderLoad; Peer.ReaderLoad]
       (Peer.sendFiles [hello] (Peer.new (JS.Val "B"))) = true
  /\ if sender_offset
          (Peer.run (Peer.SendFiles [hello] :: [Peer.ReaderLoad; Peer.ReaderLoad])
             (Peer.new (JS.Val "B"))) <? size hello
     then files_received
            (Peer.fired
               (Peer.run
                  (deliver false
                     (Peer.sent
                        (Peer.run (Peer.SendFiles [hello] :: [Peer.ReaderLoad; Peer.ReaderLoad])
                           (Peer.new (JS.Val "B")))))
                  (Peer.new (JS.Val "A"))))
          = []
     else exists a : FileDigester.artifact,
         files_received
           (Peer.fired
              (Peer.run
                 (deliver false
                    (Peer.sent
                       (Peer.run (Peer.SendFiles [hello] :: [Peer.ReaderLoad; Peer.ReaderLoad])
                          (Peer.new (JS.Val "B")))))
                 (Peer.new (JS.Val "A"))))
         = [a]
         /\ FileDigester.a_name a = name hello
         /\ FileDigester.a_size a = size hello
         /\ FileDigester.a_mime a
            = FileDigester.or_string (JS.Val (type hello)) "application/octet-stream"
         /\ FileDigester.blob_type (FileDigester.a_url a) = FileDigester.a_mime a
         /\ blob_bytes (FileDigester.a_url a) = content hello.
Proof.
  split; [reflexivity|]. split; [reflexivity|].
  exact (file_arrives_when_read hello (JS.Val "B") (JS.Val "A") false
           [Peer.ReaderLoad; Peer.ReaderLoad] eq_refl eq_refl).
Defined.

(** ** The fallback *)

Lemma fallback_onPeers (ps : list PeersManager.descriptor) :
  forall mgr,
    PeersManager.isRtcSupported mgr = false ->
    (forall k s, PeersManager.peers mgr !! k = Some s -> s = PeersManager.WS) ->
    PeersManager.isRtcSupported (fst (PeersManager._onPeers ps mgr)) = false
    /\ forall k s, PeersManager.peers (fst (PeersManager._onPeers ps mgr)) !! k = Some s ->
                   s = PeersManager.WS.
Proof.
  induction ps as [|peer rest IH]; intros mgr Hrtc Hws; [split; assumption|].
  cbn [PeersManager._onPeers]. unfold PeersManager._onPeer. rewrite Hrtc. cbn [andb].
  destruct (PeersManager.peers mgr !! PeersManager.id peer) as [[p|]|] eqn:E.
  - specialize (Hws _ _ E). discriminate.
  - split; assumption.
  - apply IH; [exact Hrtc|].
    intros k s. cbn [PeersManager.set_peers PeersManager.peers].
    destruct (decide (PeersManager.id peer = k)) as [<-|Hne].
    + rewrite lookup_insert_eq. congruence.
    + rewrite lookup_insert_ne by exact Hne. apply Hws.
Qed.

(** X20: in a browser without RTC nothing can be sent.  After every
    course of [peers] and [peer-left] events every registered session is
    a [WSPeer], which inherits nothing from [Peer]: whatever the peer,
    the files and the text, [files-selected] and [send-text] end in a
    [TypeError] and leave the manager as it was. *)
Theorem fallback_cannot_send
    (es : list manager_event) (to : string) (files : list File) (text : Text.jsstring) :
  forallb tells_of_peers es = true ->
  PeersManager._onFilesSelected to files (manager_run es (PeersManager.new false))
  = (manager_run es (PeersManager.new false), RTCPeer.Throws Peer.TypeError)
  /\ PeersManager._onSendText to text (manager_run es (PeersManager.new false))
     = (manager_run es (PeersManager.new false), RTCPeer.Throws Peer.TypeError).
Proof.
  intros Hes.
  assert (H : forall mgr,
             PeersManager.isRtcSupported mgr = false ->
             (forall k s, PeersManager.peers mgr !! k = Some s -> s = PeersManager.WS) ->
             forall k s, PeersManager.peers (manager_run es mgr) !! k = Some s ->
                         s = PeersManager.WS).
  { induction es as [|e es IH]; intros mgr Hrtc Hws; [exact Hws|].
    cbn [forallb] in Hes. apply andb_prop in Hes as [He Hes].
    destruct e as [ps|sender payload|peerId|peerId e]; try discriminate;
      apply (IH Hes); cbn [manager_step].
    - apply fallback_onPeers; assumption.
    - apply fallback_onPeers; assumption.
    - unfold PeersManager._onPeerLeft.
      destruct (PeersManager.peers mgr !! peerId) as [s|];
        [destruct (PeersManager.session_peer s)|]; exact Hrtc.
    - intros k s Hk. apply (Hws k).
      unfold PeersManager._onPeerLeft in Hk.
      destruct (PeersManager.peers mgr !! peerId) as [s'|];
        [destruct (PeersManager.session_peer s')|];
        cbn [fst PeersManager.set_peers PeersManager.peers] in Hk;
        apply lookup_delete_Some in Hk as [_ Hk]; exact Hk. }
  specialize (H (PeersManager.new false) eq_refl).
  assert (Hall : forall k s,
             PeersManager.peers (manager_run es (PeersManager.new false)) !! k = Some s ->
             s = PeersManager.WS).
  { apply H. intros k s Hk. cbn in Hk. rewrite lookup_empty in Hk. discriminate. }
  unfold PeersManager._onFilesSelected, PeersManager._onSendText.
  destruct (PeersManager.peers (manager_run es (PeersManager.new false)) !! to)
    as [[p|]|] eqn:E; try (split; reflexivity).
  specialize (Hall _ _ E). discriminate.
Qed.

Lemma fallback_cannot_send_hello :
  forallb tells_of_peers
    [Peers [{| PeersManager.id := "B"; PeersManager.rtcSupported := true |}]] = true
  /\ PeersManager._onFilesSelected "B" [hello]
       (manager_run
          [Peers [{| PeersManager.id := "B"; PeersManager.rtcSupported := true |}]]
          (PeersManager.new false))
     = (manager_run
          [Peers [{| PeersManager.id := "B"; PeersManager.rtcSupported := true |}]]
          (PeersManager.new false),
        RTCPeer.Throws Peer.TypeError).
Proof.
  split; [reflexivity|].
  exact (proj1 (fallback_cannot_send
                  [Peers [{| PeersManager.id := "B"; PeersManager.rtcSupported := true |}]]
                  "B" [hello] hello_world eq_refl)).
Defined.

(** ** The page becomes visible *)

(** X21: when the page is reported visible the connection is
    re-established at once: in every state the object reaches, after the
    event it holds a socket that is connecting or open and no
    reconnection is pending; if the socket it held was connecting or
    open it still holds that socket and has constructed no other.  A
    report that the page is hidden changes nothing. *)
Theorem visible_page_reconnects (os : list ServerConnection.op) :
  ServerConnection.timeouts
    (ServerConnection.step (ServerConnection.VisibilityChange false)
       (ServerConnection.run os ServerConnection.new)) = []
  /\ (exists ws,
        ServerConnection._socket
          (ServerConnection.step (ServerConnection.VisibilityChange false)
             (ServerConnection.run os ServerConnection.new)) = Some ws
        /\ live ws = true)
  /\ (forall ws,
        ServerConnection._socket (ServerConnection.run os ServerConnection.new) = Some ws ->
        live ws = true ->
        sockets (ServerConnection.step (ServerConnection.VisibilityChange false)
                   (ServerConnection.run os ServerConnection.new))
        = sockets (ServerConnection.run os ServerConnection.new))
  /\ ServerConnection.step (ServerConnection.VisibilityChange true)
       (ServerConnection.run os ServerConnection.new)
     = ServerConnection.run os ServerConnection.new.
Proof.
  pose proof (run_pending os) as Hinv.
  set (s := ServerConnection.run os ServerConnection.new) in *.
  cbn [ServerConnection.step ServerConnection._onVisibilityChange].
  split; [apply connect_pending, Hinv|]. split; [apply connect_live|].
  split; [|reflexivity].
  intros ws Hws Hlive. unfold sockets, ServerConnection._connect,
    ServerConnection._isConnected, ServerConnection._isConnecting.
  destruct (clearTimeout_sockets (ServerConnection._reconnectTimer s) s) as (Hs & Hr & _).
  rewrite Hs, Hws. unfold live in Hlive. rewrite orb_comm in Hlive. rewrite Hlive.
  rewrite Hs, Hr, Hws. reflexivity.
Qed.

(** ** Refreshing a caller *)

Lemma refresh_caller_without_channel (p : RTCPeer.t) (conn : RTCPeer.RTCPeerConnection) :
  RTCPeer._peer p = Some conn ->
  RTCPeer._isCaller p = JS.Val true ->
  RTCPeer._channel p = None ->
  RTCPeer.refresh p
  = RTCPeer.set_peer
      (Some (RTCPeer.call_on RTCPeer.CreateOffer
               (RTCPeer.call_on RTCPeer.CreateDataChannel conn))) p.
Proof.
  intros Hp Hc Hch. unfold RTCPeer.refresh, RTCPeer._start, RTCPeer._createChannel.
  rewrite Hch, Hc, Hp, andb_false_r. cbn [RTCPeer.truthy_bool]. rewrite Hp. reflexivity.
Qed.

Lemma offers_after_offer (p : RTCPeer.t) (conn : RTCPeer.RTCPeerConnection) :
  RTCPeer._peer p = Some conn ->
  RTCPeer.offers
    (RTCPeer.set_peer
       (Some (RTCPeer.call_on RTCPeer.CreateOffer
                (RTCPeer.call_on RTCPeer.CreateDataChannel conn))) p)
  = S (RTCPeer.offers p).
Proof.
  intros Hp. unfold RTCPeer.offers. rewrite Hp.
  cbn [RTCPeer.set_peer RTCPeer._peer RTCPeer.call_on RTCPeer.calls].
  rewrite !List.filter_app, !length_app. cbn. lia.
Qed.

(** X22: a caller whose channel has not opened yet initiates the
    handshake again at every [refresh]: on a session that holds a
    connection, is the caller and has no channel, [n] calls of [refresh]
    ask the same connection for [n] more data channels and [n] more
    offers, and leave the session a caller without channel. *)
Theorem refresh_before_open_offers_again
    (n : nat) (p : RTCPeer.t) (conn : RTCPeer.RTCPeerConnection) :
  RTCPeer._peer p = Some conn ->
  RTCPeer._isCaller p = JS.Val true ->
  RTCPeer._channel p = None ->
  RTCPeer.offers (rtc_run (repeat Refreshed n) p) = (RTCPeer.offers p + n)%nat
  /\ calls_made (rtc_run (repeat Refreshed n) p)
     = RTCPeer.calls conn
       ++ concat (repeat [RTCPeer.CreateDataChannel; RTCPeer.CreateOffer] n)
  /\ RTCPeer._isCaller (rtc_run (repeat Refreshed n) p) = JS.Val true
  /\ RTCPeer._channel (rtc_run (repeat Refreshed n) p) = None
  /\ RTCPeer.base (rtc_run (repeat Refreshed n) p) = RTCPeer.base p.
Proof.
  revert p conn. induction n as [|n IH]; intros p conn Hp Hc Hch.
  - cbn [repeat rtc_run fold_left concat]. unfold calls_made. rewrite Hp, app_nil_r.
    repeat split; try assumption. lia.
  - cbn [repeat]. unfold rtc_run. cbn [fold_left rtc_step].
    fold (rtc_run (repeat Refreshed n) (RTCPeer.refresh p)).
    rewrite (refresh_caller_without_channel p conn Hp Hc Hch).
    destruct (IH (RTCPeer.set_peer
                    (Some (RTCPeer.call_on RTCPeer.CreateOffer
                             (RTCPeer.call_on RTCPeer.CreateDataChannel conn))) p)
                 _ eq_refl Hc Hch) as (Ho & Hcalls & Hrole & Hchan & Hbase).
    rewrite Ho, Hcalls, Hrole, Hchan, Hbase, (offers_after_offer p conn Hp).
    split; [lia|]. split; [|repeat split].
    cbn [RTCPeer.call_on RTCPeer.calls concat]. rewrite <- !app_assoc. reflexivity.
Qed.

Lemma refresh_before_open_offers_again_B :
  RTCPeer._peer (RTCPeer.new (JS.Val "B"))
  = Some {| RTCPeer.connectionState := RTCPeer.CNew;
            RTCPeer.ondatachannel := false;
            RTCPeer.calls := [RTCPeer.CreateDataChannel; RTCPeer.CreateOffer] |}
  /\ RTCPeer._isCaller (RTCPeer.new (JS.Val "B")) = JS.Val true
  /\ RTCPeer._channel (RTCPeer.new (JS.Val "B")) = None
  /\ RTCPeer.offers (rtc_run (repeat Refreshed 2) (RTCPeer.new (JS.Val "B")))
     = (RTCPeer.offers (RTCPeer.new (JS.Val "B")) + 2)%nat.
Proof.
  split; [reflexivity|]. split; [reflexivity|]. split; [reflexivity|].
  exact (proj1 (refresh_before_open_offers_again 2 (RTCPeer.new (JS.Val "B")) _
                  eq_refl eq_refl eq_refl)).
Defined.
